(** * tosdev: session store and durable message queue

    A shallow embedding of two services of the repository:

    - [services/session.js] ([SessionService]): the in-memory registry of
      authorization sessions with sliding expiration;
    - [tos-chat/src/services/messageQueue.ts] ([MessageQueue]): the
      offline-tolerant, retrying, priority-ordered queue persisting chat
      messages and conversation updates, together with the part of
      [messagePersistence.persistMessage] that decides what the queue sees;

    and of what stands next to them: the session middleware and the SSE
    route of [server.js], which are the callers of the session store, and
    [persistMessage] of [messagePersistence] with its own retries, which
    the queue calls.

    Timestamps are milliseconds since the epoch, as [Date.now()] returns
    them; an ISO string written by [toISOString] and read back by
    [new Date(...)] denotes the same millisecond, so the string fields
    [created_at], [last_accessed] and [expires_at] are kept as [Z]. *)

From stdpp Require Import base option list gmap strings fin_maps.
From Stdlib Require Import ZArith Lia Ascii.

Local Open Scope Z_scope.

(** ** Session store ([services/session.js]) *)

Module Session.

(** The credential material [server.js] hands to [createSession]. *)
Record SessionData := mkSessionData {
  xano_token : string;
  workspace_id : Z;
  instance_domain : string;
}.

Record Session := mkSession {
  session_id : string;
  data : SessionData;
  created_at : Z;
  last_accessed : Z;
  expires_at : Z;
}.

(** [this.sessions] (a JS [Map] keyed by session id) and
    [this.sessionTimeout]. *)
Record SessionService := mkService {
  sessions : gmap string Session;
  sessionTimeout : Z;
}.

Definition with_sessions (svc : SessionService) (m : gmap string Session)
  : SessionService :=
  {| sessions := m; sessionTimeout := sessionTimeout svc |}.

(** [new SessionService()] with [SESSION_TIMEOUT_MS] parsed to [timeout]. *)
Definition newService (timeout : Z) : SessionService :=
  {| sessions := ∅; sessionTimeout := timeout |}.

(** [createSession(sessionData)]; [sessionId] is what [generateSessionId]
    returned and [now] the clock during the call. *)
Definition createSession (now : Z) (sessionId : string) (sessionData : SessionData)
    (svc : SessionService) : Session * SessionService :=
  let session :=
    {| session_id := sessionId;
       data := sessionData;
       created_at := now;
       last_accessed := now;
       expires_at := now + sessionTimeout svc |} in
  (session, with_sessions svc (<[sessionId := session]> (sessions svc))).

(** [getSession(sessionId)]: [new Date() > new Date(session.expires_at)]
    is the comparison [expires_at < now] on milliseconds. *)
Definition getSession (now : Z) (sessionId : string) (svc : SessionService)
  : option Session * SessionService :=
  match sessions svc !! sessionId with
  | None => (None, svc)
  | Some session =>
      if expires_at session <? now
      then (None, with_sessions svc (delete sessionId (sessions svc)))
      else (Some session, svc)
  end.

(** [updateLastAccessed(sessionId)]. *)
Definition updateLastAccessed (now : Z) (sessionId : string) (svc : SessionService)
  : SessionService :=
  match sessions svc !! sessionId with
  | Some session =>
      let session' :=
        {| session_id := session_id session;
           data := data session;
           created_at := created_at session;
           last_accessed := now;
           expires_at := now + sessionTimeout svc |} in
      with_sessions svc (<[sessionId := session']> (sessions svc))
  | None => svc
  end.

(** [deleteSession(sessionId)] returns whether a record was deleted. *)
Definition deleteSession (sessionId : string) (svc : SessionService)
  : bool * SessionService :=
  (bool_decide (is_Some (sessions svc !! sessionId)),
   with_sessions svc (delete sessionId (sessions svc))).

(** [cleanupExpiredSessions()]: every entry with [now > expires_at] is
    deleted, the others stay. *)
Definition cleanupExpiredSessions (now : Z) (svc : SessionService) : SessionService :=
  with_sessions svc
    (filter (λ kv : string * Session, ¬ (expires_at kv.2 < now)) (sessions svc)).

(** The calls the server makes on the store, each at its clock value. *)
Inductive Call :=
| CCreate (sessionId : string) (sessionData : SessionData)
| CGet (sessionId : string)
| CTouch (sessionId : string)
| CDelete (sessionId : string)
| CSweep.

Definition exec (now : Z) (c : Call) (svc : SessionService) : SessionService :=
  match c with
  | CCreate sid d => (createSession now sid d svc).2
  | CGet sid => (getSession now sid svc).2
  | CTouch sid => updateLastAccessed now sid svc
  | CDelete sid => (deleteSession sid svc).2
  | CSweep => cleanupExpiredSessions now svc
  end.

(** The stores the service passes through: it starts empty, and each call is
    made at a clock value not below that of the call before. *)
Inductive history : Z → SessionService → Prop :=
| history_new timeout t : history t (newService timeout)
| history_call t t' c svc :
    history t svc → t ≤ t' → history t' (exec t' c svc).

(** Every stored expiration is at most the latest clock value plus the
    timeout. *)
Definition bounded (t : Z) (svc : SessionService) : Prop :=
  ∀ sid s, sessions svc !! sid = Some s → expires_at s ≤ t + sessionTimeout svc.

(** A store holding one session that expires at millisecond 100. *)
Definition demoData : SessionData := mkSessionData "token" 7 "x.example".
Definition demoSession : Session := mkSession "s1" demoData 0 0 100.
Definition demoService : SessionService :=
  mkService {[ "s1"%string := demoSession ]} 100.

Definition demoHistory : history 0 demoService :=
  history_call 0 0 (CCreate "s1" demoData) (newService 100)
    (history_new 100 0) (Z.le_refl 0).

(** [getSessionCount()]. *)
Definition getSessionCount (svc : SessionService) : nat := size (sessions svc).

(** The [session_data] object of [getSessionDebugInfo]; its fields carry the
    prefix [d_] because they repeat those of the session. *)
Record DebugData := mkDebugData {
  d_instance_domain : string;
  d_workspace_id : Z;
  d_created_at : Z;
  d_last_accessed : Z;
  d_expires_at : Z;
  time_until_expiry : Z;
}.

Record DebugInfo := mkDebugInfo {
  d_session_id : string;
  d_exists : bool;
  total_sessions : nat;
  session_data : option DebugData;
}.

(** [getSessionDebugInfo(sessionId)]: a plain [this.sessions.get], with no
    look at the expiration;
    [Math.max(0, new Date(session.expires_at) - new Date())] is
    [Z.max 0 (expires_at - now)] on milliseconds. *)
Definition getSessionDebugInfo (now : Z) (sessionId : string) (svc : SessionService)
  : DebugInfo :=
  let session := sessions svc !! sessionId in
  {| d_session_id := sessionId;
     d_exists := bool_decide (is_Some session);
     total_sessions := size (sessions svc);
     session_data :=
       (λ s, {| d_instance_domain := instance_domain (data s);
                d_workspace_id := workspace_id (data s);
                d_created_at := created_at s;
                d_last_accessed := last_accessed s;
                d_expires_at := expires_at s;
                time_until_expiry := Z.max 0 (expires_at s - now) |}) <$> session |}.

(** [n.toString(36)] for an integer [n]: the digits [0-9a-z], most
    significant first, after a minus sign when [n] is negative.  The loop
    divides by 36 until the quotient has one digit; [fuel] bounds its
    iterations by the number of binary digits of [n]. *)
Definition digit36 (d : Z) : ascii :=
  ascii_of_N (Z.to_N (if d <? 10 then 48 + d else 87 + d)).

Fixpoint digits36 (fuel : nat) (n : Z) (acc : string) : string :=
  let acc' := String (digit36 (n mod 36)) acc in
  match fuel with
  | O => acc'
  | S fuel' => if n <? 36 then acc' else digits36 fuel' (n / 36) acc'
  end.

Definition toString36 (n : Z) : string :=
  if n <? 0
  then String "-" (digits36 (Z.to_nat (Z.log2 (- n))) (- n) EmptyString)
  else digits36 (Z.to_nat (Z.log2 n)) n EmptyString.

(** [generateSessionId()]: [now] is [Date.now()] and [randomPart] what
    [Math.random().toString(36).substring(2, 15)] evaluated to. *)
Definition generateSessionId (now : Z) (randomPart : string) : string :=
  ("tos_" +:+ toString36 now +:+ "_" +:+ randomPart)%string.

(** Reading base-36 digits back: the value of a digit character, and of a
    digit string continuing the number [v]. *)
Definition value36 (c : ascii) : Z :=
  let k := Z.of_N (N_of_ascii c) in
  if k <? 58 then k - 48 else k - 87.

Fixpoint horner (v : Z) (s : string) : Z :=
  match s with
  | EmptyString => v
  | String c s' => horner (v * 36 + value36 c) s'
  end.

(** The string has no underscore. *)
Fixpoint plain (s : string) : bool :=
  match s with
  | EmptyString => true
  | String c s' => negb (Ascii.eqb c "_") && plain s'
  end.

End Session.

(** ** Durable queue ([tos-chat/src/services/messageQueue.ts]) *)

Module Queue.

Inductive Priority := high | medium | low.
Inductive Status := pending | processing | completed | failed.

#[global] Instance Priority_eq_dec : EqDecision Priority.
Proof. solve_decision. Defined.
#[global] Instance Status_eq_dec : EqDecision Status.
Proof. solve_decision. Defined.

(** The payload handed to [queueMessage] ([MessageData] of
    [messagePersistence]), without its optional [tool_data] and [metadata]
    bags: the queue never reads them ([persistMessage] stamps
    [metadata.timestamp] when it is missing, which nothing below depends
    on). *)
Record MessageData := mkMessageData {
  conversation_id : Z;
  sender : string;
  content : string;
  message_type : string;
}.

Record QueuedMessage := mkQueuedMessage {
  id : string;
  messageData : MessageData;
  authToken : string;
  timestamp : Z;
  retryCount : nat;
  priority : Priority;
  status : Status;
}.

(** The partial update [{ last_message_at, message_count }] queued by the
    conversation hook. *)
Record ConversationFields := mkConversationFields {
  last_message_at : option string;
  message_count : option Z;
}.

(** [QueuedConversationUpdate]; its fields carry the prefix [u_] because the
    two interfaces share field names. *)
Record QueuedConversationUpdate := mkQueuedConversationUpdate {
  u_id : string;
  u_conversationId : Z;
  u_updates : ConversationFields;
  u_authToken : string;
  u_timestamp : Z;
  u_retryCount : nat;
}.

#[global] Instance MessageData_eq_dec : EqDecision MessageData.
Proof. solve_decision. Defined.
#[global] Instance QueuedMessage_eq_dec : EqDecision QueuedMessage.
Proof. solve_decision. Defined.
#[global] Instance ConversationFields_eq_dec : EqDecision ConversationFields.
Proof. solve_decision. Defined.
#[global] Instance QueuedConversationUpdate_eq_dec : EqDecision QueuedConversationUpdate.
Proof. solve_decision. Defined.

Definition maxRetries : nat := 3.
Definition batchSize : nat := 5.

(** What [JSON.stringify] writes under the key [tos_message_queue] and
    [JSON.parse] reads back: the two arrays, by value. *)
Record Stored := mkStored {
  messages : list QueuedMessage;
  conversations : list QueuedConversationUpdate;
}.

(** The fields of a [MessageQueue] instance and the [localStorage] entry it
    mirrors itself to.  [QueuedMessage]s are JS objects shared between
    [this.messageQueue] and the batch a pass is working on, so they live in
    [objects] and are referred to by their index there; [messageQueue] is the
    array of references.  Conversation updates are spliced out of their array
    before they are touched, so they are kept by value. *)
Record MessageQueue := mkMessageQueue {
  objects : list QueuedMessage;
  messageQueue : list nat;
  conversationQueue : list QueuedConversationUpdate;
  isProcessing : bool;
  isOnline : bool;
  localStorage : option Stored;
}.

Definition with_objects (q : MessageQueue) (v : list QueuedMessage) :=
  mkMessageQueue v (messageQueue q) (conversationQueue q)
                 (isProcessing q) (isOnline q) (localStorage q).
Definition with_messageQueue (q : MessageQueue) (v : list nat) :=
  mkMessageQueue (objects q) v (conversationQueue q)
                 (isProcessing q) (isOnline q) (localStorage q).
Definition with_conversationQueue (q : MessageQueue) (v : list QueuedConversationUpdate) :=
  mkMessageQueue (objects q) (messageQueue q) v
                 (isProcessing q) (isOnline q) (localStorage q).
Definition with_isProcessing (q : MessageQueue) (v : bool) :=
  mkMessageQueue (objects q) (messageQueue q) (conversationQueue q)
                 v (isOnline q) (localStorage q).
Definition with_isOnline (q : MessageQueue) (v : bool) :=
  mkMessageQueue (objects q) (messageQueue q) (conversationQueue q)
                 (isProcessing q) v (localStorage q).
Definition with_localStorage (q : MessageQueue) (v : option Stored) :=
  mkMessageQueue (objects q) (messageQueue q) (conversationQueue q)
                 (isProcessing q) (isOnline q) v.

(** [this.messageQueue] read through its references. *)
Definition contents (q : MessageQueue) : list QueuedMessage :=
  omap (λ r, objects q !! r) (messageQueue q).

(** An array callback [m => f(m)] applied through a reference. *)
Definition test (f : QueuedMessage → bool) (q : MessageQueue) (r : nat) : bool :=
  from_option f false (objects q !! r).

Definition hasStatus (s : Status) (m : QueuedMessage) : bool :=
  bool_decide (status m = s).

(** [saveToStorage()]; [w] tells whether [localStorage.setItem] succeeds
    (when it throws, the [catch] only logs). *)
Definition saveToStorage (w : bool) (q : MessageQueue) : MessageQueue :=
  if w
  then with_localStorage q
         (Some {| messages := contents q; conversations := conversationQueue q |})
  else q.

(** [loadFromStorage()]: the parsed messages are fresh objects. *)
Definition loadFromStorage (q : MessageQueue) : MessageQueue :=
  match localStorage q with
  | Some stored =>
      mkMessageQueue (objects q ++ messages stored)
                     (seq (length (objects q)) (length (messages stored)))
                     (conversations stored)
                     (isProcessing q) (isOnline q) (localStorage q)
  | None => q
  end.

(** [new MessageQueue()] in a page whose [navigator.onLine] is [online] and
    whose [localStorage] entry is [ls]. *)
Definition construct (online : bool) (ls : option Stored) : MessageQueue :=
  loadFromStorage (mkMessageQueue [] [] [] false online ls).

(** Lines 83-100 of [queueMessage]: build the item, insert it by priority,
    save.  [gid] is what [generateId] returned, [now] is [Date.now()]. *)
Definition enqueue (gid : string) (now : Z) (w : bool)
    (md : MessageData) (token : string) (prio : Priority)
    (q : MessageQueue) : MessageQueue :=
  let queuedMessage :=
    {| id := gid; messageData := md; authToken := token; timestamp := now;
       retryCount := 0; priority := prio; status := pending |} in
  let r := length (objects q) in
  let q1 := with_objects q (objects q ++ [queuedMessage]) in
  let q2 :=
    if decide (prio = high)
    then with_messageQueue q1 (r :: messageQueue q1)
    else with_messageQueue q1 (messageQueue q1 ++ [r]) in
  saveToStorage w q2.

(** [queueConversationUpdate]. *)
Definition queueConversationUpdate (gid : string) (now : Z) (w : bool)
    (conversationId : Z) (updates : ConversationFields) (token : string)
    (q : MessageQueue) : MessageQueue :=
  let queuedUpdate :=
    {| u_id := gid; u_conversationId := conversationId; u_updates := updates;
       u_authToken := token; u_timestamp := now; u_retryCount := 0 |} in
  saveToStorage w
    (with_conversationQueue q (conversationQueue q ++ [queuedUpdate])).

(** [hasQueuedItems()]. *)
Definition hasQueuedItems (q : MessageQueue) : bool :=
  existsb (test (hasStatus pending) q) (messageQueue q)
  || bool_decide (0 < length (conversationQueue q))%nat.

(** [clearFailedMessages()]. *)
Definition clearFailedMessages (w : bool) (q : MessageQueue) : nat * MessageQueue :=
  let failedCount :=
    length (filter (λ r, test (hasStatus failed) q r) (messageQueue q)) in
  (failedCount,
   saveToStorage w
     (with_messageQueue q
        (filter (λ r, test (λ m, negb (hasStatus failed m)) q r) (messageQueue q)))).

(** The test [!oldToken || item.authToken === oldToken]; [!oldToken] holds
    for [null] and for the empty string. *)
Definition matchesOld (oldToken : option string) (token : string) : bool :=
  match oldToken with
  | None => true
  | Some o => bool_decide (o = EmptyString) || bool_decide (token = o)
  end.

Definition set_authToken (token : string) (m : QueuedMessage) : QueuedMessage :=
  mkQueuedMessage (id m) (messageData m) token (timestamp m)
                  (retryCount m) (priority m) (status m).

Definition u_set_authToken (token : string) (u : QueuedConversationUpdate) :=
  mkQueuedConversationUpdate (u_id u) (u_conversationId u) (u_updates u) token
                             (u_timestamp u) (u_retryCount u).

Definition rewriteMessage (oldToken : option string) (newToken : string)
    (acc : nat * list QueuedMessage) (r : nat) : nat * list QueuedMessage :=
  match acc.2 !! r with
  | Some m =>
      if matchesOld oldToken (authToken m)
      then (S acc.1, <[r := set_authToken newToken m]> acc.2)
      else acc
  | None => acc
  end.

Definition rewriteUpdate (oldToken : option string) (newToken : string)
    (u : QueuedConversationUpdate) : QueuedConversationUpdate :=
  if matchesOld oldToken (u_authToken u) then u_set_authToken newToken u else u.

(** [updateAuthTokens(oldToken, newToken)] up to and including its
    [saveToStorage()]; returns [updatedCount] with the new state. *)
Definition rewriteTokens (w : bool) (oldToken : option string) (newToken : string)
    (q : MessageQueue) : nat * MessageQueue :=
  let '(n1, objs) :=
    foldl (rewriteMessage oldToken newToken) (0%nat, objects q) (messageQueue q) in
  let n2 :=
    length (filter (λ u, matchesOld oldToken (u_authToken u)) (conversationQueue q)) in
  let q1 :=
    with_conversationQueue (with_objects q objs)
      (rewriteUpdate oldToken newToken <$> conversationQueue q) in
  let updatedCount := (n1 + n2)%nat in
  (updatedCount, if (0 <? updatedCount)%nat then saveToStorage w q1 else q1).

(** *** One drain pass, piece by piece *)

(** The Remote Writer calls a pass makes, with the arguments it passes. *)
Inductive RemoteCall :=
| UpdateConversation (u : QueuedConversationUpdate)
| PersistMessage (r : nat) (md : MessageData) (token : string) (retry : nat).

#[global] Instance RemoteCall_eq_dec : EqDecision RemoteCall.
Proof. solve_decision. Defined.

(** What [persistMessage] of [messagePersistence] reports to the queue
    ([immediate] is false there): [success: false] for an invalid
    [conversation_id] without any request, otherwise whether the POST went
    through ([fetch] resolved, [response.ok], body parsed).  The retry it
    schedules for itself with [setTimeout] after a failure does not change
    the result it has already returned, nor anything the queue holds. *)
Definition persistMessage (md : MessageData) (responseOk : bool) : bool :=
  if conversation_id md <=? 0 then false else responseOk.

Definition set_status (s : Status) (m : QueuedMessage) : QueuedMessage :=
  mkQueuedMessage (id m) (messageData m) (authToken m) (timestamp m)
                  (retryCount m) (priority m) s.

Definition set_retryCount (n : nat) (m : QueuedMessage) : QueuedMessage :=
  mkQueuedMessage (id m) (messageData m) (authToken m) (timestamp m)
                  n (priority m) (status m).

Definition u_set_retryCount (n : nat) (u : QueuedConversationUpdate) :=
  mkQueuedConversationUpdate (u_id u) (u_conversationId u) (u_updates u)
                             (u_authToken u) (u_timestamp u) n.

(** In-place mutation of the object behind a reference. *)
Definition mutate (f : QueuedMessage → QueuedMessage) (r : nat) (q : MessageQueue) :=
  with_objects q (alter f r (objects q)).

(** [this.conversationQueue.splice(0, this.batchSize)]: the removed head and
    the queue left behind. *)
Definition spliceUpdates (q : MessageQueue)
  : list QueuedConversationUpdate * MessageQueue :=
  (take batchSize (conversationQueue q),
   with_conversationQueue q (drop batchSize (conversationQueue q))).

(** The body of the update loop once [updateConversation] has answered
    ([success] is [result.success]; an exception counts as [false]). *)
Definition settleUpdate (success : bool) (u : QueuedConversationUpdate)
    (q : MessageQueue) : MessageQueue :=
  if success then q
  else if (u_retryCount u <? maxRetries)%nat
       then with_conversationQueue q
              (conversationQueue q ++ [u_set_retryCount (S (u_retryCount u)) u])
       else q.

(** [this.messageQueue.filter(m => m.status === 'pending').slice(0, batchSize)]. *)
Definition selectPending (q : MessageQueue) : list nat :=
  take batchSize (filter (λ r, test (hasStatus pending) q r) (messageQueue q)).

(** What lines 225-241 do to the message once [persistMessage] has answered. *)
Definition settle (success : bool) (m : QueuedMessage) : QueuedMessage :=
  if success then set_status completed m
  else if (retryCount m <? maxRetries)%nat
       then set_status pending (set_retryCount (S (retryCount m)) m)
       else set_status failed m.

(** The callback of the final [filter] of [processMessages]. *)
Definition survives (m : QueuedMessage) : bool :=
  negb (hasStatus completed m)
  && negb (hasStatus failed m && (maxRetries <=? retryCount m)%nat).

Definition prune (q : MessageQueue) : MessageQueue :=
  with_messageQueue q (filter (λ r, test survives q r) (messageQueue q)).

(** The call [persistMessage(message.messageData, message.authToken,
    { retryCount: message.retryCount })] for the object behind [r]. *)
Definition persistCall (q : MessageQueue) (r : nat) : list RemoteCall :=
  match objects q !! r with
  | Some m => [PersistMessage r (messageData m) (authToken m) (retryCount m)]
  | None => []
  end.

(** [result.success] of that call when the POST answers [responseOk]. *)
Definition persistResult (q : MessageQueue) (r : nat) (responseOk : bool) : bool :=
  match objects q !! r with
  | Some m => persistMessage (messageData m) responseOk
  | None => false
  end.

(** What one attempt makes of a message: the iteration of the message loop
    on the object itself. *)
Definition attempt (responseOk : bool) (m : QueuedMessage) : QueuedMessage :=
  settle (persistMessage (messageData m) responseOk) (set_status processing m).

(** *** A pass that nothing interleaves with

    The three async functions run to completion, as they do when no other
    handler runs while they are suspended.  [res i] is the answer to the
    [i]-th call of the loop. *)

Inductive Completion := Returned | Threw.

Fixpoint updateLoop (res : nat → bool) (i : nat)
    (updates : list QueuedConversationUpdate) (q : MessageQueue)
  : MessageQueue * list RemoteCall :=
  match updates with
  | [] => (q, [])
  | update :: rest =>
      let q1 := settleUpdate (res i) update q in
      let '(q2, calls) := updateLoop res (S i) rest q1 in
      (q2, UpdateConversation update :: calls)
  end.

(** [processConversationUpdates()]; [imported] tells whether the dynamic
    [import('./conversationManager')] resolves. *)
Definition processConversationUpdates (imported : bool) (res : nat → bool)
    (q : MessageQueue) : MessageQueue * list RemoteCall * Completion :=
  if imported then
    let '(updates, q1) := spliceUpdates q in
    let '(q2, calls) := updateLoop res 0 updates q1 in
    (q2, calls, Returned)
  else (q, [], Threw).

(** One iteration of the message loop, from [message.status = 'processing']
    to the end of its [try]/[catch]; [responseOk] is the answer to its POST. *)
Definition persistIteration (responseOk : bool) (r : nat) (q : MessageQueue)
  : MessageQueue * list RemoteCall :=
  let q1 := mutate (set_status processing) r q in
  (mutate (settle (persistResult q1 r responseOk)) r q1, persistCall q1 r).

Fixpoint persistLoop (res : nat → bool) (i : nat)
    (pendingMessages : list nat) (q : MessageQueue)
  : MessageQueue * list RemoteCall :=
  match pendingMessages with
  | [] => (q, [])
  | r :: rest =>
      let '(q1, call) := persistIteration (res i) r q in
      let '(q2, calls) := persistLoop res (S i) rest q1 in
      (q2, call ++ calls)
  end.

(** [processMessages()]; [imported] tells whether the dynamic
    [import('./messagePersistence')] resolves. *)
Definition processMessages (imported : bool) (res : nat → bool)
    (q : MessageQueue) : MessageQueue * list RemoteCall * Completion :=
  if imported then
    let pendingMessages := selectPending q in
    let '(q1, calls) := persistLoop res 0 pendingMessages q in
    (prune q1, calls, Returned)
  else (q, [], Threw).

(** What the environment answers during one pass. *)
Record Replies := mkReplies {
  importConversationManager : bool;
  updateConversationOk : nat → bool;
  importMessagePersistence : bool;
  responseOk : nat → bool;
  setItemOk : bool;
}.

(** [processQueue()] from its guard to the end of its [finally]. *)
Definition drainPass (env : Replies) (q : MessageQueue)
  : MessageQueue * list RemoteCall :=
  if isProcessing q || negb (isOnline q) then (q, [])
  else
    let q0 := with_isProcessing q true in
    let '(q1, calls1, c1) :=
      processConversationUpdates (importConversationManager env)
                                 (updateConversationOk env) q0 in
    let '(q2, calls2) :=
      match c1 with
      | Returned =>
          let '(q2, calls2, _) :=
            processMessages (importMessagePersistence env) (responseOk env) q1 in
          (q2, calls2)
      | Threw => (q1, [])
      end in
    (saveToStorage (setItemOk env) (with_isProcessing q2 false), calls1 ++ calls2).

(** *** The queue among the other handlers of the page

    [processQueue] is an async function: it runs up to its next [await],
    and any other handler (an enqueue, the 2-second timer, a connectivity
    event) may run before the awaited promise settles.  A suspended
    execution is recorded by the [await] it is waiting at. *)

Inductive Phase :=
| AwaitImportConversationManager
| AwaitUpdateConversation (update : QueuedConversationUpdate)
                          (rest : list QueuedConversationUpdate)
| AwaitImportMessagePersistence
| AwaitPersistMessage (r : nat) (md : MessageData) (rest : list nat).

(** The instance, the executions of [processQueue] that are suspended, each
    with the serial number of the pass it is, the number of passes started
    so far, and the Remote Writer calls made so far (oldest first), each
    with the serial number of the pass that made it. *)
Record Machine := mkMachine {
  queue : MessageQueue;
  passes : list (nat * Phase);
  started : nat;
  calls : list (nat * RemoteCall);
}.

Definition with_queue (M : Machine) (q : MessageQueue) : Machine :=
  mkMachine q (passes M) (started M) (calls M).

(** A call of [processQueue()], up to its first [await]. *)
Definition processQueue (M : Machine) : Machine :=
  if isProcessing (queue M) || negb (isOnline (queue M)) then M
  else mkMachine (with_isProcessing (queue M) true)
                 (passes M ++ [(started M, AwaitImportConversationManager)])
                 (S (started M)) (calls M).

(** The [finally] block. *)
Definition finishPass (w : bool) (q : MessageQueue) : MessageQueue :=
  saveToStorage w (with_isProcessing q false).

(** Entering the next iteration of the update loop, or leaving it for
    [processMessages]. *)
Definition nextUpdate (updates : list QueuedConversationUpdate)
  : Phase * list RemoteCall :=
  match updates with
  | update :: rest => (AwaitUpdateConversation update rest, [UpdateConversation update])
  | [] => (AwaitImportMessagePersistence, [])
  end.

(** Entering the next iteration of the message loop, or leaving it through
    the final [filter] and the [finally] block. *)
Fixpoint nextMessage (w : bool) (pendingMessages : list nat) (q : MessageQueue)
  : MessageQueue * option Phase * list RemoteCall :=
  match pendingMessages with
  | [] => (finishPass w (prune q), None, [])
  | r :: rest =>
      let q1 := mutate (set_status processing) r q in
      match objects q1 !! r with
      | Some m => (q1, Some (AwaitPersistMessage r (messageData m) rest), persistCall q1 r)
      | None => nextMessage w rest q1
      end
  end.

(** The awaited promise settles ([ok]: fulfilled, and with a successful
    result) and the execution runs to its next [await] or to its end. *)
Definition resume (ok w : bool) (ph : Phase) (q : MessageQueue)
  : MessageQueue * option Phase * list RemoteCall :=
  match ph with
  | AwaitImportConversationManager =>
      if ok then
        let '(updates, q1) := spliceUpdates q in
        let '(ph', cs) := nextUpdate updates in
        (q1, Some ph', cs)
      else (finishPass w q, None, [])
  | AwaitUpdateConversation update rest =>
      let q1 := settleUpdate ok update q in
      let '(ph', cs) := nextUpdate rest in
      (q1, Some ph', cs)
  | AwaitImportMessagePersistence =>
      if ok then nextMessage w (selectPending q) q
      else (finishPass w q, None, [])
  | AwaitPersistMessage r md rest =>
      nextMessage w rest (mutate (settle (persistMessage md ok)) r q)
  end.

(** What can happen to the page. *)
Inductive Event :=
| QueueMessage (gid : string) (now : Z) (w : bool)
               (md : MessageData) (token : string) (prio : Priority)
| QueueConversationUpdate (gid : string) (now : Z) (w : bool)
               (conversationId : Z) (updates : ConversationFields) (token : string)
| Tick
| Online
| Offline
| UpdateAuthTokens (w : bool) (oldToken : option string) (newToken : string)
| ForceProcess
| ClearFailedMessages (w : bool)
| Settle (i : nat) (ok w : bool)
| Reload (online : bool).

(** [queueMessage(messageData, authToken, priority)]. *)
Definition queueMessage (gid : string) (now : Z) (w : bool)
    (md : MessageData) (token : string) (prio : Priority) (M : Machine) : Machine :=
  let M1 := with_queue M (enqueue gid now w md token prio (queue M)) in
  if isOnline (queue M1) && negb (isProcessing (queue M1))
  then processQueue M1 else M1.

(** The callback of [setInterval] in [startProcessing]. *)
Definition tick (M : Machine) : Machine :=
  if isOnline (queue M) && negb (isProcessing (queue M)) && hasQueuedItems (queue M)
  then processQueue M else M.

(** [updateAuthTokens(oldToken, newToken)]. *)
Definition updateAuthTokens (w : bool) (oldToken : option string) (newToken : string)
    (M : Machine) : Machine :=
  let '(updatedCount, q1) := rewriteTokens w oldToken newToken (queue M) in
  let M1 := with_queue M q1 in
  if (0 <? updatedCount)%nat && isOnline q1 then processQueue M1 else M1.

(** The promise awaited by the [i]-th suspended execution settles. *)
Definition settlePass (i : nat) (ok w : bool) (M : Machine) : Machine :=
  match passes M !! i with
  | Some (n, ph) =>
      let '(q1, next, cs) := resume ok w ph (queue M) in
      mkMachine q1
        (match next with
         | Some ph' => <[i := (n, ph')]> (passes M)
         | None => delete i (passes M)
         end)
        (started M)
        (calls M ++ ((λ c, (n, c)) <$> cs))
  | None => M
  end.

(** The page starts: [new MessageQueue()] over what [localStorage] holds. *)
Definition boot (online : bool) (ls : option Stored) : Machine :=
  mkMachine (construct online ls) [] 0 [].

Definition handle (e : Event) (M : Machine) : Machine :=
  match e with
  | QueueMessage gid now w md token prio => queueMessage gid now w md token prio M
  | QueueConversationUpdate gid now w c u token =>
      with_queue M (queueConversationUpdate gid now w c u token (queue M))
  | Tick => tick M
  | Online => processQueue (with_queue M (with_isOnline (queue M) true))
  | Offline => with_queue M (with_isOnline (queue M) false)
  | UpdateAuthTokens w o n => updateAuthTokens w o n M
  | ForceProcess => processQueue M
  | ClearFailedMessages w => with_queue M (clearFailedMessages w (queue M)).2
  | Settle i ok w => settlePass i ok w M
  | Reload online => boot online (localStorage (queue M))
  end.

Definition run (es : list Event) (M : Machine) : Machine :=
  foldl (λ M e, handle e M) M es.

(** The states a page reaches from its first start, with nothing stored. *)
Inductive reachable : Machine → Prop :=
| reachable_boot online : reachable (boot online None)
| reachable_handle e M : reachable M → reachable (handle e M).

(** *** Sample data *)

Definition demoData (c : Z) : MessageData := mkMessageData c "user" "hello" "text".

(** Every import resolves and every write is refused. *)
Definition allFail : Replies := mkReplies true (λ _, false) true (λ _, false) true.

(** Every import resolves and every write succeeds. *)
Definition allOk : Replies := mkReplies true (λ _, true) true (λ _, true) true.

(** A page that is online, started with nothing stored, and one medium
    message queued on it. *)
Definition fresh : MessageQueue := construct true None.
Definition oneQueued : MessageQueue :=
  enqueue "m1" 1000 true (demoData 1) "tok" medium fresh.

(** Six messages of mixed priority queued on an offline page, in the order
    medium, low, high, medium, high, low, and one conversation update; the
    page then comes back online. *)
Definition sixQueued : MessageQueue :=
  with_isOnline
    (queueConversationUpdate "u1" 7 true 1 (mkConversationFields None (Some 6%Z)) "tok"
    (enqueue "m6" 6 true (demoData 1) "tok" low
    (enqueue "m5" 5 true (demoData 1) "tok" high
    (enqueue "m4" 4 true (demoData 1) "tok" medium
    (enqueue "m3" 3 true (demoData 1) "tok" high
    (enqueue "m2" 2 true (demoData 1) "tok" low
    (enqueue "m1" 1 true (demoData 1) "tok" medium
       (construct false None))))))))
    true.

(** [oneQueued] after [n] passes in which every write is refused. *)
Definition afterFailures (n : nat) : MessageQueue :=
  Nat.iter n (λ q, (drainPass allFail q).1) oneQueued.

(** *** Reading a list of calls *)

(** Whom a call is made for. *)
Definition target (c : RemoteCall) : QueuedConversationUpdate + nat :=
  match c with
  | UpdateConversation u => inl u
  | PersistMessage r _ _ _ => inr r
  end.

(** The messages persisted by a list of calls, in the order of the calls. *)
Definition persistedRefs (cs : list RemoteCall) : list nat :=
  omap (λ c, match c with PersistMessage r _ _ _ => Some r | _ => None end) cs.

(** The updates a run of the update loop pushes back, in order. *)
Fixpoint requeued (res : nat → bool) (i : nat)
    (updates : list QueuedConversationUpdate) : list QueuedConversationUpdate :=
  match updates with
  | [] => []
  | update :: rest =>
      (if res i then []
       else if (u_retryCount update <? maxRetries)%nat
            then [u_set_retryCount (S (u_retryCount update)) update]
            else [])
      ++ requeued res (S i) rest
  end.

(** Two queues that differ in their objects only. *)
Definition same_frame (q q' : MessageQueue) : Prop :=
  messageQueue q' = messageQueue q
  ∧ conversationQueue q' = conversationQueue q
  ∧ isProcessing q' = isProcessing q
  ∧ isOnline q' = isOnline q
  ∧ localStorage q' = localStorage q
  ∧ length (objects q') = length (objects q).

(** *** Invariants of the page *)

(** Every reference in the message list points to an object, and no object
    is listed twice. *)
Definition wellFormed (q : MessageQueue) : Prop :=
  (∀ r, r ∈ messageQueue q → (r < length (objects q))%nat)
  ∧ NoDup (messageQueue q).

(** The suspended execution [ph] is waiting for the answer about [r]. *)
Definition awaits (ph : Phase) (r : nat) : Prop :=
  match ph with
  | AwaitPersistMessage r0 _ _ => r0 = r
  | _ => False
  end.

(** The references [ph] still has to work on after the one it waits for. *)
Definition remaining (ph : Phase) : list nat :=
  match ph with
  | AwaitPersistMessage _ _ rest => rest
  | _ => []
  end.

(** Some suspended execution is waiting for the answer about [r]. *)
Definition awaited (M : Machine) (r : nat) : Prop :=
  ∃ n ph, (n, ph) ∈ passes M ∧ awaits ph r.

(** A suspended message loop holds distinct references; the one it waits
    for is [processing] and was sent with its [messageData]; the others are
    still [pending]. *)
Definition phaseOk (q : MessageQueue) (ph : Phase) : Prop :=
  match ph with
  | AwaitPersistMessage r md rest =>
      NoDup (r :: rest)
      ∧ (∃ m, objects q !! r = Some m ∧ status m = processing ∧ messageData m = md)
      ∧ (∀ r', r' ∈ rest → ∃ m, objects q !! r' = Some m ∧ status m = pending)
  | _ => True
  end.

(** At most one execution of [processQueue] is suspended, and
    [isProcessing] tells whether one is. *)
Definition onePass (M : Machine) : Prop :=
  (passes M = [] ∧ isProcessing (queue M) = false)
  ∨ (∃ n ph, passes M = [(n, ph)] ∧ isProcessing (queue M) = true
             ∧ (n < started M)%nat ∧ phaseOk (queue M) ph).

(** How many times [persistMessage] was called for [r]. *)
Definition attempts (r : nat) (cs : list (nat * RemoteCall)) : nat :=
  length (filter (λ c, target c.2 = inr r) cs).

(** The retry bookkeeping of an object against the calls made for it. *)
Definition accounted (M : Machine) (r : nat) (m : QueuedMessage) : Prop :=
  (retryCount m ≤ maxRetries)%nat
  ∧ (attempts r (calls M)
     ≤ retryCount m + (if decide (status m = pending) then 0 else 1))%nat
  ∧ (status m = processing → awaited M r ∨ attempts r (calls M) = 0%nat).

Definition storedOk (q : MessageQueue) : Prop :=
  ∀ stored, localStorage q = Some stored →
    Forall (λ m, (retryCount m ≤ maxRetries)%nat) (messages stored).

Definition callsOk (M : Machine) : Prop :=
  ∀ n c, (n, c) ∈ calls M →
    (n < started M)%nat
    ∧ ∀ r, target c = inr r → (r < length (objects (queue M)))%nat.

Record invariant (M : Machine) : Prop := mkInvariant {
  inv_wellFormed : wellFormed (queue M);
  inv_onePass : onePass M;
  inv_accounted : ∀ r m, objects (queue M) !! r = Some m → accounted M r m;
  inv_storedOk : storedOk (queue M);
  inv_callsOk : callsOk M;
}.

(** The life of one message over the passes that select it: it is attempted
    while it is [pending]; [oks] are the answers to its POSTs, in order. *)
Definition retries (oks : list bool) (m : QueuedMessage) : QueuedMessage :=
  foldl (λ m ok, if hasStatus pending m then attempt ok m else m) m oks.

(** A page that started online with nothing stored, on which one message
    was queued (which starts a pass), and the same page after both imports
    of that pass resolved and the write was refused. *)
Definition demoMachine : Machine :=
  queueMessage "m1" 1000 true (demoData 1) "tok" medium (boot true None).
Definition demoRefused : Machine :=
  run [Settle 0 true true; Settle 0 true true; Settle 0 false true] demoMachine.

(** [r] is in the message list with the status [processing] although no
    suspended pass awaits it or still has it in its batch; [m0] is the
    object up to its token. *)
Definition retokened (m m' : QueuedMessage) : Prop :=
  m' = set_authToken (authToken m') m.

Definition stuck (r : nat) (m0 : QueuedMessage) (M : Machine) : Prop :=
  r ∈ messageQueue (queue M)
  ∧ (∃ m, objects (queue M) !! r = Some m ∧ retokened m0 m)
  ∧ ∀ n ph, (n, ph) ∈ passes M → ¬ awaits ph r ∧ r ∉ remaining ph.

Definition isReload (e : Event) : bool :=
  match e with Reload _ => true | _ => false end.
Definition isTokenRewrite (e : Event) : bool :=
  match e with UpdateAuthTokens _ _ _ => true | _ => false end.

(** A page reloaded over a queue that was saved while its only message was
    being sent, and a few things that happen to it afterwards. *)
Definition demoInFlight : QueuedMessage :=
  mkQueuedMessage "m1" (demoData 1) "tok" 1000 0 medium processing.
Definition demoCrashed : Machine :=
  boot true (Some (mkStored [demoInFlight] [])).
Definition demoAfterwards : list Event :=
  [Tick; ForceProcess; Settle 0 true true; Settle 0 true true;
   ClearFailedMessages true;
   QueueMessage "m2" 2000 true (demoData 1) "tok" high;
   Settle 0 true true; Settle 0 true true; Settle 0 true true].

(** *** Order of the calls of one pass *)

(** The messages persisted by pass number [n], in the order of its calls. *)
Definition persistedIn (n : nat) (cs : list (nat * RemoteCall)) : list nat :=
  persistedRefs (snd <$> filter (λ c, c.1 = n) cs).

(** In [l], [h] never comes after [m]. *)
Definition ordered (h m : nat) (l : list nat) : Prop :=
  ∀ l1 l2, l = l1 ++ m :: l2 → h ∉ l2.

(** What pass number [n] still has in its batch. *)
Definition batchOf (n : nat) (M : Machine) : list nat :=
  flat_map (λ p, if decide (p.1 = n) then remaining p.2 else []) (passes M).

(** A pass that has not reached its message loop has persisted nothing. *)
Definition tagged (M : Machine) : Prop :=
  ∀ n ph, (n, ph) ∈ passes M → (∀ r, ¬ awaits ph r) →
    persistedIn n (calls M) = [].

(** [h] and [m] are objects, [h] the younger, and wherever both occur, in
    the message list or in what a pass has sent and will send, [h] does not
    come after [m]. *)
Definition orderInv (h m : nat) (M : Machine) : Prop :=
  (m < h)%nat ∧ (h < length (objects (queue M)))%nat
  ∧ ordered h m (messageQueue (queue M))
  ∧ ∀ n, ordered h m (persistedIn n (calls M) ++ batchOf n M).

(** A page that went offline and had a medium message queued, and what
    happens after a high message is queued on it: it comes back online and
    the pass runs to its end, every write succeeding. *)
Definition demoOffline : Machine :=
  run [Offline; QueueMessage "m1" 1 true (demoData 1) "tok" medium]
      (boot true None).
Definition demoPass : list Event :=
  [Online; Settle 0 true true; Settle 0 true true; Settle 0 true true;
   Settle 0 true true].

(** *** A pass that nothing interleaves with, on the page

    The answers [env] gives during one pass, as the events that deliver
    them to the only suspended execution, with no other event between. *)
Definition answers (env : Replies) (q : MessageQueue) : list Event :=
  let w := setItemOk env in
  Settle 0 (importConversationManager env) w ::
  (if importConversationManager env then
     ((λ i, Settle 0 (updateConversationOk env i) w)
        <$> seq 0 (length (take batchSize (conversationQueue q))))
     ++ Settle 0 (importMessagePersistence env) w ::
        (if importMessagePersistence env then
           (λ i, Settle 0 (responseOk env i) w)
             <$> seq 0 (length (selectPending q))
         else [])
   else []).

(** *** Shape of the calls of one pass *)

(** The calls made by pass number [n], oldest first. *)
Definition callsOf (n : nat) (cs : list (nat * RemoteCall)) : list RemoteCall :=
  snd <$> filter (λ c, c.1 = n) cs.

(** The updates [ph] still has to send after the one it waits for. *)
Definition updatesLeft (ph : Phase) : list QueuedConversationUpdate :=
  match ph with
  | AwaitUpdateConversation _ rest => rest
  | _ => []
  end.

(** The calls of every pass are calls for at most [batchSize] updates
    followed by calls for at most [batchSize] messages, counting what a
    suspended pass still has to send; a pass that has not reached its
    message loop has called for no message, and one that has not passed its
    first import has called for nothing. *)
Definition shaped (M : Machine) : Prop :=
  ∀ n, ∃ us rs,
    target <$> callsOf n (calls M) = (inl <$> us) ++ (inr <$> rs)
    ∧ (∀ ph, (n, ph) ∈ passes M →
         (length us + length (updatesLeft ph) ≤ batchSize)%nat
         ∧ (length rs + length (remaining ph) ≤ batchSize)%nat
         ∧ ((∀ r, ¬ awaits ph r) → rs = [])
         ∧ (ph = AwaitImportConversationManager → us = []))
    ∧ (length us ≤ batchSize)%nat ∧ (length rs ≤ batchSize)%nat.

(** [r] has failed for good, and if it is still in the message list the
    only suspended pass is inside its message loop. *)
Definition doomed (r : nat) (M : Machine) : Prop :=
  (∃ m, objects (queue M) !! r = Some m ∧ status m = failed
        ∧ (maxRetries ≤ retryCount m)%nat)
  ∧ (r ∈ messageQueue (queue M) →
     ∃ n r0 md rest, passes M = [(n, AwaitPersistMessage r0 md rest)]).

(** *** The other methods of the class *)

(** The accumulator of the [reduce] in [getQueueStatus], and its callback
    [acc[msg.status]++]. *)
Record Counts := mkCounts {
  n_pending : nat;
  n_processing : nat;
  n_completed : nat;
  n_failed : nat;
}.

Definition count (acc : Counts) (msg : QueuedMessage) : Counts :=
  match status msg with
  | pending =>
      mkCounts (S (n_pending acc)) (n_processing acc) (n_completed acc) (n_failed acc)
  | processing =>
      mkCounts (n_pending acc) (S (n_processing acc)) (n_completed acc) (n_failed acc)
  | completed =>
      mkCounts (n_pending acc) (n_processing acc) (S (n_completed acc)) (n_failed acc)
  | failed =>
      mkCounts (n_pending acc) (n_processing acc) (n_completed acc) (S (n_failed acc))
  end.

(** What [getQueueStatus()] returns; the fields of its [messages] object
    carry the prefix [s_]. *)
Record QueueStatus := mkQueueStatus {
  s_pending : nat;
  s_processing : nat;
  s_failed : nat;
  s_conversations : nat;
  s_isOnline : bool;
  s_isProcessing : bool;
}.

Definition messageStatus (q : MessageQueue) : Counts :=
  foldl count (mkCounts 0 0 0 0) (contents q).

Definition getQueueStatus (q : MessageQueue) : QueueStatus :=
  {| s_pending := n_pending (messageStatus q);
     s_processing := n_processing (messageStatus q);
     s_failed := n_failed (messageStatus q);
     s_conversations := length (conversationQueue q);
     s_isOnline := isOnline q;
     s_isProcessing := isProcessing q |}.

(** [batchPersistMessages(messages, authToken)]: one [queueMessage] per
    element, with priority [medium].  Each element carries, with its
    [messageData], what [generateId()], [Date.now()] and
    [localStorage.setItem] give during its [queueMessage]. *)
Definition batchPersistMessages (items : list (string * Z * bool * MessageData))
    (token : string) (M : Machine) : Machine :=
  foldl (λ M '(gid, now, w, md), queueMessage gid now w md token medium M) M items.

(** The objects [batchPersistMessages] makes of its elements. *)
Definition batchItem (token : string) (item : string * Z * bool * MessageData)
  : QueuedMessage :=
  let '(gid, now, _, md) := item in
  mkQueuedMessage gid md token now 0 medium pending.

(** A queue loaded with one item of each status that can be stored. *)
Definition demoMixed : MessageQueue :=
  construct true
    (Some (mkStored
             [ mkQueuedMessage "m1" (demoData 1) "tok" 1 1 medium failed;
               mkQueuedMessage "m2" (demoData 1) "tok" 2 0 medium pending;
               demoInFlight ] [])).



(** The updates a suspended pass holds outside the queue: the one it is
    waiting for and those it has still to send. *)
Definition updatesHeld (ph : Phase) : list QueuedConversationUpdate :=
  match ph with
  | AwaitUpdateConversation update rest => update :: rest
  | _ => []
  end.

(** The retry count of the update is not above the ceiling. *)
Definition capped (u : QueuedConversationUpdate) : Prop :=
  (u_retryCount u ≤ maxRetries)%nat.

(** The queue and its stored copy hold capped updates only. *)
Definition cappedQueue (q : MessageQueue) : Prop :=
  Forall capped (conversationQueue q)
  ∧ ∀ stored, localStorage q = Some stored → Forall capped (conversations stored).

(** No conversation update, wherever it is (in the queue, in the hands of
    a pass, in [localStorage], or in a call already made), has a retry
    count above the ceiling. *)
Definition updatesBounded (M : Machine) : Prop :=
  Forall capped (conversationQueue (queue M))
  ∧ (∀ n ph, (n, ph) ∈ passes M → Forall capped (updatesHeld ph))
  ∧ (∀ stored, localStorage (queue M) = Some stored →
       Forall capped (conversations stored))
  ∧ (∀ n u, (n, UpdateConversation u) ∈ calls M → capped u).

(** A page on which two conversation updates were queued while offline,
    and the same page after it came back online, the first import
    resolved and the first write was refused. *)
Definition demoUpdate (k : Z) : QueuedConversationUpdate :=
  mkQueuedConversationUpdate "u" 1 (mkConversationFields None (Some k)) "tok" 7 0.
Definition demoUpdates : Machine :=
  run [Offline;
       QueueConversationUpdate "u" 7 true 1 (mkConversationFields None (Some 1%Z)) "tok";
       QueueConversationUpdate "u" 7 true 1 (mkConversationFields None (Some 2%Z)) "tok";
       Online; Settle 0 true true]
      (boot true None).

(** *** Work left in the queue *)

(** How many more attempts an item with this retry count can get: this one,
    and one for each retry it has left. *)
Definition attemptsLeft (retryCount : nat) : nat := S (maxRetries - retryCount).

(** The attempts the object behind [r] can still get: none unless it is
    [pending]. *)
Definition messageCost (q : MessageQueue) (r : nat) : nat :=
  from_option
    (λ m, if hasStatus pending m then attemptsLeft (retryCount m) else 0%nat)
    0%nat (objects q !! r).

Definition messageWork (q : MessageQueue) : nat :=
  sum_list_with (messageCost q) (messageQueue q).

Definition updateWork (q : MessageQueue) : nat :=
  sum_list_with (λ u, attemptsLeft (u_retryCount u)) (conversationQueue q).

Definition workLeft (q : MessageQueue) : nat := (messageWork q + updateWork q)%nat.

(** Passes run one after the other, nothing interleaving with them; each
    gets its own answers. *)
Definition drainAll (envs : list Replies) (q : MessageQueue) : MessageQueue :=
  foldl (λ q env, (drainPass env q).1) q envs.

(** Both dynamic imports resolve. *)
Definition importsOk (env : Replies) : Prop :=
  importConversationManager env = true ∧ importMessagePersistence env = true.

(** *** Tokens *)




(** The objects of [q'] are those of [q] up to everything but their token. *)
Definition sameTokens (q q' : MessageQueue) : Prop :=
  ∀ r m', objects q' !! r = Some m' →
    ∃ m, objects q !! r = Some m ∧ authToken m' = authToken m.

(** [a] and [b] are two objects, and wherever both occur, in the message
    list or in what a pass has sent and will send, [a] does not come after
    [b]. *)
Definition fifoInv (a b : nat) (M : Machine) : Prop :=
  (a < length (objects (queue M)))%nat
  ∧ (b < length (objects (queue M)))%nat
  ∧ a ≠ b
  ∧ ordered a b (messageQueue (queue M))
  ∧ ∀ n, ordered a b (persistedIn n (calls M) ++ batchOf n M).

End Queue.

(** ** Session checks of the server ([server.js]) *)

Module Server.
Import Session.

(** [s.replace(pattern, replacement)] with a string pattern: the first
    occurrence of [pattern] is replaced, the rest of [s] is kept.  (The
    server's replacement is the empty string, so the [$] patterns of a JS
    replacement string do not arise.) *)
Fixpoint skip (n : nat) (s : string) : string :=
  match n, s with
  | S n', String _ s' => skip n' s'
  | _, _ => s
  end.

Fixpoint replace (pattern replacement s : string) : string :=
  if String.prefix pattern s
  then replacement +:+ skip (String.length pattern) s
  else match s with
       | EmptyString => EmptyString
       | String c s' => String c (replace pattern replacement s')
       end.

(** The two request headers the server reads a session id from; [None] is
    a header that was not sent. *)
Record Headers := mkHeaders {
  authorization : option string;
  x_session_id : option string;
}.

(** [a || b] on values that are a string or [undefined]: [a] unless it is
    [undefined] or empty. *)
Definition or_else (a b : option string) : option string :=
  match a with
  | Some s => if decide (s = EmptyString) then b else a
  | None => b
  end.

(** The test [!sessionId] fails, with [sessionId] the string found. *)
Definition present (v : option string) : option string := or_else v None.

(** [req.headers.authorization?.replace('Bearer ', '')
     || req.headers['x-session-id']]. *)
Definition headerSessionId (h : Headers) : option string :=
  or_else (replace "Bearer " "" <$> authorization h) (x_session_id h).

(** What a handler does with the request: answer 401 with an error, or go
    on with [req.session] and [req.sessionId] set. *)
Inductive Response :=
| Unauthorized (error : string)
| Next (session : Session) (sessionId : string).

(** [authenticateSession(req, res, next)].  [now] is the clock when
    [getSession] reads it and [now'] when [updateLastAccessed] does.
    [req.session] is the very object [updateLastAccessed] has mutated, so
    it is read back from the store. *)
Definition authenticateSession (now now' : Z) (h : Headers) (svc : SessionService)
  : Response * SessionService :=
  match present (headerSessionId h) with
  | None => (Unauthorized "Session ID required", svc)
  | Some sessionId =>
      match getSession now sessionId svc with
      | (None, svc1) => (Unauthorized "Invalid or expired session", svc1)
      | (Some session, svc1) =>
          let svc2 := updateLastAccessed now' sessionId svc1 in
          (Next (default session (sessions svc2 !! sessionId)) sessionId, svc2)
      end
  end.

(** The session check of [GET /mcp/sse]: the id is looked for in the query
    string first, and the session is not touched. *)
Definition sseSessionId (query_session_id : option string) (h : Headers)
  : option string :=
  or_else (or_else query_session_id (replace "Bearer " "" <$> authorization h))
          (x_session_id h).

Definition mcpSse (now : Z) (query_session_id : option string) (h : Headers)
    (svc : SessionService) : Response * SessionService :=
  match present (sseSessionId query_session_id h) with
  | None => (Unauthorized "Session ID required", svc)
  | Some sessionId =>
      match getSession now sessionId svc with
      | (None, svc1) => (Unauthorized "Invalid or expired session", svc1)
      | (Some session, svc1) => (Next session sessionId, svc1)
      end
  end.

(** What reaches the session store while the server runs: a request to one
    of the routes behind [authenticateSession] ([/mcp/tools/list],
    [/mcp/tools/call]), a connection to [/mcp/sse], the [createSession] of
    [POST /api/session] once the credentials are validated ([sessionId] is
    what [generateSessionId] returned), and the hourly sweep. *)
Inductive Request :=
| Authenticated (h : Headers)
| Sse (query_session_id : option string) (h : Headers)
| Create (sessionId : string) (sessionData : SessionData)
| Sweep.

(** A request with the clock values it reads: [clock] first, [clock'] at
    [updateLastAccessed] if it gets there. *)
Record Timed := mkTimed {
  clock : Z;
  clock' : Z;
  request : Request;
}.

Definition serve (e : Timed) (svc : SessionService)
  : option Response * SessionService :=
  match request e with
  | Authenticated h =>
      let '(r, svc') := authenticateSession (clock e) (clock' e) h svc in (Some r, svc')
  | Sse q h => let '(r, svc') := mcpSse (clock e) q h svc in (Some r, svc')
  | Create sid d => (None, (createSession (clock e) sid d svc).2)
  | Sweep => (None, cleanupExpiredSessions (clock e) svc)
  end.

(** The responses to a sequence of requests, and the store after them. *)
Fixpoint serveAll (es : list Timed) (svc : SessionService)
  : list (option Response) * SessionService :=
  match es with
  | [] => ([], svc)
  | e :: es' =>
      let '(r, svc1) := serve e svc in
      let '(rs, svc2) := serveAll es' svc1 in
      (r :: rs, svc2)
  end.

(** The request is one behind [authenticateSession] that presents [sid]. *)
Definition presents (sid : string) (e : Timed) : bool :=
  match request e with
  | Authenticated h => bool_decide (present (headerSessionId h) = Some sid)
  | _ => false
  end.

(** The request creates a session under [sid]. *)
Definition creates (sid : string) (e : Timed) : bool :=
  match request e with
  | Create sid' _ => bool_decide (sid' = sid)
  | _ => false
  end.

(** The clock never runs backwards: every value read is at least [t] and
    at least the one read before. *)
Fixpoint clocked (t : Z) (es : list Timed) : Prop :=
  match es with
  | [] => True
  | e :: es' => t ≤ clock e ∧ clock e ≤ clock' e ∧ clocked (clock' e) es'
  end.

(** Every request presenting [sid] arrives no later than [deadline], which
    each such request moves to its own clock value plus [timeout]. *)
Fixpoint inTime (sid : string) (timeout deadline : Z) (es : list Timed) : Prop :=
  match es with
  | [] => True
  | e :: es' =>
      if presents sid e
      then clock e ≤ deadline ∧ inTime sid timeout (clock' e + timeout) es'
      else inTime sid timeout deadline es'
  end.

(** [s] after [updateLastAccessed] at [t]: the record
    [authenticateSession] hands on as [req.session]. *)
Definition touched (t timeout : Z) (s : Session) : Session :=
  mkSession (session_id s) (data s) (created_at s) t (t + timeout).

(** A store with the session of [demoService] and a second one that
    expires at millisecond 900, and a few requests: two behind
    [authenticateSession] presenting [s1], a sweep, an SSE connection
    presenting [s2] and the creation of a third session between them. *)
Definition demoStore : SessionService :=
  mkService (<["s2"%string := mkSession "s2" demoData 0 0 900]>
               (sessions demoService)) 100.
Definition bearer (sid : string) : Headers :=
  mkHeaders (Some ("Bearer " +:+ sid)%string) None.
Definition demoRequests : list Timed :=
  [ mkTimed 60 61 (Authenticated (bearer "s1"));
    mkTimed 100 100 Sweep;
    mkTimed 120 120 (Sse (Some "s2"%string) (mkHeaders None None));
    mkTimed 130 130 (Create "s3" demoData);
    mkTimed 161 163 (Authenticated (bearer "s1")) ].

End Server.

(** * The message persistence service ([messagePersistence])

    [persistMessage] is the Remote Writer of the queue.  It validates the
    conversation id, POSTs the message, and after a failure retries on its
    own with exponential backoff: awaited when [immediate] is set, from a
    timer otherwise. *)

Module Persistence.

Definition retryAttempts : nat := 3.
Definition retryDelay : Z := 1000.

(** What the [try] block of one execution comes to: it returns with the
    [id] of the stored message, or something is thrown ([fetch] rejects,
    the response is not [ok], the body is not JSON); [message] is
    [error.message] when what was thrown is an [Error]. *)
Inductive Reply :=
| Thrown (message : option string)
| Stored (id : Z).

Definition isStored (r : Reply) : bool :=
  match r with Stored _ => true | Thrown _ => false end.

Record Result := mkResult {
  success : bool;
  messageId : option Z;
  error : option string;
}.

(** What an execution does that can be seen from outside: the POST of the
    attempt with this [retryCount], an awaited [setTimeout], and a
    [setTimeout] whose callback calls [persistMessage] again. *)
Inductive Action :=
| Post (retryCount : nat)
| Sleep (delay : Z)
| SetTimeout (delay : Z) (retryCount : nat).

(** [this.retryDelay * Math.pow(2, retryCount)]. *)
Definition delay (retryCount : nat) : Z :=
  (retryDelay * 2 ^ Z.of_nat retryCount)%Z.

(** [persistMessage(messageData, authToken, { retryCount, immediate })];
    [replies n] is what the attempt with retry count [n] comes to.  The
    recursion of the immediate mode is on [fuel]. *)
Fixpoint persistFrom (fuel : nat) (md : Queue.MessageData) (immediate : bool)
    (retryCount : nat) (replies : nat → Reply)
  : option (Result * list Action) :=
  if (Queue.conversation_id md <=? 0)%Z
  then Some (mkResult false None (Some "Invalid conversation_id"), [])
  else
    match replies retryCount with
    | Stored i => Some (mkResult true (Some i) None, [Post retryCount])
    | Thrown e =>
        let failure := mkResult false None (Some (default "Unknown error" e)) in
        if (retryCount <? retryAttempts)%nat
        then
          if immediate
          then
            match fuel with
            | O => None
            | S fuel =>
                match persistFrom fuel md immediate (S retryCount) replies with
                | Some (r, acts) =>
                    Some (r, Post retryCount :: Sleep (delay retryCount) :: acts)
                | None => None
                end
            end
          else Some (failure,
                     [Post retryCount;
                      SetTimeout (delay retryCount) (S retryCount)])
        else Some (failure, [Post retryCount])
    end.

Definition persistMessage (md : Queue.MessageData) (immediate : bool)
    (retryCount : nat) (replies : nat → Reply)
  : option (Result * list Action) :=
  persistFrom (retryAttempts - retryCount) md immediate retryCount replies.

(** The executions a call gives rise to: itself, then the ones its timers
    start (with the same options but for [retryCount]), in the order they
    run. *)
Fixpoint executionsFrom (fuel : nat) (md : Queue.MessageData)
    (immediate : bool) (retryCount : nat) (replies : nat → Reply)
  : list (Result * list Action) :=
  match persistMessage md immediate retryCount replies with
  | Some (r, acts) =>
      (r, acts)
      :: match fuel with
         | O => []
         | S fuel =>
             flat_map (λ a, match a with
                            | SetTimeout _ rc =>
                                executionsFrom fuel md immediate rc replies
                            | _ => []
                            end) acts
         end
  | None => []
  end.

Definition executions (md : Queue.MessageData) (immediate : bool)
    (retryCount : nat) (replies : nat → Reply) : list (Result * list Action) :=
  executionsFrom (retryAttempts - retryCount) md immediate retryCount replies.

(** [persistUserMessage], [persistAssistantMessage], [persistToolExecution]
    and [persistError], without the metadata they attach. *)
Definition persistUserMessage (conversationId : Z) (content : string) :=
  persistMessage (Queue.mkMessageData conversationId "user" content "text")
                 true 0.
Definition persistAssistantMessage (conversationId : Z) (content : string) :=
  persistMessage (Queue.mkMessageData conversationId "assistant" content "text")
                 true 0.
Definition persistToolExecution (conversationId : Z) (toolName : string) :=
  persistMessage
    (Queue.mkMessageData conversationId "assistant"
       ("Tool executed: " +:+ toolName) "tool_execution")
    false 0.
Definition persistError (conversationId : Z) (error : string) :=
  persistMessage (Queue.mkMessageData conversationId "system" error "error")
                 true 0.

(** The retry counts of the POSTs among [acts], the time spent in awaited
    timers, and the timers left running. *)
Definition posts (acts : list Action) : list nat :=
  omap (λ a, match a with Post rc => Some rc | _ => None end) acts.
Definition slept (acts : list Action) : Z :=
  foldr (λ a t, match a with Sleep d => (d + t)%Z | _ => t end) 0%Z acts.
Definition timers (acts : list Action) : list (Z * nat) :=
  omap (λ a, match a with SetTimeout d rc => Some (d, rc) | _ => None end) acts.

(** A server that is down for the first two attempts. *)
Definition demoReplies (n : nat) : Reply :=
  if (n <? 2)%nat then Thrown (Some "Failed to fetch") else Stored 7.

End Persistence.

(** * Properties of the session store *)

Module SessionTheory.
Import Session.

Lemma getSession_cases now sid svc :
  match sessions svc !! sid with
  | None => getSession now sid svc = (None, svc)
  | Some s =>
      if expires_at s <? now
      then getSession now sid svc
           = (None, with_sessions svc (delete sid (sessions svc)))
      else getSession now sid svc = (Some s, svc)
  end.
Proof.
  unfold getSession. destruct (sessions svc !! sid) as [s|]; [|done].
  by destruct (expires_at s <? now).
Qed.

Lemma exec_timeout now c svc :
  sessionTimeout (exec now c svc) = sessionTimeout svc.
Proof.
  destruct c; simpl; try done.
  - pose proof (getSession_cases now sessionId svc) as H.
    destruct (sessions svc !! sessionId) as [s|].
    + destruct (expires_at s <? now); by rewrite H.
    + by rewrite H.
  - unfold updateLastAccessed. by destruct (sessions svc !! sessionId).
Qed.

Lemma exec_lookup now c svc sid s' :
  sessions (exec now c svc) !! sid = Some s' →
  sessions svc !! sid = Some s' ∨ expires_at s' = now + sessionTimeout svc.
Proof.
  destruct c as [k d|k|k|k|]; simpl.
  - destruct (decide (k = sid)) as [->|Hne].
    + rewrite lookup_insert_eq. intros [= <-]. by right.
    + rewrite lookup_insert_ne; auto.
  - pose proof (getSession_cases now k svc) as H.
    destruct (sessions svc !! k) as [s|] eqn:Hk.
    + destruct (expires_at s <? now); rewrite H; simpl; auto.
      intros Hd. left. apply lookup_delete_Some in Hd. tauto.
    + rewrite H. auto.
  - unfold updateLastAccessed.
    destruct (sessions svc !! k) as [s|] eqn:Hk; simpl; auto.
    destruct (decide (k = sid)) as [->|Hne].
    + rewrite lookup_insert_eq. intros [= <-]. by right.
    + rewrite lookup_insert_ne; auto.
  - intros Hd. left. apply lookup_delete_Some in Hd. tauto.
  - intros Hf. left. apply map_lookup_filter_Some in Hf. tauto.
Qed.

Lemma history_bounded t svc : history t svc → bounded t svc.
Proof.
  induction 1 as [timeout t|t t' c svc _ IH Hle].
  - intros sid s. simpl. by rewrite lookup_empty.
  - intros sid s' Hs'. rewrite exec_timeout.
    destruct (exec_lookup _ _ _ _ _ Hs') as [Hold|Hnew].
    + specialize (IH _ _ Hold). lia.
    + lia.
Qed.

(** C4, as the code has it: [getSession] returns the stored record exactly
    when the call is not later than the record's expiration (the boundary
    millisecond still counts as valid); an expired record is deleted and
    [null] returned; a missing record gives [null] and leaves the store as
    it is; a successful call leaves the store as it is. *)
Theorem getSession_valid_until_expiry (now : Z) (sid : string) (svc : SessionService) :
  (∀ s, (getSession now sid svc).1 = Some s
        ↔ sessions svc !! sid = Some s ∧ now ≤ expires_at s)
  ∧ (∀ s, sessions svc !! sid = Some s → expires_at s < now →
          getSession now sid svc
          = (None, with_sessions svc (delete sid (sessions svc))))
  ∧ (∀ s, sessions svc !! sid = Some s → now ≤ expires_at s →
          getSession now sid svc = (Some s, svc))
  ∧ (sessions svc !! sid = None → getSession now sid svc = (None, svc)).
Proof.
  pose proof (getSession_cases now sid svc) as H.
  destruct (sessions svc !! sid) as [s0|] eqn:Hs.
  - destruct (Z.ltb_spec (expires_at s0) now) as [Hlt|Hge]; rewrite H; simpl.
    + split_and!.
      * intros s. split; [done|]. intros [[= <-] ?]. lia.
      * done.
      * intros s [= <-] ?. lia.
      * done.
    + split_and!.
      * intros s. split; [by intros [= <-]|]. by intros [[= <-] _].
      * intros s [= <-] ?. lia.
      * by intros s [= <-] _.
      * done.
  - rewrite H. split_and!; try done. intros s. split; [done|]. by intros [? _].
Qed.

Lemma getSession_valid_until_expiry_witness :
  getSession 100 "s1" demoService = (Some demoSession, demoService)
  ∧ getSession 101 "s1" demoService
    = (None, with_sessions demoService (delete "s1" (sessions demoService))).
Proof.
  split.
  - apply (getSession_valid_until_expiry 100 "s1" demoService);
      [vm_compute; reflexivity | vm_compute; discriminate].
  - apply (getSession_valid_until_expiry 101 "s1" demoService) with demoSession;
      [vm_compute; reflexivity | vm_compute; reflexivity].
Defined.

(** C4, as stated, fails at the boundary: at the very millisecond of
    expiration the record is still returned, although the call is not
    strictly before the expiration. *)
Lemma getSession_strictly_before_fails :
  ¬ ((getSession 100 "s1" demoService).1 = Some demoSession
     ↔ 100 < expires_at demoSession).
Proof.
  intros [H _]. assert (100 < expires_at demoSession) as Hlt.
  { apply H. vm_compute. reflexivity. }
  vm_compute in Hlt. discriminate.
Qed.

(** C5, as the code has it: [updateLastAccessed] on an existing session
    stamps last-accessed with the call's time and sets the expiration to
    that time plus the timeout, keeping the other fields; a successful
    [getSession] changes nothing, the expiration included; and along any
    history of calls made at clock values that never decrease, the
    expiration stored under an id never decreases. *)
Theorem expiration_slides_on_updateLastAccessed :
  (∀ now sid svc s, sessions svc !! sid = Some s →
     sessions (updateLastAccessed now sid svc) !! sid
     = Some (mkSession (session_id s) (data s) (created_at s)
                       now (now + sessionTimeout svc)))
  ∧ (∀ now sid svc s, (getSession now sid svc).1 = Some s →
       (getSession now sid svc).2 = svc)
  ∧ (∀ t svc, history t svc →
       ∀ t' c sid s s', t ≤ t' →
         sessions svc !! sid = Some s →
         sessions (exec t' c svc) !! sid = Some s' →
         expires_at s ≤ expires_at s').
Proof.
  split; [|split].
  - intros now sid svc s Hs. unfold updateLastAccessed. rewrite Hs. simpl.
    by rewrite lookup_insert_eq.
  - intros now sid svc s.
    pose proof (getSession_cases now sid svc) as H.
    destruct (sessions svc !! sid) as [s0|].
    + destruct (expires_at s0 <? now); by rewrite H.
    + by rewrite H.
  - intros t svc Hh t' c sid s s' Hle Hs Hs'.
    pose proof (history_bounded _ _ Hh _ _ Hs) as Hb.
    destruct (exec_lookup _ _ _ _ _ Hs') as [Hold|Hnew].
    + rewrite Hs in Hold. injection Hold as <-. lia.
    + lia.
Qed.

Lemma expiration_slides_on_updateLastAccessed_witness :
  sessions (updateLastAccessed 40 "s1" demoService) !! "s1"
  = Some (mkSession "s1" demoData 0 40 140)
  ∧ (getSession 40 "s1" demoService).2 = demoService
  ∧ expires_at demoSession ≤ 140.
Proof.
  destruct expiration_slides_on_updateLastAccessed as (Hupd & Hget & Hmono).
  split; [|split].
  - apply (Hupd 40 "s1" demoService demoSession). vm_compute. reflexivity.
  - apply (Hget 40 "s1" demoService demoSession). vm_compute. reflexivity.
  - apply (Hmono 0 demoService demoHistory 40 (CTouch "s1") "s1"
                 demoSession (mkSession "s1" demoData 0 40 140)).
    + lia.
    + vm_compute. reflexivity.
    + vm_compute. reflexivity.
Defined.

(** C5, as stated, fails for [getSession]: a successful call at
    millisecond 40 with a timeout of 100 returns the record and leaves its
    expiration at 100, not at 140. *)
Lemma getSession_does_not_slide :
  (getSession 40 "s1" demoService).1 = Some demoSession
  ∧ sessions (getSession 40 "s1" demoService).2 !! "s1" = Some demoSession
  ∧ expires_at demoSession ≠ 40 + sessionTimeout demoService.
Proof. vm_compute. repeat split; discriminate. Qed.

(** C10: [updateLastAccessed] does not look at the expiration.  A record
    that is still stored although its expiration has passed (so that
    [getSession] would evict it and the sweep would delete it) gets the
    expiration [now + timeout] and, the timeout not being negative, is
    returned by [getSession] and kept by the sweep again; for an unknown id
    the store is left as it is. *)
Theorem updateLastAccessed_revives_expired (now : Z) (sid : string)
    (svc : SessionService) :
  (∀ s, sessions svc !! sid = Some s → expires_at s < now →
        0 ≤ sessionTimeout svc →
        let svc' := updateLastAccessed now sid svc in
        let s' := mkSession (session_id s) (data s) (created_at s)
                            now (now + sessionTimeout svc) in
        (getSession now sid svc).1 = None
        ∧ sessions (cleanupExpiredSessions now svc) !! sid = None
        ∧ sessions svc' !! sid = Some s'
        ∧ getSession now sid svc' = (Some s', svc')
        ∧ sessions (cleanupExpiredSessions now svc') !! sid = Some s')
  ∧ (sessions svc !! sid = None → updateLastAccessed now sid svc = svc).
Proof.
  split.
  - intros s Hs Hexp Hto svc' s'.
    assert (sessions svc' !! sid = Some s') as Hs'.
    { unfold svc', updateLastAccessed. rewrite Hs. simpl.
      by rewrite lookup_insert_eq. }
    assert (sessionTimeout svc' = sessionTimeout svc) as Hto'.
    { unfold svc', updateLastAccessed. by rewrite Hs. }
    split; [|split; [|split; [|split]]].
    + destruct (getSession_valid_until_expiry now sid svc) as (_ & H & _).
      by rewrite (H s Hs Hexp).
    + simpl. apply map_lookup_filter_None. right. intros s0 Hs0.
      rewrite Hs in Hs0. injection Hs0 as <-. simpl. lia.
    + done.
    + destruct (getSession_valid_until_expiry now sid svc') as (_ & _ & H & _).
      apply H; [done|]. simpl. lia.
    + simpl. apply map_lookup_filter_Some. split; [done|]. simpl. lia.
  - intros Hs. unfold updateLastAccessed. by rewrite Hs.
Qed.

Lemma updateLastAccessed_revives_expired_witness :
  (getSession 500 "s1" demoService).1 = None
  ∧ getSession 500 "s1" (updateLastAccessed 500 "s1" demoService)
    = (Some (mkSession "s1" demoData 0 500 600),
       updateLastAccessed 500 "s1" demoService).
Proof.
  destruct (updateLastAccessed_revives_expired 500 "s1" demoService) as [H _].
  destruct (H demoSession) as (Hgone & _ & _ & Hback & _).
  - vm_compute. reflexivity.
  - vm_compute. reflexivity.
  - vm_compute. discriminate.
  - split; [exact Hgone | exact Hback].
Defined.

Lemma with_sessions_same svc : with_sessions svc (sessions svc) = svc.
Proof. by destruct svc. Qed.

(** X1: Round trip of [createSession] and [getSession]: the record made at
    [now0] under a new id is what [getSession] returns at every clock value
    up to and including [now0 + sessionTimeout], and at no later one; the
    records under other ids are as they were, and the count grows by one
    unless the id was already taken, in which case the older record is
    replaced. *)
Theorem createSession_getSession_round_trip
    (now0 now : Z) (sid : string) (d : SessionData) (svc : SessionService) :
  let s := (createSession now0 sid d svc).1 in
  let svc' := (createSession now0 sid d svc).2 in
  s = mkSession sid d now0 now0 (now0 + sessionTimeout svc)
  ∧ sessions svc' !! sid = Some s
  ∧ ((getSession now sid svc').1 = Some s ↔ now ≤ now0 + sessionTimeout svc)
  ∧ ((getSession now sid svc').1 = None ↔ now0 + sessionTimeout svc < now)
  ∧ (∀ sid', sid' ≠ sid → sessions svc' !! sid' = sessions svc !! sid')
  ∧ getSessionCount svc'
    = match sessions svc !! sid with
      | Some _ => getSessionCount svc
      | None => S (getSessionCount svc)
      end.
Proof.
  intros s svc'.
  assert (sessions svc' !! sid = Some s) as Hs.
  { unfold svc', s. simpl. by rewrite lookup_insert_eq. }
  pose proof (getSession_cases now sid svc') as H. rewrite Hs in H.
  split_and!.
  - done.
  - done.
  - destruct (Z.ltb_spec (expires_at s) now) as [Hlt|Hge]; rewrite H; simpl in *.
    + split; [done|lia].
    + done.
  - destruct (Z.ltb_spec (expires_at s) now) as [Hlt|Hge]; rewrite H; simpl in *.
    + done.
    + split; [done|lia].
  - intros sid' Hne. unfold svc'. simpl. by rewrite lookup_insert_ne.
  - unfold getSessionCount, svc'. simpl. rewrite map_size_insert.
    by destruct (sessions svc !! sid).
Qed.

Lemma createSession_getSession_round_trip_witness :
  sessions (createSession 5 "s2" demoData demoService).2 !! "s1"
  = sessions demoService !! "s1".
Proof.
  destruct (createSession_getSession_round_trip 5 5 "s2" demoData demoService)
    as (_ & _ & _ & _ & H & _).
  apply H. discriminate.
Defined.

(** X2: [deleteSession] reports whether the id was stored; afterwards the id is
    unknown to [getSession] at every clock value, the other records are as
    they were, the count has dropped by one exactly when something was
    deleted, and a second [deleteSession] reports [false] and changes
    nothing. *)
Theorem deleteSession_removes_for_good
    (now : Z) (sid : string) (svc : SessionService) :
  let svc' := (deleteSession sid svc).2 in
  ((deleteSession sid svc).1 = true ↔ is_Some (sessions svc !! sid))
  ∧ getSession now sid svc' = (None, svc')
  ∧ (∀ sid', sid' ≠ sid → sessions svc' !! sid' = sessions svc !! sid')
  ∧ getSessionCount svc'
    = (if (deleteSession sid svc).1 then pred (getSessionCount svc)
       else getSessionCount svc)
  ∧ deleteSession sid svc' = (false, svc').
Proof.
  intros svc'.
  assert (sessions svc' !! sid = None) as Hs.
  { unfold svc'. simpl. by rewrite lookup_delete_eq. }
  split_and!.
  - simpl. by rewrite bool_decide_eq_true.
  - pose proof (getSession_cases now sid svc') as H. by rewrite Hs in H.
  - intros sid' Hne. unfold svc'. simpl. by rewrite lookup_delete_ne.
  - unfold getSessionCount, svc'. simpl. rewrite map_size_delete.
    destruct (sessions svc !! sid) as [s|] eqn:E.
    + by rewrite bool_decide_eq_true_2.
    + rewrite bool_decide_eq_false_2; [done|]. by intros [? ?].
  - unfold deleteSession. rewrite Hs.
    rewrite bool_decide_eq_false_2; [|by intros [? ?]].
    f_equal. rewrite delete_id; [|done]. apply with_sessions_same.
Qed.

Lemma deleteSession_removes_for_good_witness :
  sessions (deleteSession "s2" demoService).2 !! "s1"
  = sessions demoService !! "s1".
Proof.
  destruct (deleteSession_removes_for_good 5 "s2" demoService)
    as (_ & _ & H & _).
  apply H. discriminate.
Defined.

Lemma cleanup_lookup now svc sid :
  sessions (cleanupExpiredSessions now svc) !! sid
  = s ← sessions svc !! sid; if expires_at s <? now then None else Some s.
Proof.
  simpl. destruct (sessions svc !! sid) as [s|] eqn:Hs; simpl.
  - destruct (Z.ltb_spec (expires_at s) now) as [Hlt|Hge].
    + apply map_lookup_filter_None. right. intros s' Hs'.
      rewrite Hs in Hs'. injection Hs' as <-. simpl. lia.
    + apply map_lookup_filter_Some. split; [done|]. simpl. lia.
  - apply map_lookup_filter_None. by left.
Qed.

Lemma service_eq svc svc' :
  sessionTimeout svc' = sessionTimeout svc →
  (∀ sid, sessions svc' !! sid = sessions svc !! sid) → svc' = svc.
Proof.
  destruct svc, svc'; simpl. intros -> H. f_equal. by apply map_eq.
Qed.

(** X3: The sweep and [getSession] agree: [cleanupExpiredSessions] at [now]
    keeps exactly the records [getSession] would return at [now]; after the
    sweep, [getSession] at [now] gives for every id the answer it would have
    given before it and has nothing left to evict; and the sweep never
    raises the count. *)
Theorem cleanupExpiredSessions_agrees_with_getSession
    (now : Z) (sid : string) (svc : SessionService) :
  let swept := cleanupExpiredSessions now svc in
  sessions swept !! sid = (getSession now sid svc).1
  ∧ getSession now sid swept = ((getSession now sid svc).1, swept)
  ∧ (getSessionCount swept ≤ getSessionCount svc)%nat.
Proof.
  intros swept.
  assert (sessions swept !! sid = (getSession now sid svc).1) as Hl.
  { unfold swept. rewrite cleanup_lookup.
    pose proof (getSession_cases now sid svc) as H.
    destruct (sessions svc !! sid) as [s|]; simpl.
    - destruct (expires_at s <? now); by rewrite H.
    - by rewrite H. }
  split_and!.
  - done.
  - pose proof (getSession_cases now sid swept) as H. rewrite Hl in H.
    pose proof (getSession_cases now sid svc) as H0.
    destruct (sessions svc !! sid) as [s|] eqn:Hs.
    + destruct (Z.ltb_spec (expires_at s) now) as [Hlt|Hge];
        rewrite H0 in H |- *; simpl in *; [done|].
      destruct (Z.ltb_spec (expires_at s) now); [lia|done].
    + by rewrite H0 in H |- *.
  - apply map_size_filter.
Qed.

(** X4: Sweeps compose: a sweep at [t2] after a sweep at an earlier [t1] leaves
    what the sweep at [t2] alone leaves; in particular a sweep repeated at
    the same clock value changes nothing. *)
Theorem cleanupExpiredSessions_absorbs_earlier
    (t1 t2 : Z) (svc : SessionService) :
  t1 ≤ t2 →
  cleanupExpiredSessions t2 (cleanupExpiredSessions t1 svc)
  = cleanupExpiredSessions t2 svc.
Proof.
  intros Hle. apply service_eq; [done|]. intros sid.
  rewrite !cleanup_lookup.
  destruct (sessions svc !! sid) as [s|]; simpl; [|done].
  destruct (Z.ltb_spec (expires_at s) t1); simpl.
  - destruct (Z.ltb_spec (expires_at s) t2); [done|lia].
  - done.
Qed.

Lemma cleanupExpiredSessions_absorbs_earlier_witness :
  cleanupExpiredSessions 500 (cleanupExpiredSessions 50 demoService)
  = cleanupExpiredSessions 500 demoService.
Proof. apply (cleanupExpiredSessions_absorbs_earlier 50 500 demoService). lia. Defined.

(** X5: [getSessionDebugInfo] against [getSession]: the debug view reports a
    record as existing whether or not it has expired, with a
    [time_until_expiry] that is never negative, and evicts nothing.  A
    positive [time_until_expiry] means [getSession] returns the record; a
    record [getSession] refuses because it has expired is still reported,
    with [time_until_expiry] zero. *)
Theorem getSessionDebugInfo_reports_expired
    (now : Z) (sid : string) (svc : SessionService) :
  let info := getSessionDebugInfo now sid svc in
  (d_exists info = true ↔ is_Some (sessions svc !! sid))
  ∧ total_sessions info = getSessionCount svc
  ∧ (∀ d, session_data info = Some d →
       0 ≤ time_until_expiry d
       ∧ ∃ s, sessions svc !! sid = Some s
              ∧ time_until_expiry d = Z.max 0 (expires_at s - now)
              ∧ d_expires_at d = expires_at s
              ∧ (0 < time_until_expiry d → getSession now sid svc = (Some s, svc))
              ∧ ((getSession now sid svc).1 = None → time_until_expiry d = 0))
  ∧ (∀ s, sessions svc !! sid = Some s → expires_at s < now →
       (getSession now sid svc).1 = None
       ∧ d_exists info = true
       ∧ time_until_expiry <$> session_data info = Some 0).
Proof.
  intros info. pose proof (getSession_cases now sid svc) as H.
  split_and!.
  - simpl. by rewrite bool_decide_eq_true.
  - done.
  - intros d. simpl. destruct (sessions svc !! sid) as [s|]; [|done].
    simpl. intros [= <-]. simpl. split; [lia|]. exists s. split_and!; try done.
    + intros Hpos. destruct (Z.ltb_spec (expires_at s) now); [lia|done].
    + destruct (Z.ltb_spec (expires_at s) now); rewrite H; simpl; [lia|done].
  - intros s Hs Hexp. rewrite Hs in H. simpl. rewrite Hs. simpl.
    destruct (Z.ltb_spec (expires_at s) now); [|lia]. rewrite H.
    split_and!; [done|done|f_equal; lia].
Qed.

Lemma getSessionDebugInfo_reports_expired_witness :
  (getSession 500 "s1" demoService).1 = None
  ∧ d_exists (getSessionDebugInfo 500 "s1" demoService) = true
  ∧ time_until_expiry <$> session_data (getSessionDebugInfo 500 "s1" demoService)
    = Some 0.
Proof.
  destruct (getSessionDebugInfo_reports_expired 500 "s1" demoService)
    as (_ & _ & _ & H).
  apply (H demoSession); vm_compute; reflexivity.
Defined.

Lemma digit36_spec d :
  0 ≤ d < 36 →
  value36 (digit36 d) = d
  ∧ Ascii.eqb (digit36 d) "_" = false
  ∧ digit36 d ≠ "-"%char.
Proof.
  intros Hd.
  assert (∃ k, (k < 36)%nat ∧ d = Z.of_nat k) as (k & Hk & ->).
  { exists (Z.to_nat d). lia. }
  do 36 (destruct k as [|k]; [by vm_compute|]). lia.
Qed.

Lemma digits36_horner fuel :
  ∀ n acc, 0 ≤ n < 2 ^ (Z.of_nat fuel + 1) →
    horner 0 (digits36 fuel n acc) = horner n acc.
Proof.
  induction fuel as [|fuel IH]; intros n acc Hn.
  - simpl in *. assert (n mod 36 = n) as -> by (apply Z.mod_small; lia).
    destruct (digit36_spec n) as [-> _]; [lia|]. done.
  - cbn [digits36]. destruct (Z.ltb_spec n 36) as [Hlt|Hge].
    + simpl. assert (n mod 36 = n) as -> by (apply Z.mod_small; lia).
      destruct (digit36_spec n) as [-> _]; [lia|]. done.
    + rewrite IH.
      * simpl. destruct (digit36_spec (n mod 36)) as [-> _].
        { apply Z.mod_pos_bound. lia. }
        f_equal. pose proof (Z.div_mod n 36). lia.
      * split; [apply Z.div_pos; lia|].
        apply Z.div_lt_upper_bound; [lia|].
        replace (Z.of_nat (S fuel) + 1) with (Z.succ (Z.of_nat fuel + 1)) in Hn by lia.
        rewrite Z.pow_succ_r in Hn by lia. lia.
Qed.

Lemma log2_fuel n : 0 ≤ n → 0 ≤ n < 2 ^ (Z.of_nat (Z.to_nat (Z.log2 n)) + 1).
Proof.
  intros Hn. split; [done|]. rewrite Z2Nat.id by apply Z.log2_nonneg.
  destruct (decide (n = 0)) as [->|Hne]; [done|].
  replace (Z.log2 n + 1) with (Z.succ (Z.log2 n)) by lia.
  apply Z.log2_spec. lia.
Qed.

Lemma digits36_plain fuel :
  ∀ n acc, 0 ≤ n → plain acc = true → plain (digits36 fuel n acc) = true.
Proof.
  induction fuel as [|fuel IH]; intros n acc Hn Hacc.
  - simpl. destruct (digit36_spec (n mod 36)) as (_ & -> & _);
      [apply Z.mod_pos_bound; lia|done].
  - cbn [digits36]. destruct (n <? 36).
    + simpl. destruct (digit36_spec (n mod 36)) as (_ & -> & _);
        [apply Z.mod_pos_bound; lia|done].
    + apply IH; [apply Z.div_pos; lia|]. simpl.
      destruct (digit36_spec (n mod 36)) as (_ & -> & _);
        [apply Z.mod_pos_bound; lia|done].
Qed.

Lemma digits36_head fuel :
  ∀ n acc, 0 ≤ n → (∀ c s, acc = String c s → c ≠ "-"%char) →
    ∃ c s, digits36 fuel n acc = String c s ∧ c ≠ "-"%char.
Proof.
  induction fuel as [|fuel IH]; intros n acc Hn Hacc.
  - simpl. eexists _, _. split; [done|].
    apply digit36_spec, Z.mod_pos_bound. lia.
  - cbn [digits36]. destruct (n <? 36).
    + eexists _, _. split; [done|]. apply digit36_spec, Z.mod_pos_bound. lia.
    + apply IH; [apply Z.div_pos; lia|]. intros c s [= <- <-].
      apply digit36_spec, Z.mod_pos_bound. lia.
Qed.

Lemma toString36_inj n m : toString36 n = toString36 m → n = m.
Proof.
  unfold toString36.
  destruct (Z.ltb_spec n 0) as [Hn|Hn], (Z.ltb_spec m 0) as [Hm|Hm]; intros Heq.
  - injection Heq as Heq. apply (f_equal (horner 0)) in Heq.
    rewrite !digits36_horner in Heq by (apply log2_fuel; lia). simpl in Heq. lia.
  - destruct (digits36_head (Z.to_nat (Z.log2 m)) m EmptyString Hm)
      as (c & s & Hd & Hc); [done|]. rewrite Hd in Heq. congruence.
  - destruct (digits36_head (Z.to_nat (Z.log2 n)) n EmptyString Hn)
      as (c & s & Hd & Hc); [done|]. rewrite Hd in Heq. congruence.
  - apply (f_equal (horner 0)) in Heq.
    by rewrite !digits36_horner in Heq by (by apply log2_fuel).
Qed.

Lemma toString36_plain n : plain (toString36 n) = true.
Proof.
  unfold toString36. destruct (Z.ltb_spec n 0).
  - simpl. apply digits36_plain; [lia|done].
  - by apply digits36_plain.
Qed.

Lemma underscore_splits a :
  ∀ a' b b', plain a = true → plain a' = true →
    (a +:+ String "_" b = a' +:+ String "_" b')%string → a = a' ∧ b = b'.
Proof.
  induction a as [|c a IH]; intros [|c' a'] b b' Ha Ha'; simpl in *.
  - by intros [= ->].
  - intros [= <- _]. done.
  - intros [= -> _]. done.
  - intros [= -> Heq]. apply andb_true_iff in Ha as [_ Ha], Ha' as [_ Ha'].
    destruct (IH _ _ _ Ha Ha' Heq) as [-> ->]. done.
Qed.

(** X6: Session ids do not collide across milliseconds: [generateSessionId]
    gives the same id only for the same clock value and the same random
    part (the clock value is written in base 36 and closed by an
    underscore, so it can be read back).  Hence two sessions created at
    different clock values are both in the store afterwards, neither
    replacing the other, whatever their random parts. *)
Theorem generateSessionId_injective
    (t t' : Z) (r r' : string) (d d' : SessionData) (svc : SessionService) :
  (generateSessionId t r = generateSessionId t' r' ↔ t = t' ∧ r = r')
  ∧ (t ≠ t' →
     let first := createSession t (generateSessionId t r) d svc in
     let second := createSession t' (generateSessionId t' r') d' first.2 in
     sessions second.2 !! generateSessionId t r = Some first.1
     ∧ sessions second.2 !! generateSessionId t' r' = Some second.1).
Proof.
  assert (generateSessionId t r = generateSessionId t' r' → t = t' ∧ r = r') as Hinj.
  { unfold generateSessionId. intros [= Heq].
    apply underscore_splits in Heq as [Ht ->]; try apply toString36_plain.
    by apply toString36_inj in Ht as ->. }
  split.
  - split; [done|]. by intros [-> ->].
  - intros Hne first second. split.
    + unfold second. simpl. rewrite lookup_insert_ne.
      * by rewrite lookup_insert_eq.
      * intros Heq. symmetry in Heq. by apply Hinj in Heq as [? _].
    + unfold second. simpl. by rewrite lookup_insert_eq.
Qed.

Lemma generateSessionId_injective_witness :
  sessions
    (createSession 1700000000001 (generateSessionId 1700000000001 "k3j9x") demoData
       (createSession 1700000000000 (generateSessionId 1700000000000 "k3j9x")
          demoData demoService).2).2
  !! generateSessionId 1700000000000 "k3j9x"
  = Some (createSession 1700000000000 (generateSessionId 1700000000000 "k3j9x")
            demoData demoService).1.
Proof.
  destruct (generateSessionId_injective 1700000000000 1700000000001
              "k3j9x" "k3j9x" demoData demoData demoService) as [_ H].
  apply H. discriminate.
Defined.

End SessionTheory.

(** * Properties of the server's session checks *)

Module ServerTheory.
Import Session SessionTheory Server.
Local Open Scope Z_scope.

Lemma updateLastAccessed_timeout now sid svc :
  sessionTimeout (updateLastAccessed now sid svc) = sessionTimeout svc.
Proof. unfold updateLastAccessed. by destruct (sessions svc !! sid). Qed.

Lemma getSession_timeout now sid svc :
  sessionTimeout (getSession now sid svc).2 = sessionTimeout svc.
Proof.
  pose proof (getSession_cases now sid svc) as H.
  destruct (sessions svc !! sid) as [s|].
  - destruct (expires_at s <? now); by rewrite H.
  - by rewrite H.
Qed.

(** [getSession] for [k] seen from another or the same id [sid]: the
    record under [sid] stays, or it is [k]'s and had expired. *)
Lemma getSession_frame now k svc sid :
  sessions (getSession now k svc).2 !! sid = sessions svc !! sid
  ∨ (sessions (getSession now k svc).2 !! sid = None
     ∧ ∃ s, sessions svc !! sid = Some s ∧ expires_at s < now).
Proof.
  pose proof (getSession_cases now k svc) as H.
  destruct (sessions svc !! k) as [s|] eqn:Hk.
  - destruct (Z.ltb_spec (expires_at s) now) as [Hlt|Hge]; rewrite H; simpl.
    + destruct (decide (k = sid)) as [->|Hne].
      * right. rewrite lookup_delete_eq. split; [done|]. by exists s.
      * left. by rewrite lookup_delete_ne.
    + by left.
  - rewrite H. by left.
Qed.

Lemma updateLastAccessed_other now k svc sid :
  k ≠ sid →
  sessions (updateLastAccessed now k svc) !! sid = sessions svc !! sid.
Proof.
  intros Hne. unfold updateLastAccessed.
  destruct (sessions svc !! k); [|done]. simpl. by rewrite lookup_insert_ne.
Qed.

Lemma authenticateSession_eq now now' h svc :
  authenticateSession now now' h svc
  = match present (headerSessionId h) with
    | None => (Unauthorized "Session ID required", svc)
    | Some k =>
        match (getSession now k svc).1 with
        | None => (Unauthorized "Invalid or expired session", (getSession now k svc).2)
        | Some s =>
            (Next (default s (sessions (updateLastAccessed now' k svc) !! k)) k,
             updateLastAccessed now' k svc)
        end
    end.
Proof.
  unfold authenticateSession. destruct (present (headerSessionId h)) as [k|]; [|done].
  pose proof (getSession_cases now k svc) as H.
  destruct (sessions svc !! k) as [s|].
  - destruct (expires_at s <? now); by rewrite H.
  - by rewrite H.
Qed.

Lemma mcpSse_eq now q h svc :
  mcpSse now q h svc
  = match present (sseSessionId q h) with
    | None => (Unauthorized "Session ID required", svc)
    | Some k =>
        (match (getSession now k svc).1 with
         | None => Unauthorized "Invalid or expired session"
         | Some s => Next s k
         end, (getSession now k svc).2)
    end.
Proof.
  unfold mcpSse. destruct (present (sseSessionId q h)) as [k|]; [|done].
  by destruct (getSession now k svc) as [[s|] svc1].
Qed.

Lemma serve_timeout e svc : sessionTimeout (serve e svc).2 = sessionTimeout svc.
Proof.
  unfold serve. destruct (request e) as [h|q h|k d|].
  - rewrite authenticateSession_eq.
    destruct (present (headerSessionId h)) as [k|]; [|done].
    destruct (getSession (clock e) k svc).1 eqn:E; simpl.
    + apply updateLastAccessed_timeout.
    + apply getSession_timeout.
  - rewrite mcpSse_eq. destruct (present (sseSessionId q h)) as [k|]; [|done].
    simpl. apply getSession_timeout.
  - done.
  - done.
Qed.

(** A request that neither presents [sid] to [authenticateSession] nor
    creates it leaves the record under [sid] as it is, or evicts it because
    it had expired by the time of the request. *)
Lemma serve_frame e svc sid :
  presents sid e = false → creates sid e = false →
  sessions (serve e svc).2 !! sid = sessions svc !! sid
  ∨ (sessions (serve e svc).2 !! sid = None
     ∧ ∃ s, sessions svc !! sid = Some s ∧ expires_at s < clock e).
Proof.
  unfold presents, creates, serve. destruct (request e) as [h|q h|k d|]; intros Hp Hc.
  - rewrite authenticateSession_eq.
    destruct (present (headerSessionId h)) as [k|]; [|by left].
    apply bool_decide_eq_false in Hp.
    assert (k ≠ sid) as Hne by congruence.
    pose proof (getSession_cases (clock e) k svc) as H.
    destruct (sessions svc !! k) as [s|] eqn:Hk.
    + destruct (expires_at s <? clock e); rewrite H; simpl.
      * left. by rewrite lookup_delete_ne.
      * left. by apply updateLastAccessed_other.
    + rewrite H. by left.
  - rewrite mcpSse_eq. destruct (present (sseSessionId q h)) as [k|]; [|by left].
    simpl. apply getSession_frame.
  - apply bool_decide_eq_false in Hc. left. simpl. by rewrite lookup_insert_ne.
  - simpl. replace (filter _ (sessions svc))
      with (sessions (cleanupExpiredSessions (clock e) svc)) by done.
    rewrite cleanup_lookup. destruct (sessions svc !! sid) as [s|]; simpl; [|by left].
    destruct (Z.ltb_spec (expires_at s) (clock e)); [|by left].
    right. split; [done|]. by exists s.
Qed.

Lemma serveAll_cons e es svc :
  serveAll (e :: es) svc
  = ((serve e svc).1 :: (serveAll es (serve e svc).2).1,
     (serveAll es (serve e svc).2).2).
Proof.
  simpl. destruct (serve e svc) as [r svc1]. simpl.
  by destruct (serveAll es svc1).
Qed.

Lemma keep_alive_gen sid T s0 es :
  ∀ svc t deadline,
    sessionTimeout svc = T →
    clocked t es →
    forallb (λ e, negb (creates sid e)) es = true →
    inTime sid T deadline es →
    (∃ s, sessions svc !! sid = Some s ∧ expires_at s = deadline
          ∧ session_id s = session_id s0 ∧ data s = data s0
          ∧ created_at s = created_at s0)
    ∨ deadline < t →
    ∀ i e, es !! i = Some e → presents sid e = true →
      (serveAll es svc).1 !! i = Some (Some (Next (touched (clock' e) T s0) sid)).
Proof.
  induction es as [|e es IH]; intros svc t deadline HT Hclk Hcr Hin Hinv i e0 Hi Hp;
    [done|].
  rewrite serveAll_cons. simpl in Hclk, Hcr, Hin.
  destruct Hclk as (Ht & Htt & Hclk).
  apply andb_true_iff in Hcr as [Hc Hcr]. apply negb_true_iff in Hc.
  destruct (presents sid e) eqn:Hpe.
  - destruct Hin as [Hdl Hin].
    destruct Hinv as [(s & Hs & He & Hid & Hd & Hca)|Hlt]; [|lia].
    assert (serve e svc
            = (Some (Next (touched (clock' e) T s0) sid),
               updateLastAccessed (clock' e) sid svc)) as Hserve.
    { unfold presents in Hpe. unfold serve.
      destruct (request e) as [h| | |]; try done.
      apply bool_decide_eq_true in Hpe. rewrite authenticateSession_eq, Hpe.
      pose proof (getSession_cases (clock e) sid svc) as H. rewrite Hs in H.
      destruct (Z.ltb_spec (expires_at s) (clock e)); [lia|]. rewrite H. simpl.
      unfold updateLastAccessed. rewrite Hs. simpl. rewrite lookup_insert_eq.
      simpl. unfold touched. by rewrite HT, Hid, Hd, Hca. }
    rewrite Hserve. simpl. destruct i as [|i]; simpl in *.
    + by injection Hi as <-.
    + eapply (IH _ (clock' e) (clock' e + T)); try done.
      * by rewrite updateLastAccessed_timeout.
      * left. exists (touched (clock' e) T s). unfold updateLastAccessed.
        rewrite Hs. simpl. rewrite lookup_insert_eq, HT. by split_and!.
  - destruct i as [|i]; simpl in *; [congruence|].
    eapply (IH _ (clock' e) deadline); try done.
    + by rewrite serve_timeout.
    + destruct Hinv as [(s & Hs & He & Hrest)|Hlt]; [|right; lia].
      destruct (serve_frame e svc sid Hpe Hc) as [Heq|(Hnone & s' & Hs' & Hexp)].
      * left. exists s. by rewrite Heq.
      * right. rewrite Hs in Hs'. injection Hs' as <-. lia.
Qed.

(** X7: A session that is used often enough never ends.  Take a stored session
    and any sequence of requests (routes behind [authenticateSession], SSE
    connections, sessions created under other ids, sweeps) read off a clock
    that never runs backwards.  If each request presenting the session's id
    to [authenticateSession] arrives no later than the expiration the
    request before it has set (the stored expiration, for the first), then
    every one of them is let through, with [req.session] the record stamped
    at that request: last access at its clock value and expiration one
    timeout later. *)
Theorem requests_in_time_keep_session_alive
    (sid : string) (s : Session) (svc : SessionService)
    (t : Z) (es : list Timed) :
  sessions svc !! sid = Some s →
  clocked t es →
  forallb (λ e, negb (creates sid e)) es = true →
  inTime sid (sessionTimeout svc) (expires_at s) es →
  ∀ i e, es !! i = Some e → presents sid e = true →
    (serveAll es svc).1 !! i
    = Some (Some (Next (touched (clock' e) (sessionTimeout svc) s) sid)).
Proof.
  intros Hs Hclk Hcr Hin.
  apply (keep_alive_gen sid (sessionTimeout svc) s es svc t (expires_at s));
    try done.
  left. by exists s.
Qed.

Lemma requests_in_time_keep_session_alive_witness :
  (serveAll demoRequests demoStore).1 !! 4%nat
  = Some (Some (Next (mkSession "s1" demoData 0 163 263) "s1")).
Proof.
  assert (clocked 0 demoRequests) as Hclk by (vm_compute; intuition discriminate).
  assert (inTime "s1" (sessionTimeout demoStore) (expires_at demoSession) demoRequests)
    as Hin by (vm_compute; intuition discriminate).
  exact (requests_in_time_keep_session_alive "s1" demoSession demoStore 0
           demoRequests eq_refl Hclk eq_refl Hin
           4%nat (mkTimed 161 163 (Authenticated (bearer "s1"))) eq_refl eq_refl).
Defined.

Lemma absent_gen sid es :
  ∀ svc,
    sessions svc !! sid = None →
    forallb (λ e, negb (creates sid e)) es = true →
    sessions (serveAll es svc).2 !! sid = None
    ∧ ∀ i e, es !! i = Some e → presents sid e = true →
        (serveAll es svc).1 !! i
        = Some (Some (Unauthorized "Invalid or expired session")).
Proof.
  induction es as [|e es IH]; intros svc Hs Hcr; [done|].
  rewrite serveAll_cons. simpl in Hcr.
  apply andb_true_iff in Hcr as [Hc Hcr]. apply negb_true_iff in Hc.
  assert (sessions (serve e svc).2 !! sid = None
          ∧ (presents sid e = true →
             (serve e svc).1 = Some (Unauthorized "Invalid or expired session")))
    as [Hs' Hr].
  { destruct (presents sid e) eqn:Hpe.
    - unfold presents in Hpe. unfold serve.
      destruct (request e) as [h| | |]; try done.
      apply bool_decide_eq_true in Hpe. rewrite authenticateSession_eq, Hpe.
      pose proof (getSession_cases (clock e) sid svc) as H. rewrite Hs in H.
      by rewrite H.
    - split; [|done].
      destruct (serve_frame e svc sid Hpe Hc) as [Heq|[Hnone _]]; congruence. }
  destruct (IH _ Hs' Hcr) as [Hfin Hall]. simpl. split; [done|].
  intros [|i] e0 Hi Hp; simpl in *.
  - injection Hi as <-. by rewrite Hr.
  - by apply (Hall i e0).
Qed.

(** X8: A session [authenticateSession] has refused as invalid or expired is
    gone for good: the refusal leaves no record under the id, and whatever
    requests follow, at whatever clock values, every later request
    presenting that id to [authenticateSession] is refused too, unless a
    session is created under the very same id.  (The revival of an expired
    record by [updateLastAccessed] cannot happen through the middleware,
    which asks [getSession] first.) *)
Theorem refused_session_stays_refused
    (sid : string) (now now' : Z) (h : Headers) (svc : SessionService)
    (es : list Timed) :
  present (headerSessionId h) = Some sid →
  (authenticateSession now now' h svc).1
  = Unauthorized "Invalid or expired session" →
  forallb (λ e, negb (creates sid e)) es = true →
  let svc' := (authenticateSession now now' h svc).2 in
  sessions svc' !! sid = None
  ∧ sessions (serveAll es svc').2 !! sid = None
  ∧ ∀ i e, es !! i = Some e → presents sid e = true →
      (serveAll es svc').1 !! i
      = Some (Some (Unauthorized "Invalid or expired session")).
Proof.
  intros Hp Hr Hcr svc'.
  assert (sessions svc' !! sid = None) as Hs'.
  { unfold svc'. rewrite authenticateSession_eq, Hp in Hr |- *.
    pose proof (getSession_cases now sid svc) as H.
    destruct (sessions svc !! sid) as [s|] eqn:Hs.
    - destruct (expires_at s <? now); rewrite H in Hr |- *; simpl in *.
      + by rewrite lookup_delete_eq.
      + done.
    - by rewrite H. }
  split; [done|]. by apply absent_gen.
Qed.

Lemma refused_session_stays_refused_witness :
  (serveAll demoRequests
     (authenticateSession 101 101 (bearer "s1") demoStore).2).1 !! 4%nat
  = Some (Some (Unauthorized "Invalid or expired session")).
Proof.
  destruct (refused_session_stays_refused "s1" 101 101 (bearer "s1") demoStore
              demoRequests eq_refl eq_refl eq_refl) as (_ & _ & H).
  apply (H 4%nat (mkTimed 161 163 (Authenticated (bearer "s1")))); reflexivity.
Defined.

Lemma untouched_gen sid es :
  ∀ svc,
    forallb (λ e, negb (presents sid e) && negb (creates sid e)) es = true →
    sessions (serveAll es svc).2 !! sid = sessions svc !! sid
    ∨ sessions (serveAll es svc).2 !! sid = None.
Proof.
  induction es as [|e es IH]; intros svc Hall; [by left|].
  rewrite serveAll_cons. simpl in Hall |- *.
  apply andb_true_iff in Hall as [He Hall].
  apply andb_true_iff in He as [Hp Hc]. apply negb_true_iff in Hp, Hc.
  destruct (IH (serve e svc).2 Hall) as [Heq|Hnone]; [|by right].
  rewrite Heq.
  destruct (serve_frame e svc sid Hp Hc) as [Heq'|[Hnone _]]; [by left|by right].
Qed.

(** X9: Only the routes behind [authenticateSession] extend a session: an SSE
    connection looks the session up and leaves its expiration alone.  Over
    any sequence of requests among which none presents the id to
    [authenticateSession] (SSE connections with that id, requests of other
    sessions, sweeps), the record under the id stays exactly as it was, or
    is evicted; so an SSE connection made after the expiration the record
    had at the start is refused, however many SSE connections came before
    it. *)
Theorem sse_connections_do_not_extend
    (sid : string) (svc : SessionService) (es : list Timed) :
  forallb (λ e, negb (presents sid e) && negb (creates sid e)) es = true →
  (∀ now q h, (mcpSse now q h svc).2 = svc
              ∨ ∃ k, (mcpSse now q h svc).2
                     = with_sessions svc (delete k (sessions svc)))
  ∧ (sessions (serveAll es svc).2 !! sid = sessions svc !! sid
     ∨ sessions (serveAll es svc).2 !! sid = None)
  ∧ (∀ s now q h,
       sessions svc !! sid = Some s → expires_at s < now →
       present (sseSessionId q h) = Some sid →
       (mcpSse now q h (serveAll es svc).2).1
       = Unauthorized "Invalid or expired session").
Proof.
  intros Hall. split; [|split].
  - intros now q h. rewrite mcpSse_eq.
    destruct (present (sseSessionId q h)) as [k|]; [|by left]. simpl.
    pose proof (getSession_cases now k svc) as H.
    destruct (sessions svc !! k) as [s|].
    + destruct (expires_at s <? now); rewrite H; simpl; [right; by exists k|by left].
    + rewrite H. by left.
  - by apply untouched_gen.
  - intros s now q h Hs Hexp Hp. rewrite mcpSse_eq, Hp. simpl.
    pose proof (getSession_cases now sid (serveAll es svc).2) as H.
    destruct (untouched_gen sid es svc Hall) as [Heq|Hnone].
    + rewrite Heq, Hs in H. destruct (Z.ltb_spec (expires_at s) now); [|lia].
      by rewrite H.
    + rewrite Hnone in H. by rewrite H.
Qed.

Lemma sse_connections_do_not_extend_witness :
  (mcpSse 901 (Some "s2"%string) (mkHeaders None None)
     (serveAll demoRequests demoStore).2).1
  = Unauthorized "Invalid or expired session".
Proof.
  destruct (sse_connections_do_not_extend "s2" demoStore demoRequests eq_refl)
    as (_ & _ & H).
  apply (H (mkSession "s2" demoData 0 0 900)); [reflexivity|reflexivity|reflexivity].
Defined.

Lemma replace_bearer sid : replace "Bearer " "" ("Bearer " +:+ sid) = sid.
Proof. simpl. by destruct sid. Qed.

(** X10: Where the middleware finds the session id.  An [Authorization] header
    [Bearer <id>] with a non-empty id gives that id and [x-session-id] is
    not looked at; the bare header [Bearer ], or none, falls back to
    [x-session-id]; no id at all is answered 401 with the store left alone.
    The [Authorization] id decides alone: when it is unknown the request is
    refused, even if [x-session-id] names a live session. *)
Theorem authorization_header_precedes_x_session_id
    (sid : string) (x : option string) (now now' : Z) (svc : SessionService) :
  sid ≠ EmptyString →
  headerSessionId (mkHeaders (Some ("Bearer " +:+ sid)%string) x) = Some sid
  ∧ headerSessionId (mkHeaders (Some "Bearer "%string) x) = x
  ∧ headerSessionId (mkHeaders None x) = x
  ∧ authenticateSession now now' (mkHeaders None None) svc
    = (Unauthorized "Session ID required", svc)
  ∧ authenticateSession now now' (mkHeaders (Some "Bearer "%string) (Some EmptyString)) svc
    = (Unauthorized "Session ID required", svc)
  ∧ (sessions svc !! sid = None →
     authenticateSession now now' (mkHeaders (Some ("Bearer " +:+ sid)%string) x) svc
     = (Unauthorized "Invalid or expired session", svc)).
Proof.
  intros Hne.
  assert (headerSessionId (mkHeaders (Some ("Bearer " +:+ sid)%string) x) = Some sid)
    as Hh.
  { unfold headerSessionId. cbn [authorization x_session_id fmap option_fmap option_map].
    rewrite replace_bearer. unfold or_else. by rewrite decide_False. }
  split_and!; try done.
  intros Hs. rewrite authenticateSession_eq, Hh. unfold present, or_else.
  rewrite decide_False by done.
  pose proof (getSession_cases now sid svc) as H. rewrite Hs in H. by rewrite H.
Qed.

Lemma authorization_header_precedes_x_session_id_witness :
  authenticateSession 10 10
    (mkHeaders (Some "Bearer nobody"%string) (Some "s1"%string)) demoStore
  = (Unauthorized "Invalid or expired session", demoStore).
Proof.
  destruct (authorization_header_precedes_x_session_id
              "nobody" (Some "s1"%string) 10 10 demoStore)
    as (_ & _ & _ & _ & _ & H).
  - discriminate.
  - apply H. reflexivity.
Defined.

End ServerTheory.

(** * Properties of the durable queue *)

Module QueueTheory.
Import Queue.

Local Open Scope nat_scope.
Local Arguments mutate : simpl never.

(** ** The loop bodies *)

Lemma mutate_lookup f r q r' :
  objects (mutate f r q) !! r'
  = if decide (r = r') then f <$> objects q !! r' else objects q !! r'.
Proof.
  unfold mutate. simpl. destruct (decide (r = r')) as [->|Hne].
  - apply list_lookup_alter_eq.
  - by apply list_lookup_alter_ne.
Qed.

Lemma mutate_lookup_eq f r q : objects (mutate f r q) !! r = f <$> objects q !! r.
Proof. rewrite mutate_lookup. by rewrite decide_True. Qed.

Lemma mutate_lookup_ne f r q r' :
  r ≠ r' → objects (mutate f r q) !! r' = objects q !! r'.
Proof. intros. rewrite mutate_lookup. by rewrite decide_False. Qed.

Lemma mutate_length f r q : length (objects (mutate f r q)) = length (objects q).
Proof. unfold mutate. simpl. apply length_alter. Qed.

Lemma same_frame_refl q : same_frame q q.
Proof. by repeat split. Qed.

Lemma same_frame_trans q1 q2 q3 :
  same_frame q1 q2 → same_frame q2 q3 → same_frame q1 q3.
Proof.
  intros (?&?&?&?&?&?) (?&?&?&?&?&?). repeat split; congruence.
Qed.

Lemma mutate_frame f r q : same_frame q (mutate f r q).
Proof. repeat split. apply mutate_length. Qed.

Lemma settle_retryCount_le success m :
  retryCount m ≤ maxRetries → retryCount (settle success m) ≤ maxRetries.
Proof.
  unfold settle. destruct success; simpl; [done|].
  destruct (Nat.ltb_spec (retryCount m) maxRetries); simpl; lia.
Qed.

Lemma settle_status success m :
  status (settle success m)
  = if success then completed
    else if retryCount m <? maxRetries then pending else failed.
Proof.
  unfold settle. destruct success; [done|].
  by destruct (retryCount m <? maxRetries).
Qed.

(** What an iteration makes of the object it works on. *)
Lemma persistIteration_frame ok r q : same_frame q (persistIteration ok r q).1.
Proof.
  unfold persistIteration. cbn [fst snd].
  eapply same_frame_trans; apply mutate_frame.
Qed.

Lemma persistIteration_lookup_ne ok r q r' :
  r ≠ r' → objects (persistIteration ok r q).1 !! r' = objects q !! r'.
Proof.
  intros. unfold persistIteration. cbn [fst snd]. by rewrite !mutate_lookup_ne.
Qed.

Lemma persistIteration_lookup_eq ok r q :
  objects (persistIteration ok r q).1 !! r = attempt ok <$> objects q !! r.
Proof.
  unfold persistIteration, persistResult. cbn [fst snd].
  rewrite !mutate_lookup_eq. by destruct (objects q !! r).
Qed.

Lemma persistIteration_call ok r q :
  (persistIteration ok r q).2
  = from_option
      (λ m, [PersistMessage r (messageData m) (authToken m) (retryCount m)])
      [] (objects q !! r).
Proof.
  unfold persistIteration, persistCall. cbn [fst snd].
  rewrite mutate_lookup_eq. by destruct (objects q !! r).
Qed.

(** ** The message loop, uninterrupted *)

Lemma persistLoop_cons res i r rest q :
  persistLoop res i (r :: rest) q
  = let q1 := (persistIteration (res i) r q).1 in
    ((persistLoop res (S i) rest q1).1,
     (persistIteration (res i) r q).2 ++ (persistLoop res (S i) rest q1).2).
Proof.
  cbn [persistLoop]. destruct (persistIteration (res i) r q) as [q1 c].
  simpl. by destruct (persistLoop res (S i) rest q1).
Qed.

Lemma persistLoop_frame res i batch q :
  same_frame q (persistLoop res i batch q).1.
Proof.
  revert i q. induction batch as [|r rest IH]; intros i q.
  - apply same_frame_refl.
  - rewrite persistLoop_cons. cbn [fst snd].
    eapply same_frame_trans; [apply persistIteration_frame | apply IH].
Qed.

Lemma persistLoop_other res i batch q r :
  r ∉ batch → objects (persistLoop res i batch q).1 !! r = objects q !! r.
Proof.
  revert i q. induction batch as [|r0 rest IH]; intros i q Hr; [done|].
  apply not_elem_of_cons in Hr as [Hne Hr].
  rewrite persistLoop_cons. cbn [fst snd]. rewrite IH by done.
  by apply persistIteration_lookup_ne.
Qed.

Lemma persistLoop_object res i batch q k r :
  NoDup batch → batch !! k = Some r →
  objects (persistLoop res i batch q).1 !! r
  = attempt (res (i + k)) <$> objects q !! r.
Proof.
  revert i q k. induction batch as [|r0 rest IH]; intros i q k Hnd Hk; [done|].
  apply NoDup_cons in Hnd as [Hnotin Hnd].
  rewrite persistLoop_cons. cbn [fst snd].
  destruct k as [|k]; simpl in Hk.
  - injection Hk as ->. rewrite persistLoop_other by done.
    rewrite Nat.add_0_r. apply persistIteration_lookup_eq.
  - assert (r0 ≠ r) as Hne.
    { intros ->. apply Hnotin. by eapply list_elem_of_lookup_2. }
    rewrite (IH _ _ k) by done.
    rewrite persistIteration_lookup_ne by done. by rewrite Nat.add_succ_r.
Qed.

Lemma persistLoop_targets res i batch q :
  (∀ r, r ∈ batch → r < length (objects q)) →
  target <$> (persistLoop res i batch q).2 = inr <$> batch.
Proof.
  revert i q. induction batch as [|r rest IH]; intros i q Hv; [done|].
  rewrite persistLoop_cons. cbn [fst snd]. rewrite fmap_app, fmap_cons.
  rewrite IH.
  - rewrite persistIteration_call.
    destruct (lookup_lt_is_Some_2 (objects q) r) as [m ->]; [|done].
    apply Hv. left.
  - intros r' Hr'.
    destruct (persistIteration_frame (res i) r q) as (_&_&_&_&_&->).
    apply Hv. by right.
Qed.

(** ** The update loop, uninterrupted *)

Lemma updateLoop_cons res i u rest q :
  updateLoop res i (u :: rest) q
  = let q1 := settleUpdate (res i) u q in
    ((updateLoop res (S i) rest q1).1,
     UpdateConversation u :: (updateLoop res (S i) rest q1).2).
Proof.
  cbn [updateLoop]. by destruct (updateLoop res (S i) rest _).
Qed.

Lemma settleUpdate_eq ok u q :
  settleUpdate ok u q
  = with_conversationQueue q (conversationQueue q ++ requeued (λ _, ok) 0 [u]).
Proof.
  unfold settleUpdate. cbn [requeued]. destruct q as [o mq cq p on ls].
  destruct ok; simpl; [by rewrite app_nil_r|].
  destruct (u_retryCount u <? maxRetries); simpl; by rewrite ?app_nil_r.
Qed.

Lemma updateLoop_eq res i us q :
  updateLoop res i us q
  = (with_conversationQueue q (conversationQueue q ++ requeued res i us),
     UpdateConversation <$> us).
Proof.
  revert i q. induction us as [|u rest IH]; intros i q.
  - simpl. destruct q. simpl. by rewrite app_nil_r.
  - rewrite updateLoop_cons. cbn [fst snd]. rewrite IH. cbn [fst snd].
    rewrite settleUpdate_eq. cbn [requeued]. destruct q as [o mq cq p on ls].
    unfold with_conversationQueue. simpl. rewrite app_nil_r.
    f_equal. f_equal. by rewrite <- app_assoc.
Qed.

(** ** A whole pass, uninterrupted *)

Lemma drainPass_guarded env q :
  isProcessing q || negb (isOnline q) = true → drainPass env q = (q, []).
Proof. unfold drainPass. by intros ->. Qed.

Lemma selectPending_objects q q' :
  objects q' = objects q → messageQueue q' = messageQueue q →
  selectPending q' = selectPending q.
Proof.
  intros Ho Hq. unfold selectPending, test. by rewrite Ho, Hq.
Qed.

Lemma drainPass_run env q :
  isProcessing q = false → isOnline q = true →
  drainPass env q
  = let w := setItemOk env in
    let q0 := with_isProcessing q true in
    if importConversationManager env then
      let updates := take batchSize (conversationQueue q) in
      let q1 :=
        with_conversationQueue q0
          (drop batchSize (conversationQueue q)
           ++ requeued (updateConversationOk env) 0 updates) in
      if importMessagePersistence env then
        let lp := persistLoop (responseOk env) 0 (selectPending q) q1 in
        (finishPass w (prune lp.1), (UpdateConversation <$> updates) ++ lp.2)
      else (finishPass w q1, UpdateConversation <$> updates)
    else (finishPass w q0, []).
Proof.
  intros Hp Ho. unfold drainPass. rewrite Hp, Ho. cbn [orb negb].
  unfold processConversationUpdates, processMessages, spliceUpdates.
  destruct (importConversationManager env); [|done].
  rewrite updateLoop_eq.
  destruct (importMessagePersistence env).
  - cbn zeta.
    erewrite (selectPending_objects q); [|done..].
    destruct (persistLoop _ _ _ _) as [q3 cs] eqn:E. cbn [fst snd].
    reflexivity.
  - cbn. by rewrite app_nil_r.
Qed.

Lemma test_true f q r :
  test f q r = true ↔ ∃ m, objects q !! r = Some m ∧ f m = true.
Proof.
  unfold test. destruct (objects q !! r) as [m|]; simpl.
  - split; [by exists m | by intros (? & [= <-] & ?)].
  - split; [done | by intros (? & ? & ?)].
Qed.

Lemma selectPending_spec q r :
  r ∈ selectPending q →
  r ∈ messageQueue q ∧ ∃ m, objects q !! r = Some m ∧ status m = pending.
Proof.
  unfold selectPending. intros Hr.
  apply elem_of_take in Hr as (i & Hi & _).
  apply list_elem_of_lookup_2, list_elem_of_filter in Hi as [Hp Hin].
  split; [done|]. apply Is_true_true, test_true in Hp as (m & Hm & Hs).
  exists m. split; [done|]. unfold hasStatus in Hs.
  by apply bool_decide_eq_true in Hs.
Qed.

Lemma selectPending_NoDup q : NoDup (messageQueue q) → NoDup (selectPending q).
Proof.
  intros. unfold selectPending.
  eapply sublist_NoDup; [|apply sublist_take]. by apply NoDup_filter.
Qed.

(** ** The uninterrupted pass is a run of the page *)

Lemma run_app es1 es2 M : run (es1 ++ es2) M = run es2 (run es1 M).
Proof. unfold run. apply foldl_app. Qed.

Lemma settlePass_one n ph ok w q st cs :
  settlePass 0 ok w (mkMachine q [(n, ph)] st cs)
  = mkMachine (resume ok w ph q).1.1
      (match (resume ok w ph q).1.2 with
       | Some ph' => [(n, ph')]
       | None => []
       end)
      st (cs ++ ((λ c, (n, c)) <$> (resume ok w ph q).2)).
Proof.
  unfold settlePass. cbn [passes lookup list_lookup queue started calls].
  destruct (resume ok w ph q) as [[q1 next] cs']. by destruct next.
Qed.

(** The update loop, from the iteration that waits for the answer about
    [u]. *)
Lemma run_updateLoop n w res rest u i q st cs :
  run ((λ j, Settle 0 (res j) w) <$> seq i (S (length rest)))
      (mkMachine q [(n, AwaitUpdateConversation u rest)] st cs)
  = mkMachine (updateLoop res i (u :: rest) q).1
      [(n, AwaitImportMessagePersistence)] st
      (cs ++ ((λ c, (n, c)) <$> (UpdateConversation <$> rest))).
Proof.
  revert u i q cs. induction rest as [|u' rest IH]; intros u i q cs.
  - cbn [length seq fmap list_fmap run foldl handle].
    rewrite settlePass_one. cbn [resume nextUpdate fst snd fmap list_fmap].
    rewrite updateLoop_cons. by rewrite app_nil_r.
  - cbn [length seq fmap list_fmap run foldl handle] in *.
    rewrite settlePass_one. cbn [resume nextUpdate fst snd].
    specialize (IH u' (S i) (settleUpdate (res i) u q)
                  (cs ++ ((λ c, (n, c)) <$> [UpdateConversation u']))).
    unfold run in IH. rewrite IH.
    rewrite (updateLoop_cons res i u (u' :: rest)). cbn [fst snd].
    rewrite <- app_assoc. done.
Qed.

(** The message loop, from the iteration that waits for the answer about
    [r]; [q0] is the queue as that iteration found it. *)
Lemma run_persistLoop n w res rest r i q0 m st cs :
  objects q0 !! r = Some m →
  (∀ r', r' ∈ rest → r' < length (objects q0)) →
  run ((λ j, Settle 0 (res j) w) <$> seq i (S (length rest)))
      (mkMachine (mutate (set_status processing) r q0)
         [(n, AwaitPersistMessage r (messageData m) rest)] st cs)
  = mkMachine (finishPass w (prune (persistLoop res i (r :: rest) q0).1))
      [] st
      (cs ++ ((λ c, (n, c))
                <$> (persistLoop res (S i) rest
                       (persistIteration (res i) r q0).1).2)).
Proof.
  revert r i q0 m cs. induction rest as [|r' rest IH]; intros r i q0 m cs Hm Hv.
  - cbn [length seq fmap list_fmap run foldl handle].
    rewrite settlePass_one. cbn [resume nextMessage fst snd fmap list_fmap].
    rewrite persistLoop_cons. cbn [fst snd persistLoop].
    unfold persistIteration, persistResult. cbn [fst].
    rewrite mutate_lookup_eq, Hm. cbn. done.
  - cbn [length seq fmap list_fmap run foldl handle] in *.
    rewrite settlePass_one. cbn [resume nextMessage].
    assert (mutate (settle (persistMessage (messageData m) (res i))) r
              (mutate (set_status processing) r q0)
            = (persistIteration (res i) r q0).1) as Hit.
    { unfold persistIteration, persistResult. cbn [fst].
      rewrite mutate_lookup_eq, Hm. cbn. done. }
    rewrite Hit. set (q1 := (persistIteration (res i) r q0).1).
    destruct (persistIteration_frame (res i) r q0)
      as (_ & _ & _ & _ & _ & Hlen). fold q1 in Hlen.
    destruct (lookup_lt_is_Some_2 (objects q1) r') as [m' Hm'].
    { rewrite Hlen. apply Hv. left. }
    rewrite mutate_lookup_eq, Hm'. cbn [fmap option_fmap option_map fst snd].
    cbn [messageData set_status].
    specialize (IH r' (S i) q1 m'
                  (cs ++ ((λ c, (n, c))
                     <$> persistCall (mutate (set_status processing) r' q1) r'))
                  Hm').
    unfold run in IH. rewrite IH.
    + rewrite (persistLoop_cons res i r (r' :: rest)). cbn [fst snd]. fold q1.
      rewrite (persistLoop_cons res (S i) r' rest q1). cbn [fst snd].
      rewrite fmap_app, <- app_assoc. unfold persistIteration. cbn [snd].
      done.
    + intros x Hx. rewrite Hlen. apply Hv. by right.
Qed.

Lemma run_cons e es M : run (e :: es) M = run es (handle e M).
Proof. done. Qed.

Lemma run_updates n w res updates q st cs :
  run ((λ j, Settle 0 (res j) w) <$> seq 0 (length updates))
      (mkMachine q [(n, (nextUpdate updates).1)] st
         (cs ++ ((λ c, (n, c)) <$> (nextUpdate updates).2)))
  = mkMachine (updateLoop res 0 updates q).1
      [(n, AwaitImportMessagePersistence)] st
      (cs ++ ((λ c, (n, c)) <$> (UpdateConversation <$> updates))).
Proof.
  destruct updates as [|u rest].
  - cbn. done.
  - cbn [nextUpdate fst snd length]. rewrite run_updateLoop.
    rewrite <- app_assoc. done.
Qed.

Lemma run_messages n w res q st cs :
  run ((λ j, Settle 0 (res j) w) <$> seq 0 (length (selectPending q)))
      (mkMachine (nextMessage w (selectPending q) q).1.1
         (match (nextMessage w (selectPending q) q).1.2 with
          | Some ph' => [(n, ph')]
          | None => []
          end) st
         (cs ++ ((λ c, (n, c)) <$> (nextMessage w (selectPending q) q).2)))
  = mkMachine (finishPass w (prune (persistLoop res 0 (selectPending q) q).1))
      [] st
      (cs ++ ((λ c, (n, c)) <$> (persistLoop res 0 (selectPending q) q).2)).
Proof.
  assert (∀ r, r ∈ selectPending q → r < length (objects q)) as Hv.
  { intros r (_ & m & Hm & _)%selectPending_spec. by eapply lookup_lt_Some. }
  destruct (selectPending q) as [|r rest].
  - cbn. done.
  - destruct (lookup_lt_is_Some_2 (objects q) r) as [m Hm]; [apply Hv; left|].
    cbn [nextMessage]. rewrite mutate_lookup_eq, Hm.
    cbn [fmap option_fmap option_map fst snd messageData set_status length].
    rewrite (run_persistLoop n w res rest r 0 q m) by (done || (intros; apply Hv; by right)).
    rewrite (persistLoop_cons res 0 r rest q). cbn [fst snd].
    unfold persistIteration at 3. cbn [snd].
    rewrite fmap_app, <- app_assoc. done.
Qed.

(** From the call of [processQueue] on an idle, online page, the events
    that deliver the answers of [env] one after the other, with nothing
    between them, lead to what [drainPass] computes. *)
Lemma uninterrupted_pass env M :
  passes M = [] → isProcessing (queue M) = false → isOnline (queue M) = true →
  run (answers env (queue M)) (processQueue M)
  = mkMachine (drainPass env (queue M)).1 [] (S (started M))
      (calls M ++ ((λ c, (started M, c)) <$> (drainPass env (queue M)).2)).
Proof.
  intros Hnil Hp Ho. rewrite drainPass_run by done. cbn zeta.
  unfold processQueue. rewrite Hp, Ho, Hnil. cbn [orb negb app].
  unfold answers. cbn zeta. rewrite run_cons. cbn [handle].
  rewrite settlePass_one. cbn [resume].
  destruct (importConversationManager env); cbn [fst snd];
    [|cbn; by rewrite app_nil_r].
  unfold spliceUpdates.
  change (conversationQueue (with_isProcessing (queue M) true))
    with (conversationQueue (queue M)).
  set (updates := take batchSize (conversationQueue (queue M))).
  set (q1 := with_conversationQueue (with_isProcessing (queue M) true)
               (drop batchSize (conversationQueue (queue M)))).
  destruct (nextUpdate updates) as [ph1 cs1] eqn:Hnext. cbn [fst snd].
  rewrite run_app.
  pose proof (run_updates (started M) (setItemOk env)
                (updateConversationOk env) updates q1 (S (started M))
                (calls M)) as Hup.
  rewrite Hnext in Hup. cbn [fst snd] in Hup. rewrite Hup. clear Hup.
  rewrite updateLoop_eq. cbn [fst].
  set (q2 := with_conversationQueue q1 _).
  rewrite run_cons. cbn [handle]. rewrite settlePass_one. cbn [resume].
  destruct (importMessagePersistence env); cbn [fst snd].
  - assert (selectPending q2 = selectPending (queue M)) as Hsel by done.
    rewrite <- Hsel.
    rewrite run_messages. rewrite fmap_app, app_assoc. done.
  - cbn. by rewrite app_nil_r.
Qed.

Lemma drainPass_targets env q :
  isProcessing q = false → isOnline q = true →
  target <$> (drainPass env q).2
  = (if importConversationManager env
     then inl <$> take batchSize (conversationQueue q) else [])
    ++ (if importConversationManager env && importMessagePersistence env
        then inr <$> selectPending q else []).
Proof.
  intros Hp Ho. rewrite drainPass_run by done. cbn zeta.
  destruct (importConversationManager env); [|done].
  destruct (importMessagePersistence env); cbn [andb snd].
  - rewrite fmap_app. f_equal.
    + rewrite <- list_fmap_compose. done.
    + apply persistLoop_targets. intros r Hr.
      apply selectPending_spec in Hr as (_ & m & Hm & _). simpl.
      by eapply lookup_lt_Some.
  - rewrite app_nil_r, <- list_fmap_compose. done.
Qed.

Lemma saveToStorage_fields w q :
  objects (saveToStorage w q) = objects q
  ∧ messageQueue (saveToStorage w q) = messageQueue q
  ∧ conversationQueue (saveToStorage w q) = conversationQueue q
  ∧ isProcessing (saveToStorage w q) = isProcessing q
  ∧ isOnline (saveToStorage w q) = isOnline q.
Proof. by destruct w. Qed.

Lemma finishPass_fields w q :
  objects (finishPass w q) = objects q
  ∧ messageQueue (finishPass w q) = messageQueue q
  ∧ conversationQueue (finishPass w q) = conversationQueue q
  ∧ isProcessing (finishPass w q) = false
  ∧ isOnline (finishPass w q) = isOnline q.
Proof. unfold finishPass. by destruct w. Qed.

(** What a pass in which both imports resolve leaves behind. *)
Lemma drainPass_result env q :
  isProcessing q = false → isOnline q = true →
  importConversationManager env = true → importMessagePersistence env = true →
  ∃ q1 q2,
    objects q1 = objects q
    ∧ q2 = (persistLoop (responseOk env) 0 (selectPending q) q1).1
    ∧ objects (drainPass env q).1 = objects q2
    ∧ messageQueue (drainPass env q).1
      = filter (λ r, test survives q2 r) (messageQueue q).
Proof.
  intros Hp Ho H1 H2. rewrite drainPass_run by done. rewrite H1, H2. cbn zeta.
  set (q1 := with_conversationQueue _ _).
  exists q1, (persistLoop (responseOk env) 0 (selectPending q) q1).1.
  split_and!; [done..| |]; cbn [fst].
  - by destruct (finishPass_fields (setItemOk env)
      (prune (persistLoop (responseOk env) 0 (selectPending q) q1).1))
      as (-> & _).
  - destruct (finishPass_fields (setItemOk env)
      (prune (persistLoop (responseOk env) 0 (selectPending q) q1).1))
      as (_ & -> & _).
    unfold prune. cbn [messageQueue with_messageQueue].
    by destruct (persistLoop_frame (responseOk env) 0 (selectPending q) q1)
      as (-> & _).
Qed.

(** A pass leaves alone every object it did not select. *)
Lemma drainPass_unselected env q r :
  r ∉ selectPending q → objects (drainPass env q).1 !! r = objects q !! r.
Proof.
  intros Hr.
  destruct (isProcessing q || negb (isOnline q)) eqn:Hg;
    [by rewrite drainPass_guarded|].
  apply orb_false_elim in Hg as [Hp Ho]. apply negb_false_iff in Ho.
  rewrite drainPass_run by done. cbn zeta.
  destruct (importConversationManager env); cbn [fst];
    [|by destruct (finishPass_fields (setItemOk env) (with_isProcessing q true))
         as (-> & _)].
  set (q1 := with_conversationQueue _ _).
  destruct (importMessagePersistence env); cbn [fst];
    [|by destruct (finishPass_fields (setItemOk env) q1) as (-> & _)].
  destruct (finishPass_fields (setItemOk env)
      (prune (persistLoop (responseOk env) 0 (selectPending q) q1).1))
      as (-> & _).
  unfold prune. cbn [objects with_messageQueue].
  by rewrite persistLoop_other.
Qed.

(** C3, as stated, fails: the message of [oneQueued] is refused four times
    in a row; the fourth pass gives it the status [failed] and drops it
    from the message list (and from what is stored), although
    [clearFailedMessages] was never called. *)
Lemma failed_message_not_retained :
  status <$> objects (afterFailures 4) !! 0 = Some failed
  ∧ (0 ∈ messageQueue (afterFailures 3))
  ∧ (0 ∉ messageQueue (afterFailures 4))
  ∧ contents (afterFailures 4) = []
  ∧ localStorage (afterFailures 4) = Some (mkStored [] []).
Proof.
  vm_compute. split_and!; try reflexivity.
  - apply list_elem_of_singleton. reflexivity.
  - apply not_elem_of_nil.
Qed.

(** ** Saving and reloading *)

Lemma contents_loaded (pre l : list QueuedMessage) :
  omap (λ r, (pre ++ l) !! r) (seq (length pre) (length l)) = l.
Proof.
  revert pre. induction l as [|x l IH]; intros pre; [done|].
  simpl. rewrite list_lookup_middle by done.
  f_equal. specialize (IH (pre ++ [x])).
  rewrite <- app_assoc, length_app in IH. cbn [app length] in IH.
  by rewrite Nat.add_1_r in IH.
Qed.

Lemma construct_contents online stored :
  contents (construct online (Some stored)) = messages stored
  ∧ conversationQueue (construct online (Some stored)) = conversations stored.
Proof.
  unfold construct, loadFromStorage, contents. cbn.
  split; [|done]. apply (contents_loaded [] (messages stored)).
Qed.

Lemma processQueue_queue M :
  contents (queue (processQueue M)) = contents (queue M)
  ∧ conversationQueue (queue (processQueue M)) = conversationQueue (queue M)
  ∧ localStorage (queue (processQueue M)) = localStorage (queue M).
Proof.
  unfold processQueue.
  by destruct (isProcessing (queue M) || negb (isOnline (queue M))).
Qed.

Lemma enqueue_contents gid now w md token prio q :
  let m := mkQueuedMessage gid md token now 0 prio pending in
  m ∈ contents (enqueue gid now w md token prio q)
  ∧ (prio = high → head (contents (enqueue gid now w md token prio q)) = Some m)
  ∧ (prio ≠ high → last (contents (enqueue gid now w md token prio q)) = Some m).
Proof.
  intros m. unfold enqueue.
  destruct (saveToStorage_fields w
    (if decide (prio = high)
     then with_messageQueue (with_objects q (objects q ++ [m]))
            (length (objects q) :: messageQueue (with_objects q (objects q ++ [m])))
     else with_messageQueue (with_objects q (objects q ++ [m]))
            (messageQueue (with_objects q (objects q ++ [m])) ++ [length (objects q)])))
    as (Ho & Hq & _).
  unfold contents. fold m. rewrite Ho, Hq. clear Ho Hq.
  destruct (decide (prio = high)) as [Hp|Hp];
    cbn [objects messageQueue with_messageQueue with_objects].
  - simpl. rewrite list_lookup_middle by done.
    split_and!; [left | done | done].
  - rewrite omap_app. simpl. rewrite list_lookup_middle by done.
    split_and!; [|done|].
    + apply elem_of_app. right. left.
    + intros _. by rewrite last_snoc.
Qed.

(** C8: a message handed to [queueMessage] (the write to [localStorage]
    succeeding) is, after a reload of the page, in the reloaded queue with
    the id, payload, token, timestamp, priority and status it was queued
    with and retry count 0; the reloaded message list and update list are
    those of the queue as it was after the call. *)
Theorem queued_message_survives_reload
    (gid : string) (now : Z) (md : MessageData) (token : string)
    (prio : Priority) (online : bool) (M : Machine) :
  let m := mkQueuedMessage gid md token now 0 prio pending in
  let M1 := queueMessage gid now true md token prio M in
  let M2 := handle (Reload online) M1 in
  m ∈ contents (queue M2)
  ∧ contents (queue M2) = contents (queue M1)
  ∧ conversationQueue (queue M2) = conversationQueue (queue M1).
Proof.
  intros m M1 M2.
  set (q1 := enqueue gid now true md token prio (queue M)).
  assert (contents (queue M1) = contents q1
          ∧ conversationQueue (queue M1) = conversationQueue q1
          ∧ localStorage (queue M1) = localStorage q1) as (Hc & Hu & Hs).
  { unfold M1, queueMessage. fold q1.
    destruct (isOnline _ && negb _); [apply processQueue_queue | done]. }
  assert (localStorage q1
          = Some (mkStored (contents q1) (conversationQueue q1))) as Hst.
  { unfold q1, enqueue. cbn [saveToStorage].
    by destruct (decide (prio = high)). }
  unfold M2. cbn [handle boot queue]. rewrite Hs, Hst.
  destruct (construct_contents online
              (mkStored (contents q1) (conversationQueue q1))) as [-> ->].
  cbn [messages conversations]. rewrite Hc, Hu. split_and!; [|done..].
  apply enqueue_contents.
Qed.

(** ** Invariants of the page *)

Lemma attempts_app r cs cs' :
  attempts r (cs ++ cs') = attempts r cs + attempts r cs'.
Proof. unfold attempts. by rewrite filter_app, length_app. Qed.

Lemma filter_none {A} (P : A → Prop) `{!∀ x, Decision (P x)} (l : list A) :
  (∀ x, x ∈ l → ¬ P x) → filter P l = [].
Proof.
  induction l as [|x l IH]; intros Hl; [done|].
  rewrite filter_cons_False by (apply Hl; left).
  apply IH. intros y Hy. apply Hl. by right.
Qed.

Lemma attempts_fresh M r :
  callsOk M → length (objects (queue M)) ≤ r → attempts r (calls M) = 0.
Proof.
  intros Hc Hr. unfold attempts.
  rewrite filter_none; [done|]. intros [n c] Hin Ht.
  destruct (Hc n c Hin) as [_ Hv]. specialize (Hv r Ht). lia.
Qed.

Lemma invariant_boot online : invariant (boot online None).
Proof.
  split.
  - split; [|constructor]. intros r Hr. by apply elem_of_nil in Hr.
  - by left.
  - intros r m Hm. cbn in Hm. by rewrite lookup_nil in Hm.
  - by intros stored Hs.
  - intros n c Hin. by apply elem_of_nil in Hin.
Qed.

Lemma awaited_passes M M' r :
  passes M' = passes M → awaited M r → awaited M' r.
Proof. unfold awaited. by intros ->. Qed.

Lemma invariant_processQueue M : invariant M → invariant (processQueue M).
Proof.
  intros [Hwf Hone Hacc Hst Hcalls]. unfold processQueue.
  destruct (isProcessing (queue M) || negb (isOnline (queue M))) eqn:Hg;
    [by split|].
  apply orb_false_elim in Hg as [Hp _].
  destruct Hone as [[Hnil _]|(n & ph & _ & Hp' & _)]; [|congruence].
  split; cbn [queue passes started calls].
  - done.
  - right. exists (started M), AwaitImportConversationManager.
    rewrite Hnil. split_and!; cbn; [done|done|lia|done].
  - intros r m Hm. destruct (Hacc r m Hm) as (H1 & H2 & H3).
    split_and!; [done..|].
    intros Hs. destruct (H3 Hs) as [(n & ph & Hin & _)|H0]; [|by right].
    rewrite Hnil in Hin. by apply elem_of_nil in Hin.
  - done.
  - intros n c Hin. destruct (Hcalls n c Hin) as [Hn Hv]. cbn. split; [lia|done].
Qed.

(** A handler that touches the instance only, keeps the busy flag, and
    keeps the status, retry count and payload of every object it found. *)
Lemma invariant_with_queue M q' :
  invariant M →
  wellFormed q' → storedOk q' →
  isProcessing q' = isProcessing (queue M) →
  (∀ r m, objects (queue M) !! r = Some m →
     ∃ m', objects q' !! r = Some m' ∧ status m' = status m
           ∧ retryCount m' = retryCount m ∧ messageData m' = messageData m) →
  (∀ r m', objects q' !! r = Some m' → length (objects (queue M)) ≤ r →
     status m' = pending ∧ retryCount m' = 0) →
  invariant (with_queue M q').
Proof.
  intros [Hwf Hone Hacc Hst Hcalls] Hwf' Hst' Hp Hold Hnew.
  assert (length (objects (queue M)) ≤ length (objects q')) as Hlen.
  { destruct (decide (length (objects (queue M)) = 0)) as [->|Hne]; [lia|].
    destruct (lookup_lt_is_Some_2 (objects (queue M))
                (pred (length (objects (queue M))))) as [m Hm]; [lia|].
    destruct (Hold _ _ Hm) as (m' & Hm' & _).
    apply lookup_lt_Some in Hm'. lia. }
  split.
  - done.
  - unfold onePass. cbn [with_queue queue passes started].
    destruct Hone as [[Hnil Hf]|(n & ph & Hpass & Ht & Hn & Hph)].
    + left. split; [done|congruence].
    + right. exists n, ph. split_and!; [done|congruence|done|].
      destruct ph as [| | |r md rest]; try done.
      destruct Hph as (Hnd & (m & Hm & Hs & Hmd) & Hrest).
      split_and!; [done| |].
      * destruct (Hold _ _ Hm) as (m' & Hm' & ? & ? & ?).
        exists m'. split_and!; congruence.
      * intros r' Hr'. destruct (Hrest r' Hr') as (m0 & Hm0 & Hs0).
        destruct (Hold _ _ Hm0) as (m' & Hm' & ? & ? & ?).
        exists m'. split; congruence.
  - cbn [with_queue queue]. intros r m' Hm'.
    destruct (decide (r < length (objects (queue M)))) as [Hlt|Hge].
    + destruct (lookup_lt_is_Some_2 _ _ Hlt) as [m Hm].
      destruct (Hold _ _ Hm) as (m0 & Hm0 & Hs & Hrc & _).
      assert (m0 = m') as -> by congruence.
      destruct (Hacc r m Hm) as (H1 & H2 & H3).
      unfold accounted. cbn [with_queue calls]. rewrite Hs, Hrc.
      split_and!; [done..|].
      intros Hpr. destruct (H3 Hpr) as [Haw|H0]; [left|by right].
      by eapply awaited_passes.
    + destruct (Hnew r m' Hm') as [Hs Hrc]; [lia|].
      unfold accounted. cbn [calls with_queue].
      rewrite (attempts_fresh M r) by (done || lia).
      rewrite Hs, Hrc. split_and!; [unfold maxRetries; lia|lia|done].
  - done.
  - intros n c Hin. destruct (Hcalls n c Hin) as [Hn Hv]. split; [done|].
    cbn [with_queue queue]. intros r Hr. specialize (Hv r Hr). lia.
Qed.

Lemma elem_of_contents q m :
  m ∈ contents q → ∃ r, objects q !! r = Some m.
Proof.
  unfold contents. intros (r & _ & Hr)%list_elem_of_omap. by exists r.
Qed.

Lemma storedOk_save w q :
  storedOk q →
  (∀ r m, objects q !! r = Some m → retryCount m ≤ maxRetries) →
  storedOk (saveToStorage w q).
Proof.
  intros Hst Hobj. destruct w; [|done].
  intros stored [= <-]. cbn [messages]. apply Forall_forall.
  intros m (r & Hr)%elem_of_contents. by eapply Hobj.
Qed.

Lemma storedOk_fields q q' :
  localStorage q' = localStorage q → storedOk q → storedOk q'.
Proof. unfold storedOk. by intros ->. Qed.

Lemma invariant_retryCount M r m :
  invariant M → objects (queue M) !! r = Some m → retryCount m ≤ maxRetries.
Proof. intros HI Hm. by destruct (inv_accounted M HI r m Hm). Qed.

Lemma invariant_enqueue gid now w md token prio M :
  invariant M →
  invariant (with_queue M (enqueue gid now w md token prio (queue M))).
Proof.
  intros HI. pose proof HI as [[Hv Hnd] _ _ Hst _].
  set (m := mkQueuedMessage gid md token now 0 prio pending).
  set (q2 := if decide (prio = high)
     then with_messageQueue (with_objects (queue M) (objects (queue M) ++ [m]))
            (length (objects (queue M)) :: messageQueue (queue M))
     else with_messageQueue (with_objects (queue M) (objects (queue M) ++ [m]))
            (messageQueue (queue M) ++ [length (objects (queue M))])).
  assert (enqueue gid now w md token prio (queue M) = saveToStorage w q2) as ->
    by done.
  assert (objects q2 = objects (queue M) ++ [m]) as Hobj
    by (unfold q2; by destruct (decide (prio = high))).
  assert (isProcessing q2 = isProcessing (queue M)
          ∧ localStorage q2 = localStorage (queue M)) as [Hp Hls]
    by (unfold q2; by destruct (decide (prio = high))).
  assert (length (objects (queue M)) ∉ messageQueue (queue M)) as Hfresh.
  { intros Hin. apply Hv in Hin. lia. }
  destruct (saveToStorage_fields w q2) as (Ho' & Hq' & _ & Hp' & _).
  apply invariant_with_queue; [done| | | | |].
  - unfold wellFormed. rewrite Ho', Hq', Hobj, length_app. cbn [length].
    unfold q2. destruct (decide (prio = high));
      cbn [messageQueue with_messageQueue with_objects]; split.
    + intros r [->|Hr]%elem_of_cons; [lia|]. apply Hv in Hr. lia.
    + by apply NoDup_cons.
    + intros r [Hr| ->%list_elem_of_singleton]%elem_of_app; [|lia].
      apply Hv in Hr. lia.
    + apply NoDup_app. split_and!; [done| |apply NoDup_singleton].
      intros r Hr ->%list_elem_of_singleton. done.
  - apply storedOk_save; [by eapply storedOk_fields|].
    intros r m'. rewrite Hobj. intros [Hm'|[_ Hm']]%lookup_app_Some.
    + by eapply invariant_retryCount.
    + apply list_lookup_singleton_Some in Hm' as [_ <-].
      unfold maxRetries. cbn. lia.
  - congruence.
  - intros r m0 Hm0. exists m0. rewrite Ho', Hobj.
    split_and!; [|done..]. by apply lookup_app_l_Some.
  - intros r m'. rewrite Ho', Hobj. intros Hm' Hr.
    apply lookup_app_Some in Hm' as [Hm'|[_ Hm']].
    + apply lookup_lt_Some in Hm'. lia.
    + by apply list_lookup_singleton_Some in Hm' as [_ <-].
Qed.

Lemma invariant_same_objects M q' :
  invariant M →
  objects q' = objects (queue M) →
  messageQueue q' `sublist_of` messageQueue (queue M) →
  isProcessing q' = isProcessing (queue M) →
  storedOk q' →
  invariant (with_queue M q').
Proof.
  intros HI Ho Hq Hp Hst. pose proof HI as [[Hv Hnd] _ _ _ _].
  apply invariant_with_queue; [done| |done|done| |].
  - split.
    + intros r Hr. rewrite Ho. apply Hv. by eapply elem_of_sublist.
    + by eapply sublist_NoDup.
  - intros r m Hm. exists m. by rewrite Ho.
  - intros r m' Hm' Hr. rewrite Ho in Hm'.
    apply lookup_lt_Some in Hm'. lia.
Qed.

Lemma invariant_queueConversationUpdate gid now w c u token M :
  invariant M →
  invariant (with_queue M (queueConversationUpdate gid now w c u token (queue M))).
Proof.
  intros HI. unfold queueConversationUpdate.
  set (q1 := with_conversationQueue _ _).
  destruct (saveToStorage_fields w q1) as (Ho & Hq & _ & Hp & _).
  apply invariant_same_objects; [done|by rewrite Ho|by rewrite Hq|by rewrite Hp|].
  apply storedOk_save; [apply HI|]. intros r m. by apply invariant_retryCount.
Qed.

Lemma invariant_with_isOnline v M :
  invariant M → invariant (with_queue M (with_isOnline (queue M) v)).
Proof. intros HI. apply invariant_same_objects; try done. apply HI. Qed.

Lemma invariant_clearFailedMessages w M :
  invariant M →
  invariant (with_queue M (clearFailedMessages w (queue M)).2).
Proof.
  intros HI. unfold clearFailedMessages. cbn [snd].
  set (q1 := with_messageQueue _ _).
  destruct (saveToStorage_fields w q1) as (Ho & Hq & _ & Hp & _).
  apply invariant_same_objects; [done|by rewrite Ho| |by rewrite Hp|].
  - rewrite Hq. apply sublist_filter.
  - apply storedOk_save; [apply HI|]. intros r m. by apply invariant_retryCount.
Qed.

Lemma retokened_refl m : retokened m m.
Proof. by destruct m. Qed.

Lemma retokened_trans m1 m2 m3 :
  retokened m1 m2 → retokened m2 m3 → retokened m1 m3.
Proof. unfold retokened. intros -> ->. by destruct m1. Qed.

Lemma retokened_fields m m' :
  retokened m m' →
  id m' = id m ∧ messageData m' = messageData m ∧ timestamp m' = timestamp m
  ∧ retryCount m' = retryCount m ∧ priority m' = priority m
  ∧ status m' = status m.
Proof. unfold retokened. by intros ->. Qed.

Lemma rewriteMessage_objects oldToken newToken refs acc :
  Forall2 retokened acc.2
    (foldl (rewriteMessage oldToken newToken) acc refs).2.
Proof.
  revert acc. induction refs as [|r refs IH]; intros acc.
  - apply Forall_Forall2_diag, Forall_forall. intros m _. apply retokened_refl.
  - cbn [foldl].
    eapply (Forall2_trans retokened retokened retokened);
      [apply retokened_trans| |apply IH].
    unfold rewriteMessage. destruct (acc.2 !! r) as [m|] eqn:Hm;
      [destruct (matchesOld oldToken (authToken m))|];
      try (apply Forall_Forall2_diag, Forall_forall; intros m0 _;
           apply retokened_refl).
    cbn [snd]. rewrite <- (list_insert_id _ _ _ Hm) at 1.
    apply Forall2_insert.
    + apply Forall_Forall2_diag, Forall_forall. intros m0 _.
      apply retokened_refl.
    + by destruct m.
Qed.

Lemma rewriteTokens_fields w oldToken newToken q :
  Forall2 retokened (objects q) (objects (rewriteTokens w oldToken newToken q).2)
  ∧ messageQueue (rewriteTokens w oldToken newToken q).2 = messageQueue q
  ∧ isProcessing (rewriteTokens w oldToken newToken q).2 = isProcessing q
  ∧ isOnline (rewriteTokens w oldToken newToken q).2 = isOnline q
  ∧ (localStorage (rewriteTokens w oldToken newToken q).2 = localStorage q
     ∨ localStorage (rewriteTokens w oldToken newToken q).2
       = Some (mkStored (contents (rewriteTokens w oldToken newToken q).2)
                 (conversationQueue (rewriteTokens w oldToken newToken q).2))).
Proof.
  unfold rewriteTokens.
  pose proof (rewriteMessage_objects oldToken newToken (messageQueue q)
                (0, objects q)) as Hobj.
  destruct (foldl _ _ _) as [n1 objs]. cbn [snd] in *.
  set (q1 := with_conversationQueue _ _).
  destruct (0 <? _).
  - destruct (saveToStorage_fields w q1) as (-> & -> & _ & -> & ->).
    split_and!; [done..|]. destruct w; [by right|by left].
  - split_and!; [done..|]. by left.
Qed.

Lemma invariant_rewriteTokens w oldToken newToken M :
  invariant M →
  invariant (with_queue M (rewriteTokens w oldToken newToken (queue M)).2).
Proof.
  intros HI. pose proof HI as [[Hv Hnd] _ _ Hst _].
  destruct (rewriteTokens_fields w oldToken newToken (queue M))
    as (Hobj & Hq & Hp & _ & Hls).
  set (q' := (rewriteTokens w oldToken newToken (queue M)).2) in *.
  assert (∀ r m', objects q' !! r = Some m' → retryCount m' ≤ maxRetries) as Hrc.
  { intros r m' Hm'.
    destruct (Forall2_lookup_r _ _ _ _ _ Hobj Hm') as (m & Hm & Hr).
    apply retokened_fields in Hr as (_ & _ & _ & -> & _).
    by eapply invariant_retryCount. }
  apply invariant_with_queue; [done| | |done| |].
  - split; rewrite Hq; [|done].
    intros r Hr. rewrite <- (Forall2_length _ _ _ Hobj). by apply Hv.
  - destruct Hls as [Hls|Hls].
    + by eapply storedOk_fields.
    + intros stored Hs. rewrite Hls in Hs.
      injection Hs as <-. cbn [messages]. apply Forall_forall.
      intros m (r & Hr)%elem_of_contents. by eapply Hrc.
  - intros r m Hm.
    destruct (Forall2_lookup_l _ _ _ _ _ Hobj Hm) as (m' & Hm' & Hr).
    apply retokened_fields in Hr as (_ & ? & _ & ? & _ & ?). by exists m'.
  - intros r m' Hm' Hr. apply lookup_lt_Some in Hm'.
    rewrite <- (Forall2_length _ _ _ Hobj) in Hm'. lia.
Qed.

Lemma invariant_queueMessage gid now w md token prio M :
  invariant M → invariant (queueMessage gid now w md token prio M).
Proof.
  intros HI. unfold queueMessage. cbn zeta.
  destruct (isOnline _ && negb _).
  - by apply invariant_processQueue, invariant_enqueue.
  - by apply invariant_enqueue.
Qed.

Lemma invariant_tick M : invariant M → invariant (tick M).
Proof.
  intros HI. unfold tick. destruct (_ && _); [|done].
  by apply invariant_processQueue.
Qed.

Lemma invariant_updateAuthTokens w oldToken newToken M :
  invariant M → invariant (updateAuthTokens w oldToken newToken M).
Proof.
  intros HI. unfold updateAuthTokens.
  pose proof (invariant_rewriteTokens w oldToken newToken M HI) as H.
  destruct (rewriteTokens w oldToken newToken (queue M)) as [n q1].
  cbn [snd] in H. destruct (_ && _); [|done].
  by apply invariant_processQueue.
Qed.

Lemma invariant_reload online M :
  invariant M → invariant (boot online (localStorage (queue M))).
Proof.
  intros HI. destruct (localStorage (queue M)) as [stored|] eqn:Hs;
    [|apply invariant_boot].
  pose proof (inv_storedOk M HI stored Hs) as Hrc.
  split.
  - split; cbn.
    + intros r Hr. apply list_elem_of_lookup in Hr as (i & Hi).
      apply lookup_seq in Hi. lia.
    + apply NoDup_seq.
  - by left.
  - cbn. intros r m Hm. split_and!.
    + eapply Forall_lookup_1 in Hrc; [|exact Hm]. done.
    + unfold attempts. cbn. lia.
    + intros _. by right.
  - intros stored' Hs'. cbn in Hs'. by injection Hs' as <-.
  - intros n c Hin. by apply elem_of_nil in Hin.
Qed.

Lemma attempts_snoc_other r cs n c :
  target c ≠ inr r → attempts r (cs ++ [(n, c)]) = attempts r cs.
Proof.
  intros Hne. rewrite attempts_app. unfold attempts at 2.
  rewrite filter_cons_False by done. cbn. lia.
Qed.

Lemma attempts_snoc_same r cs n c :
  target c = inr r → attempts r (cs ++ [(n, c)]) = S (attempts r cs).
Proof.
  intros He. rewrite attempts_app. unfold attempts at 2.
  rewrite filter_cons_True by done. cbn. lia.
Qed.

Lemma prune_fields q :
  objects (prune q) = objects q
  ∧ messageQueue (prune q) `sublist_of` messageQueue q
  ∧ isProcessing (prune q) = isProcessing q
  ∧ localStorage (prune q) = localStorage q.
Proof. unfold prune. split_and!; try done. apply sublist_filter. Qed.

(** Between two iterations of the message loop nothing is awaited; entering
    the next iteration (or leaving the loop) restores the invariant. *)
Lemma invariant_nextMessage n w batch q st cs0 :
  wellFormed q → storedOk q → isProcessing q = true → n < st →
  callsOk (mkMachine q [] st cs0) →
  (∀ r m, objects q !! r = Some m → accounted (mkMachine q [] st cs0) r m) →
  NoDup batch →
  (∀ r, r ∈ batch → ∃ m, objects q !! r = Some m ∧ status m = pending) →
  invariant
    (mkMachine (nextMessage w batch q).1.1
       (match (nextMessage w batch q).1.2 with
        | Some ph' => [(n, ph')]
        | None => []
        end)
       st (cs0 ++ ((λ c, (n, c)) <$> (nextMessage w batch q).2))).
Proof.
  intros [Hv Hnd] Hst Hp Hn Hcalls Hacc Hbnd Hb.
  assert (∀ r m, objects q !! r = Some m →
            status m = processing → attempts r cs0 = 0) as Hidle.
  { intros r m Hm Hs. destruct (Hacc r m Hm) as (_ & _ & [Haw|H0]); [done| |done].
    destruct Haw as (? & ? & Hin & _). by apply elem_of_nil in Hin. }
  destruct batch as [|r rest]; cbn [nextMessage].
  - (* the loop is over: the final filter and the finally block *)
    cbn [fst snd fmap list_fmap]. rewrite app_nil_r.
    destruct (prune_fields q) as (Ho & Hq & Hp' & Hls).
    destruct (finishPass_fields w (prune q)) as (Ho' & Hq' & _ & Hp'' & _).
    split; cbn [queue passes started calls].
    + split; rewrite ?Ho', ?Hq', ?Ho.
      * intros r Hr. apply Hv. by eapply elem_of_sublist.
      * eapply sublist_NoDup; [exact Hnd | exact Hq].
    + by left.
    + rewrite Ho', Ho. intros r m Hm. destruct (Hacc r m Hm) as (H1 & H2 & _).
      split_and!; [done..|]. intros Hs. right. by eapply Hidle.
    + unfold finishPass. apply storedOk_save.
      * by eapply storedOk_fields.
      * cbn [objects with_isProcessing]. rewrite Ho. intros r m Hm.
        by destruct (Hacc r m Hm).
    + intros k c Hin. destruct (Hcalls k c Hin) as [Hk Hvc]. split; [done|].
      cbn [queue] in *. by rewrite Ho', Ho.
  - destruct (Hb r) as (m & Hm & Hs); [left|].
    apply NoDup_cons in Hbnd as [Hnotin Hbnd].
    rewrite mutate_lookup_eq, Hm. cbn [fmap option_fmap option_map].
    cbn [fst snd]. unfold persistCall. rewrite mutate_lookup_eq, Hm.
    cbn [fmap option_fmap option_map list_fmap].
    cbn [messageData authToken retryCount set_status].
    set (q1 := mutate (set_status processing) r q).
    destruct (mutate_frame (set_status processing) r q)
      as (Hq1 & _ & Hp1 & _ & Hls1 & Hlen1). fold q1 in Hq1, Hp1, Hls1, Hlen1.
    split; cbn [queue passes started calls].
    + split; rewrite ?Hq1, ?Hlen1; done.
    + right. eexists _, _. cbn [queue passes started].
      split_and!; [done|congruence|done|].
      split_and!.
      * by apply NoDup_cons.
      * exists (set_status processing m). unfold q1.
        by rewrite mutate_lookup_eq, Hm.
      * intros r' Hr'. unfold q1. rewrite mutate_lookup_ne; [by apply Hb; right|].
        by intros ->.
    + intros r' m'. unfold q1. rewrite mutate_lookup.
      destruct (decide (r = r')) as [<-|Hne].
      * rewrite Hm. intros [= <-]. destruct (Hacc r m Hm) as (H1 & H2 & _).
        rewrite Hs in H2. rewrite decide_True in H2 by done.
        split_and!; [done| |].
        -- cbn [calls status set_status]. rewrite attempts_snoc_same by done.
           rewrite decide_False by done. cbn [calls retryCount set_status] in *. lia.
        -- intros _. left. eexists _, _. split; [left|]. done.
      * intros Hm'. destruct (Hacc r' m' Hm') as (H1 & H2 & _).
        unfold accounted in *. cbn [calls] in *.
        rewrite attempts_snoc_other by (cbn; congruence).
        split_and!; [done..|]. intros Hs'. right. by eapply Hidle.
    + by eapply storedOk_fields.
    + intros k c [Hin|Hin%list_elem_of_singleton]%elem_of_app.
      * destruct (Hcalls k c Hin) as [Hk Hvc]. split; [done|].
        cbn [queue] in *. by rewrite Hlen1.
      * injection Hin as -> ->. split; [done|]. intros r' [= <-].
        cbn [queue]. rewrite Hlen1. by eapply lookup_lt_Some.
Qed.

Lemma attempts_updates r cs n us :
  (∀ c, c ∈ us → ∃ u, c = UpdateConversation u) →
  attempts r (cs ++ ((λ c, (n, c)) <$> us)) = attempts r cs.
Proof.
  intros Hus. rewrite attempts_app. unfold attempts at 2.
  rewrite filter_none; [cbn; lia|].
  intros [k c] (c' & [= -> ->] & Hc')%list_elem_of_fmap.
  destruct (Hus c' Hc') as [u ->]. done.
Qed.

(** A step of a suspended pass that is not inside the message loop, neither
    before nor after. *)
Lemma invariant_step_outside M n ph q1 next cs :
  invariant M → passes M = [(n, ph)] → (∀ r, ¬ awaits ph r) →
  objects q1 = objects (queue M) →
  messageQueue q1 `sublist_of` messageQueue (queue M) →
  storedOk q1 →
  match next with
  | Some ph' => isProcessing q1 = true ∧ phaseOk q1 ph' ∧ ∀ r, ¬ awaits ph' r
  | None => isProcessing q1 = false
  end →
  (∀ c, c ∈ cs → ∃ u, c = UpdateConversation u) →
  invariant
    (mkMachine q1 (match next with Some ph' => [(n, ph')] | None => [] end)
       (started M) (calls M ++ ((λ c, (n, c)) <$> cs))).
Proof.
  intros [[Hv Hnd] Hone Hacc Hst Hcalls] Hpass Hnot Ho Hq Hst1 Hnext Hcs.
  assert (n < started M) as Hn.
  { destruct Hone as [[Hnil _]|(n' & ph' & Hp' & _ & Hn' & _)]; [congruence|].
    rewrite Hpass in Hp'. by injection Hp' as -> ->. }
  split; cbn [queue passes started calls].
  - split.
    + intros r Hr. rewrite Ho. apply Hv. by eapply elem_of_sublist.
    + eapply sublist_NoDup; [exact Hnd | exact Hq].
  - destruct next as [ph'|].
    + right. exists n, ph'. cbn [queue passes started]. by destruct Hnext as (? & ? & _).
    + by left.
  - rewrite Ho. intros r m Hm. destruct (Hacc r m Hm) as (H1 & H2 & H3).
    unfold accounted. cbn [calls]. rewrite attempts_updates by done.
    split_and!; [done..|]. intros Hs. right.
    destruct (H3 Hs) as [(k & ph0 & Hin & Haw)|H0]; [|done].
    rewrite Hpass in Hin. apply list_elem_of_singleton in Hin as [= -> ->].
    by apply Hnot in Haw.
  - done.
  - intros k c [Hin|Hin]%elem_of_app.
    + destruct (Hcalls k c Hin) as [Hk Hvc]. split; [done|].
      cbn [queue]. by rewrite Ho.
    + apply list_elem_of_fmap in Hin as (c' & [= -> ->] & Hc').
      split; [done|]. destruct (Hcs c' Hc') as [u ->]. by intros r.
Qed.

Lemma nextUpdate_calls updates c :
  c ∈ (nextUpdate updates).2 → ∃ u, c = UpdateConversation u.
Proof.
  destruct updates as [|u updates]; cbn.
  - by intros ?%elem_of_nil.
  - intros ->%list_elem_of_singleton. by exists u.
Qed.

Lemma nextUpdate_phase q updates :
  phaseOk q (nextUpdate updates).1 ∧ ∀ r, ¬ awaits (nextUpdate updates).1 r.
Proof. destruct updates; cbn; split; auto. Qed.

Lemma settleUpdate_fields ok u q :
  objects (settleUpdate ok u q) = objects q
  ∧ messageQueue (settleUpdate ok u q) = messageQueue q
  ∧ isProcessing (settleUpdate ok u q) = isProcessing q
  ∧ localStorage (settleUpdate ok u q) = localStorage q.
Proof.
  unfold settleUpdate. destruct ok; [done|].
  by destruct (u_retryCount u <? maxRetries).
Qed.

Lemma invariant_finishPass_outside M n ph w :
  invariant M → passes M = [(n, ph)] → (∀ r, ¬ awaits ph r) →
  invariant (mkMachine (finishPass w (queue M)) [] (started M)
               (calls M ++ ((λ c, (n, c)) <$> []))).
Proof.
  intros HI Hpass Hnot.
  destruct (finishPass_fields w (queue M)) as (Ho & Hq & _ & Hp & _).
  apply (invariant_step_outside M n ph _ None []); try done.
  - by rewrite Hq.
  - unfold finishPass. apply storedOk_save; [apply HI|].
    intros r m. by apply invariant_retryCount.
  - by intros c ?%elem_of_nil.
Qed.

Lemma accounted_idle M n ph r m q' :
  passes M = [(n, ph)] → ¬ awaits ph r →
  accounted M r m →
  accounted (mkMachine q' [] (started M) (calls M)) r m.
Proof.
  intros Hpass Hnot (H1 & H2 & H3). split_and!; [done..|].
  intros Hs. right. destruct (H3 Hs) as [(k & ph0 & Hin & Haw)|H0]; [|done].
  rewrite Hpass in Hin. by apply list_elem_of_singleton in Hin as [= -> ->].
Qed.

Lemma settle_accounted M n r md rest m success q' :
  passes M = [(n, AwaitPersistMessage r md rest)] →
  status m = processing →
  accounted M r m →
  accounted (mkMachine q' [] (started M) (calls M)) r (settle success m).
Proof.
  intros Hpass Hs (H1 & H2 & _). unfold accounted. cbn [calls].
  rewrite Hs in H2. rewrite decide_False in H2 by done.
  split_and!.
  - by apply settle_retryCount_le.
  - unfold settle. destruct success; cbn [retryCount status set_status].
    + by rewrite decide_False.
    + destruct (Nat.ltb_spec (retryCount m) maxRetries);
        cbn [retryCount status set_status set_retryCount].
      * rewrite decide_True by done. lia.
      * by rewrite decide_False.
  - rewrite settle_status. destruct success; [done|].
    by destruct (retryCount m <? maxRetries).
Qed.

Lemma invariant_settlePass i ok w M :
  invariant M → invariant (settlePass i ok w M).
Proof.
  intros HI. unfold settlePass.
  destruct (passes M !! i) as [[n ph]|] eqn:Hi; [|done].
  pose proof HI as [Hwf Hone Hacc Hst Hcalls].
  destruct Hone as [[Hnil _]|(n' & ph' & Hpass & Hp & Hn & Hph)];
    [by rewrite Hnil in Hi|].
  rewrite Hpass in Hi. destruct i as [|i]; [|done].
  injection Hi as -> ->. rewrite Hpass.
  destruct (resume ok w ph (queue M)) as [[q1 next] cs] eqn:Hres.
  assert (match next with
          | Some ph' => <[0:=(n, ph')]> [(n, ph)]
          | None => delete 0 [(n, ph)]
          end
          = match next with Some ph' => [(n, ph')] | None => [] end) as ->
    by by destruct next.
  destruct ph as [|u rest| |r md rest]; cbn [resume] in Hres.
  - destruct ok.
    + unfold spliceUpdates in Hres.
      destruct (nextUpdate _) as [ph' cs'] eqn:Hnext.
      injection Hres as <- <- <-.
      apply (invariant_step_outside M n AwaitImportConversationManager
               _ (Some ph') cs'); try done; try (by intros ? ?).
      * pose proof (nextUpdate_phase
          (with_conversationQueue (queue M)
             (drop batchSize (conversationQueue (queue M))))
          (take batchSize (conversationQueue (queue M)))) as Hph'.
        rewrite Hnext in Hph'. by split.
      * intros c Hc. apply (nextUpdate_calls
          (take batchSize (conversationQueue (queue M)))). by rewrite Hnext.
    + injection Hres as <- <- <-.
      apply (invariant_finishPass_outside M n AwaitImportConversationManager);
        try done; by intros ? ?.
  - destruct (nextUpdate rest) as [ph' cs'] eqn:Hnext.
    injection Hres as <- <- <-.
    destruct (settleUpdate_fields ok u (queue M)) as (Ho & Hq & Hp' & Hls).
    apply (invariant_step_outside M n (AwaitUpdateConversation u rest)
             _ (Some ph') cs'); try done; try (by intros ? ?).
    + by rewrite Hq.
    + by eapply storedOk_fields.
    + pose proof (nextUpdate_phase (settleUpdate ok u (queue M)) rest) as Hph'.
      rewrite Hnext in Hph'. split; [congruence|done].
    + intros c Hc. apply (nextUpdate_calls rest). by rewrite Hnext.
  - destruct ok.
    + pose proof (invariant_nextMessage n w (selectPending (queue M)) (queue M)
                    (started M) (calls M)) as H.
      rewrite Hres in H. cbn [fst snd] in H. apply H; clear H; try done.
      * intros r m Hm.
        by apply (accounted_idle M n AwaitImportMessagePersistence); auto.
      * apply selectPending_NoDup, Hwf.
      * intros r Hr. by apply selectPending_spec in Hr as [_ ?].
    + injection Hres as <- <- <-.
      apply (invariant_finishPass_outside M n AwaitImportMessagePersistence);
        try done; by intros ? ?.
  - destruct Hph as (Hnd & (m & Hm & Hs & Hmd) & Hrest).
    apply NoDup_cons in Hnd as [Hnotin Hnd].
    set (q' := mutate (settle (persistMessage md ok)) r (queue M)) in *.
    destruct (mutate_frame (settle (persistMessage md ok)) r (queue M))
      as (Hq & _ & Hp' & _ & Hls & Hlen). fold q' in Hq, Hp', Hls, Hlen.
    pose proof (invariant_nextMessage n w rest q' (started M) (calls M)) as H.
    rewrite Hres in H. cbn [fst snd] in H. apply H; clear H.
    + destruct Hwf as [Hv Hnd']. split; rewrite ?Hq, ?Hlen; done.
    + by eapply storedOk_fields.
    + congruence.
    + done.
    + intros k c Hin. destruct (Hcalls k c Hin) as [Hk Hvc]. split; [done|].
      cbn [queue]. by rewrite Hlen.
    + intros r' m'. unfold q'. rewrite mutate_lookup.
      destruct (decide (r = r')) as [<-|Hne].
      * rewrite Hm. intros [= <-]. by eapply settle_accounted; eauto.
      * intros Hm'. eapply accounted_idle; eauto.
    + done.
    + intros r' Hr'. unfold q'. rewrite mutate_lookup_ne; [by apply Hrest|].
      by intros ->.
Qed.

Lemma invariant_handle e M : invariant M → invariant (handle e M).
Proof.
  intros HI. destruct e; cbn [handle].
  - by apply invariant_queueMessage.
  - by apply invariant_queueConversationUpdate.
  - by apply invariant_tick.
  - by apply invariant_processQueue, invariant_with_isOnline.
  - by apply invariant_with_isOnline.
  - by apply invariant_updateAuthTokens.
  - by apply invariant_processQueue.
  - by apply invariant_clearFailedMessages.
  - by apply invariant_settlePass.
  - by apply invariant_reload.
Qed.

Lemma reachable_invariant M : reachable M → invariant M.
Proof.
  induction 1; [apply invariant_boot | by apply invariant_handle].
Qed.

Lemma reachable_run es M : reachable M → reachable (run es M).
Proof.
  revert M. induction es as [|e es IH]; intros M HM; [done|].
  apply IH. by apply reachable_handle.
Qed.

Lemma demoMachine_reachable : reachable demoMachine.
Proof.
  apply (reachable_handle (QueueMessage "m1" 1000 true (demoData 1) "tok" medium)).
  apply reachable_boot.
Qed.

Lemma demoRefused_reachable : reachable demoRefused.
Proof. apply reachable_run, demoMachine_reachable. Qed.

(** ** The retry ceiling *)

Lemma attempt_cases ok m :
  attempt ok m
  = if persistMessage (messageData m) ok then set_status completed m
    else if retryCount m <? maxRetries
         then mkQueuedMessage (id m) (messageData m) (authToken m) (timestamp m)
                (S (retryCount m)) (priority m) pending
         else set_status failed m.
Proof.
  unfold attempt, settle. cbn [messageData set_status retryCount].
  destruct (persistMessage (messageData m) ok); [done|].
  by destruct (retryCount m <? maxRetries).
Qed.

Lemma retries_terminal oks m :
  status m ≠ pending → retries oks m = m.
Proof.
  intros Hs. induction oks as [|ok oks IH]; [done|].
  unfold retries in *. cbn [foldl]. unfold hasStatus at 2.
  by rewrite bool_decide_eq_false_2.
Qed.

Lemma retries_bound oks m :
  status m = pending → retryCount m ≤ maxRetries →
  retryCount (retries oks m) ≤ maxRetries
  ∧ (S maxRetries - retryCount m ≤ length oks →
     status (retries oks m) = completed ∨ status (retries oks m) = failed).
Proof.
  revert m. induction oks as [|ok oks IH]; intros m Hs Hrc.
  - split; [done|]. cbn [length]. unfold maxRetries in *. lia.
  - change (retries (ok :: oks) m)
      with (retries oks (if hasStatus pending m then attempt ok m else m)).
    unfold hasStatus. rewrite bool_decide_eq_true_2 by done.
    rewrite attempt_cases.
    destruct (persistMessage (messageData m) ok).
    { rewrite retries_terminal by done. split; [done|]. intros _. by left. }
    destruct (Nat.ltb_spec (retryCount m) maxRetries) as [Hlt|Hge].
    + destruct (IH (mkQueuedMessage (id m) (messageData m) (authToken m)
                      (timestamp m) (S (retryCount m)) (priority m) pending))
        as [H1 H2]; [done|cbn; lia|].
      split; [done|]. intros Hlen. apply H2. cbn [retryCount length] in *. lia.
    + rewrite retries_terminal by done. split; [done|]. intros _. by right.
Qed.

(** C1: a failed attempt on a message whose retry count is below 3 puts it
    back to [pending] with the count incremented, one on a message whose
    count has reached 3 makes it [failed], a successful one makes it
    [completed]; a queued message is therefore [completed] or [failed]
    after at most 4 attempts, with a retry count of at most 3; and on every
    page that started with nothing stored, whatever the handlers that ran
    and however they interleaved, every message object has a retry count of
    at most 3, has been attempted at most 4 times, at most 3 times while it
    is [pending], and after 4 attempts is [completed] or [failed] once the
    last answer has arrived. *)
Theorem retry_ceiling :
  (∀ ok m,
     attempt ok m
     = if persistMessage (messageData m) ok then set_status completed m
       else if retryCount m <? maxRetries
            then mkQueuedMessage (id m) (messageData m) (authToken m)
                   (timestamp m) (S (retryCount m)) (priority m) pending
            else set_status failed m)
  ∧ (∀ oks m,
       status m = pending → retryCount m = 0 → 4 ≤ length oks →
       (status (retries oks m) = completed ∨ status (retries oks m) = failed)
       ∧ retryCount (retries oks m) ≤ 3)
  ∧ (∀ M r m,
       reachable M → objects (queue M) !! r = Some m →
       retryCount m ≤ 3
       ∧ attempts r (calls M) ≤ 4
       ∧ (status m = pending → attempts r (calls M) ≤ 3)
       ∧ (attempts r (calls M) = 4 → ¬ awaited M r →
          status m = completed ∨ status m = failed)).
Proof.
  split_and!.
  - apply attempt_cases.
  - intros oks m Hs Hrc Hlen.
    destruct (retries_bound oks m Hs) as [H1 H2];
      [unfold maxRetries; lia|].
    split; [|done]. apply H2. unfold maxRetries. lia.
  - intros M r m HM Hm.
    destruct (inv_accounted M (reachable_invariant M HM) r m Hm)
      as (H1 & H2 & H3).
    unfold maxRetries in *.
    destruct (decide (status m = pending)) as [Hs|Hs].
    + split_and!; [lia..| |]; intros; [lia|lia].
    + split_and!; [lia|lia|done|].
      intros H4 Hnot. destruct (status m) eqn:E; try done; auto.
      destruct H3 as [Haw|H0]; [done|done|lia].
Qed.

Lemma retry_ceiling_witness :
  (status (retries [false; false; false; false]
             (mkQueuedMessage "m1" (demoData 1) "tok" 1000 0 medium pending))
   = completed
   ∨ status (retries [false; false; false; false]
               (mkQueuedMessage "m1" (demoData 1) "tok" 1000 0 medium pending))
     = failed)
  ∧ attempts 0 (calls demoRefused) ≤ 3.
Proof.
  destruct retry_ceiling as (_ & Hlife & Hpage).
  split.
  - apply (Hlife [false; false; false; false]
             (mkQueuedMessage "m1" (demoData 1) "tok" 1000 0 medium pending));
      [reflexivity | reflexivity | cbn; lia].
  - apply (Hpage demoRefused 0
             (mkQueuedMessage "m1" (demoData 1) "tok" 1000 1 medium pending));
      [apply demoRefused_reachable | reflexivity | reflexivity].
Defined.

(** ** One pass at a time *)

Lemma settlePass_end i ok w M :
  invariant M →
  length (passes (settlePass i ok w M)) < length (passes M) →
  isProcessing (queue (settlePass i ok w M)) = false.
Proof.
  intros HI Hlen.
  pose proof (inv_onePass _ (invariant_settlePass i ok w M HI)) as Hone'.
  pose proof (inv_onePass _ HI) as Hone.
  destruct Hone' as [[_ Hp]|(n & ph & Hpass' & _)]; [done|].
  destruct Hone as [[Hnil _]|(n0 & ph0 & Hpass & _)].
  - rewrite Hnil in Hlen. cbn in Hlen. lia.
  - rewrite Hpass, Hpass' in Hlen. cbn in Hlen. lia.
Qed.

(** C2: a call of [processQueue] made while the busy flag is set or while
    offline changes nothing; on every page that started with nothing
    stored, whatever ran and however it interleaved, at most one execution
    of [processQueue] is suspended, and the busy flag is set exactly while
    one is; whenever an execution ends the flag is cleared, in particular
    when one of its two imports fails (the only ways it can throw); and no
    message is awaited by two executions. *)
Theorem processQueue_never_overlaps :
  (∀ M, isProcessing (queue M) = true ∨ isOnline (queue M) = false →
        processQueue M = M)
  ∧ (∀ M, reachable M →
       length (passes M) ≤ 1
       ∧ (isProcessing (queue M) = true ↔ passes M ≠ []))
  ∧ (∀ M i ok w, reachable M →
       length (passes (settlePass i ok w M)) < length (passes M) →
       isProcessing (queue (settlePass i ok w M)) = false)
  ∧ (∀ M n ph w,
       passes M = [(n, ph)] →
       ph = AwaitImportConversationManager
       ∨ ph = AwaitImportMessagePersistence →
       passes (settlePass 0 false w M) = []
       ∧ isProcessing (queue (settlePass 0 false w M)) = false)
  ∧ (∀ M r i j n n' ph ph', reachable M →
       passes M !! i = Some (n, ph) → passes M !! j = Some (n', ph') →
       awaits ph r → awaits ph' r → i = j).
Proof.
  split_and!.
  - intros M Hg. unfold processQueue.
    destruct Hg as [-> | ->]; [done|]. by rewrite orb_true_r.
  - intros M HM.
    destruct (inv_onePass _ (reachable_invariant M HM))
      as [[-> ->]|(n & ph & -> & -> & _)]; cbn; split; [lia| |lia|]; split;
      done.
  - intros M i ok w HM. by apply settlePass_end, reachable_invariant.
  - intros M n ph w Hpass Hph. unfold settlePass. rewrite Hpass. cbn [lookup list_lookup].
    destruct Hph as [-> | ->]; cbn [resume queue passes delete list_delete];
      by destruct (finishPass_fields w (queue M)) as (_ & _ & _ & -> & _).
  - intros M r i j n n' ph ph' HM Hi Hj _ _.
    destruct (inv_onePass _ (reachable_invariant M HM))
      as [[Hnil _]|(n0 & ph0 & Hpass & _)].
    + by rewrite Hnil in Hi.
    + rewrite Hpass in Hi, Hj.
      destruct i as [|i], j as [|j]; done.
Qed.

Lemma processQueue_never_overlaps_witness :
  processQueue demoMachine = demoMachine
  ∧ length (passes demoMachine) ≤ 1
  ∧ isProcessing
      (queue (settlePass 0 false true demoMachine)) = false.
Proof.
  destruct processQueue_never_overlaps as (Hnoop & Hone & _ & Hthrow & _).
  split_and!.
  - apply Hnoop. left. reflexivity.
  - apply Hone, demoMachine_reachable.
  - apply (Hthrow demoMachine 0 AwaitImportConversationManager true);
      [reflexivity | left; reflexivity].
Defined.

(** ** A message left [processing] *)

Lemma elem_of_insert_inv {A} (l : list A) i x y :
  y ∈ <[i:=x]> l → y = x ∨ y ∈ l.
Proof.
  intros (j & Hj)%list_elem_of_lookup.
  apply list_lookup_insert_Some in Hj as [(-> & -> & _)|[_ Hj]]; [by left|].
  right. by eapply list_elem_of_lookup_2.
Qed.

Lemma survives_processing m : status m = processing → survives m = true.
Proof. unfold survives, hasStatus. by intros ->. Qed.

(** Entering the next iteration, or leaving the loop, does not concern an
    object outside the batch. *)
Lemma nextMessage_other w batch q r :
  r ∉ batch →
  objects (nextMessage w batch q).1.1 !! r = objects q !! r
  ∧ (r ∈ messageQueue q → test survives q r = true →
     r ∈ messageQueue (nextMessage w batch q).1.1)
  ∧ (∀ ph, (nextMessage w batch q).1.2 = Some ph →
       ¬ awaits ph r ∧ r ∉ remaining ph)
  ∧ (∀ c, c ∈ (nextMessage w batch q).2 → target c ≠ inr r).
Proof.
  revert q. induction batch as [|r0 rest IH]; intros q Hr; cbn [nextMessage].
  - cbn [fst snd].
    destruct (finishPass_fields w (prune q)) as (-> & -> & _).
    split_and!; [done| |done|by intros c ?%elem_of_nil].
    intros Hin Hs. unfold prune. cbn [messageQueue with_messageQueue].
    apply list_elem_of_filter. split; [by apply Is_true_true|done].
  - apply not_elem_of_cons in Hr as [Hne Hr].
    set (q1 := mutate (set_status processing) r0 q).
    assert (objects q1 !! r = objects q !! r) as Ho
      by (unfold q1; by rewrite mutate_lookup_ne).
    destruct (objects q1 !! r0) as [m|] eqn:Hm.
    + cbn [fst snd]. split_and!; [done|done| |].
      * intros ph [= <-]. cbn. split; [congruence|done].
      * unfold persistCall. rewrite Hm.
        intros c ->%list_elem_of_singleton. cbn. congruence.
    + destruct (IH q1 Hr) as (H1 & H2 & H3 & H4).
      split_and!; [by rewrite H1| |done|done].
      intros Hin Hs. apply H2; [done|]. unfold test. by rewrite Ho.
Qed.

Lemma attempts_other r cs n cs' :
  (∀ c, c ∈ cs' → target c ≠ inr r) →
  attempts r (cs ++ ((λ c, (n, c)) <$> cs')) = attempts r cs.
Proof.
  intros Hcs. rewrite attempts_app. unfold attempts at 2.
  rewrite filter_none; [cbn; lia|].
  intros [k c] (c' & [= -> ->] & Hc')%list_elem_of_fmap. by apply Hcs.
Qed.

Lemma stuck_processQueue r m0 M :
  stuck r m0 M → stuck r m0 (processQueue M)
  ∧ calls (processQueue M) = calls M.
Proof.
  intros (Hin & Hm & Hp). unfold processQueue.
  destruct (isProcessing (queue M) || negb (isOnline (queue M))); [done|].
  split; [|done]. split_and!; [done..|].
  cbn [passes]. intros n ph [Hold|[= -> ->]%list_elem_of_singleton]%elem_of_app.
  - by apply (Hp n ph).
  - split; [by intros ?|apply not_elem_of_nil].
Qed.

(** A handler that keeps the message list up to the surviving references
    and the objects up to their tokens. *)
Lemma stuck_with_queue r m0 M q' :
  status m0 = processing →
  stuck r m0 M →
  (r ∈ messageQueue (queue M) → r ∈ messageQueue q') →
  (∀ m, objects (queue M) !! r = Some m →
        ∃ m', objects q' !! r = Some m' ∧ retokened m m') →
  stuck r m0 (with_queue M q').
Proof.
  intros Hs (Hin & (m & Hm & Hr) & Hp) Hq Ho.
  split_and!; [by apply Hq| |done].
  destruct (Ho m Hm) as (m' & Hm' & Hr'). exists m'. split; [done|].
  by eapply retokened_trans.
Qed.

Lemma enqueue_fields gid now w md token prio q :
  objects (enqueue gid now w md token prio q)
  = objects q ++ [mkQueuedMessage gid md token now 0 prio pending]
  ∧ messageQueue (enqueue gid now w md token prio q)
    = (if decide (prio = high)
       then length (objects q) :: messageQueue q
       else messageQueue q ++ [length (objects q)])
  ∧ conversationQueue (enqueue gid now w md token prio q) = conversationQueue q
  ∧ isProcessing (enqueue gid now w md token prio q) = isProcessing q
  ∧ isOnline (enqueue gid now w md token prio q) = isOnline q.
Proof.
  unfold enqueue. cbn zeta.
  set (q2 := if decide (prio = high) then _ else _).
  destruct (saveToStorage_fields w q2) as (-> & -> & -> & -> & ->).
  unfold q2. by destruct (decide (prio = high)).
Qed.

(** A step of a suspended pass does not concern a [processing] object that
    the pass neither awaits nor has in its batch. *)
Lemma resume_other ok w ph q r m :
  objects q !! r = Some m → status m = processing →
  ¬ awaits ph r → r ∉ remaining ph →
  objects (resume ok w ph q).1.1 !! r = Some m
  ∧ (r ∈ messageQueue q → r ∈ messageQueue (resume ok w ph q).1.1)
  ∧ (∀ ph', (resume ok w ph q).1.2 = Some ph' →
       ¬ awaits ph' r ∧ r ∉ remaining ph')
  ∧ (∀ c, c ∈ (resume ok w ph q).2 → target c ≠ inr r).
Proof.
  intros Hm Hs Haw Hrem.
  assert (test survives q r = true) as Hsv.
  { unfold test. rewrite Hm. by apply survives_processing. }
  assert (objects (finishPass w q) !! r = Some m
          ∧ (r ∈ messageQueue q → r ∈ messageQueue (finishPass w q))
          ∧ (∀ ph', @None Phase = Some ph' → ¬ awaits ph' r ∧ r ∉ remaining ph')
          ∧ (∀ c, c ∈ @nil RemoteCall → target c ≠ inr r)) as Hfin.
  { destruct (finishPass_fields w q) as (-> & -> & _).
    split_and!; [done..|]. by intros c ?%elem_of_nil. }
  assert (∀ updates ph', (nextUpdate updates).1 = ph' →
            ¬ awaits ph' r ∧ r ∉ remaining ph') as Hupd.
  { intros updates ph' <-.
    destruct updates; cbn; (split; [by intros ?|apply not_elem_of_nil]). }
  destruct ph as [|u rest| |r0 md rest]; cbn [resume].
  - destruct ok; [|done]. unfold spliceUpdates.
    destruct (nextUpdate _) as [ph' cs'] eqn:Hnext. cbn [fst snd].
    split_and!; [done|done| |].
    + intros ? [= <-]. eapply Hupd. by rewrite Hnext.
    + intros c Hc. destruct (nextUpdate_calls
        (take batchSize (conversationQueue q)) c) as [u ->];
        [by rewrite Hnext|done].
  - destruct (nextUpdate rest) as [ph' cs'] eqn:Hnext. cbn [fst snd].
    destruct (settleUpdate_fields ok u q) as (-> & -> & _).
    split_and!; [done|done| |].
    + intros ? [= <-]. eapply Hupd. by rewrite Hnext.
    + intros c Hc. destruct (nextUpdate_calls rest c) as [u' ->];
        [by rewrite Hnext|done].
  - destruct ok; [|done].
    assert (r ∉ selectPending q) as Hsel.
    { intros (_ & m' & Hm' & Hs')%selectPending_spec. congruence. }
    destruct (nextMessage_other w (selectPending q) q r Hsel)
      as (H1 & H2 & H3 & H4).
    split_and!; [by rewrite H1|auto|done|done].
  - cbn in Haw, Hrem.
    set (q' := mutate (settle (persistMessage md ok)) r0 q).
    assert (objects q' !! r = Some m) as Hm'
      by (unfold q'; by rewrite mutate_lookup_ne).
    destruct (nextMessage_other w rest q' r Hrem) as (H1 & H2 & H3 & H4).
    split_and!; [by rewrite H1| |done|done].
    intros Hin. apply H2; [done|]. unfold test. rewrite Hm'.
    by apply survives_processing.
Qed.

Lemma stuck_settlePass r m0 i ok w M :
  status m0 = processing →
  stuck r m0 M →
  stuck r m0 (settlePass i ok w M)
  ∧ attempts r (calls (settlePass i ok w M)) = attempts r (calls M).
Proof.
  intros Hs0 Hst. pose proof Hst as (Hin & (m & Hm & Hr) & Hp).
  assert (status m = processing) as Hs.
  { apply retokened_fields in Hr as (_ & _ & _ & _ & _ & ->). done. }
  unfold settlePass.
  destruct (passes M !! i) as [[n ph]|] eqn:Hi; [|done].
  destruct (Hp n ph (list_elem_of_lookup_2 _ _ _ Hi)) as [Haw Hrem].
  destruct (resume_other ok w ph (queue M) r m Hm Hs Haw Hrem)
    as (H1 & H2 & H3 & H4).
  destruct (resume ok w ph (queue M)) as [[q1 next] cs]. cbn [fst snd] in *.
  cbn [calls]. split; [|by apply attempts_other].
  split_and!; cbn [queue passes]; [auto|by exists m|].
  intros k p Hkp. destruct next as [ph'|].
  - apply elem_of_insert_inv in Hkp as [[= -> ->]|Hkp]; [by apply H3|].
    by apply (Hp k p).
  - apply list_elem_of_delete_inv in Hkp. by apply (Hp k p).
Qed.

Lemma stuck_handle r m0 e M :
  status m0 = processing → isReload e = false →
  stuck r m0 M →
  stuck r m0 (handle e M) ∧ attempts r (calls (handle e M)) = attempts r (calls M).
Proof.
  intros Hs He Hst. pose proof Hst as (Hin & (m & Hm & Hr) & Hp).
  assert (status m = processing) as Hsm.
  { apply retokened_fields in Hr as (_ & _ & _ & _ & _ & ->). done. }
  destruct e; cbn [handle]; [| | | | | | | | |done].
  - unfold queueMessage. cbn zeta.
    destruct (enqueue_fields gid now w md token prio (queue M))
      as (Ho & Hq & _).
    assert (stuck r m0 (with_queue M (enqueue gid now w md token prio (queue M))))
      as Hst'.
    { apply stuck_with_queue; [done..| |].
      - intros _. rewrite Hq. destruct (decide (prio = high)).
        + by right.
        + apply elem_of_app. by left.
      - intros m' Hm'. exists m'. rewrite Ho.
        split; [by apply lookup_app_l_Some|apply retokened_refl]. }
    destruct (isOnline _ && negb _); [|done].
    destruct (stuck_processQueue _ _ _ Hst') as [? ->]. done.
  - split; [|done]. unfold queueConversationUpdate.
    set (q1 := with_conversationQueue _ _).
    destruct (saveToStorage_fields w q1) as (Ho & Hq & _).
    apply stuck_with_queue; [done..|by rewrite Hq|].
    intros m' Hm'. exists m'. rewrite Ho. split; [done|apply retokened_refl].
  - unfold tick. destruct (_ && _); [|done].
    destruct (stuck_processQueue _ _ _ Hst) as [? ->]. done.
  - assert (stuck r m0 (with_queue M (with_isOnline (queue M) true))) as Hst'.
    { apply stuck_with_queue; [done..|].
      intros m' Hm'. exists m'. split; [done|apply retokened_refl]. }
    destruct (stuck_processQueue _ _ _ Hst') as [? ->]. done.
  - split; [|done]. apply stuck_with_queue; [done..|].
    intros m' Hm'. exists m'. split; [done|apply retokened_refl].
  - unfold updateAuthTokens.
    destruct (rewriteTokens_fields w oldToken newToken (queue M))
      as (Hobj & Hq & _).
    destruct (rewriteTokens w oldToken newToken (queue M)) as [k q1].
    cbn [snd] in *.
    assert (stuck r m0 (with_queue M q1)) as Hst'.
    { apply stuck_with_queue; [done..|by rewrite Hq|].
      intros m' Hm'. by apply (Forall2_lookup_l _ _ _ _ _ Hobj Hm'). }
    destruct (_ && _); [|done].
    destruct (stuck_processQueue _ _ _ Hst') as [? ->]. done.
  - destruct (stuck_processQueue _ _ _ Hst) as [? ->]. done.
  - split; [|done]. unfold clearFailedMessages. cbn [snd].
    set (q1 := with_messageQueue _ _).
    destruct (saveToStorage_fields w q1) as (Ho & Hq & _).
    apply stuck_with_queue; [done..| |].
    + intros _. rewrite Hq. unfold q1. cbn [messageQueue with_messageQueue].
      apply list_elem_of_filter. split; [|done].
      apply Is_true_true. unfold test, hasStatus. rewrite Hm. cbn.
      rewrite Hsm. done.
    + intros m' Hm'. exists m'. rewrite Ho. split; [done|apply retokened_refl].
  - by apply stuck_settlePass.
Qed.

Lemma elem_of_persistedRefs r cs :
  r ∈ persistedRefs cs ↔ inr r ∈ target <$> cs.
Proof.
  unfold persistedRefs. rewrite list_elem_of_omap, list_elem_of_fmap.
  split.
  - intros (c & Hc & Hr). exists c. split; [|done].
    destruct c; [done|]. by injection Hr as ->.
  - intros (c & Hr & Hc). exists c. split; [done|].
    destruct c; [done|]. cbn in Hr. by injection Hr as ->.
Qed.

Lemma drainPass_persisted env q r :
  r ∈ persistedRefs (drainPass env q).2 → r ∈ selectPending q.
Proof.
  destruct (isProcessing q || negb (isOnline q)) eqn:Hg.
  { rewrite drainPass_guarded by done. by intros ?%elem_of_nil. }
  apply orb_false_elim in Hg as [Hp Ho]. apply negb_false_iff in Ho.
  rewrite elem_of_persistedRefs, drainPass_targets by done.
  intros [Hin|Hin]%elem_of_app.
  - destruct (importConversationManager env); [|by apply elem_of_nil in Hin].
    by apply list_elem_of_fmap in Hin as (? & ? & _).
  - destruct (_ && _); [|by apply elem_of_nil in Hin].
    by apply list_elem_of_fmap in Hin as (? & [= ->] & ?).
Qed.

Lemma drainPass_keeps env q r :
  r ∈ messageQueue q → r ∉ selectPending q → test survives q r = true →
  r ∈ messageQueue (drainPass env q).1.
Proof.
  intros Hin Hsel Hsv.
  destruct (isProcessing q || negb (isOnline q)) eqn:Hg;
    [by rewrite drainPass_guarded|].
  apply orb_false_elim in Hg as [Hp Ho]. apply negb_false_iff in Ho.
  rewrite drainPass_run by done. cbn zeta.
  destruct (importConversationManager env); cbn [fst];
    [|by destruct (finishPass_fields (setItemOk env) (with_isProcessing q true))
         as (_ & -> & _)].
  set (q1 := with_conversationQueue _ _).
  destruct (importMessagePersistence env); cbn [fst];
    [|by destruct (finishPass_fields (setItemOk env) q1) as (_ & -> & _)].
  destruct (finishPass_fields (setItemOk env)
      (prune (persistLoop (responseOk env) 0 (selectPending q) q1).1))
      as (_ & -> & _).
  unfold prune. cbn [messageQueue with_messageQueue].
  destruct (persistLoop_frame (responseOk env) 0 (selectPending q) q1)
    as (-> & _).
  apply list_elem_of_filter. split; [|done]. apply Is_true_true.
  unfold test. by rewrite persistLoop_other.
Qed.

Lemma hasQueuedItems_spec q :
  hasQueuedItems q = true
  ↔ (∃ r m, r ∈ messageQueue q ∧ objects q !! r = Some m ∧ status m = pending)
    ∨ conversationQueue q ≠ [].
Proof.
  unfold hasQueuedItems. rewrite orb_true_iff, existsb_exists.
  rewrite bool_decide_eq_true.
  split; intros [H|H].
  - left. destruct H as (r & Hin & Ht). apply test_true in Ht as (m & Hm & Hs).
    exists r, m. split_and!; [by apply list_elem_of_In|done|].
    unfold hasStatus in Hs. by apply bool_decide_eq_true in Hs.
  - right. intros Hnil. rewrite Hnil in H. cbn in H. lia.
  - left. destruct H as (r & m & Hin & Hm & Hs). exists r.
    split; [by apply list_elem_of_In|]. apply test_true. exists m.
    split; [done|]. unfold hasStatus. by apply bool_decide_eq_true.
  - right. destruct (conversationQueue q); [done|]. cbn. lia.
Qed.

Lemma stuck_run r m0 es M :
  status m0 = processing → forallb (λ e, negb (isReload e)) es = true →
  stuck r m0 M →
  stuck r m0 (run es M) ∧ attempts r (calls (run es M)) = attempts r (calls M).
Proof.
  intros Hs. revert M. induction es as [|e es IH]; intros M Hes Hst; [done|].
  cbn in Hes. apply andb_true_iff in Hes as [He Hes].
  apply negb_true_iff in He.
  destruct (stuck_handle r m0 e M Hs He Hst) as [Hst' Ha].
  destruct (IH (handle e M) Hes Hst') as [Hst'' Ha'].
  split; [done|]. cbn [run foldl]. unfold run in Ha'. congruence.
Qed.

(** ** Head insertion and the order of a pass *)

Lemma ordered_sublist h m l l' :
  l' `sublist_of` l → ordered h m l → ordered h m l'.
Proof.
  intros Hsub Hord l1 l2 ->.
  apply sublist_app_l in Hsub as (k1 & k2 & -> & _ & Hsub).
  apply sublist_cons_l in Hsub as (k21 & k22 & -> & Hsub).
  intros Hin. eapply (Hord (k1 ++ k21) k22); [by rewrite <- app_assoc|].
  by eapply elem_of_sublist.
Qed.

Lemma ordered_absent h m l : h ∉ l → ordered h m l.
Proof.
  intros Hh l1 l2 -> Hin. apply Hh. apply elem_of_app. right. by right.
Qed.

Lemma ordered_cons h m x l : x ≠ m → ordered h m l → ordered h m (x :: l).
Proof.
  intros Hx Hord l1 l2 Heq. destruct l1 as [|y l1]; cbn in Heq.
  - by injection Heq as -> _.
  - injection Heq as -> ->. by eapply Hord.
Qed.

Lemma ordered_snoc h m x l : x ≠ h → ordered h m l → ordered h m (l ++ [x]).
Proof.
  intros Hx Hord l1 l2 Heq.
  destruct l2 as [|y l2 _] using rev_ind.
  - apply not_elem_of_nil.
  - rewrite app_comm_cons, app_assoc in Heq.
    apply app_inj_tail in Heq as [-> ->].
    intros [Hin| ->%list_elem_of_singleton]%elem_of_app; [|done].
    by eapply Hord.
Qed.

Lemma persistedRefs_app cs cs' :
  persistedRefs (cs ++ cs') = persistedRefs cs ++ persistedRefs cs'.
Proof. unfold persistedRefs. apply omap_app. Qed.

Lemma persistedIn_app n cs k cs' :
  persistedIn n (cs ++ ((λ c, (k, c)) <$> cs'))
  = persistedIn n cs ++ (if decide (k = n) then persistedRefs cs' else []).
Proof.
  unfold persistedIn. rewrite filter_app, fmap_app, persistedRefs_app. f_equal.
  destruct (decide (k = n)) as [->|Hne].
  - f_equal. induction cs' as [|c cs' IH]; [done|].
    cbn [fmap list_fmap]. rewrite filter_cons_True by done.
    cbn [fmap list_fmap snd]. by f_equal.
  - rewrite filter_none; [done|].
    intros [k' c] (c' & [= -> ->] & _)%list_elem_of_fmap. done.
Qed.

Lemma persistedIn_fresh M n :
  callsOk M → started M ≤ n → persistedIn n (calls M) = [].
Proof.
  intros Hc Hn. unfold persistedIn. rewrite filter_none; [done|].
  intros [k c] Hin Hk. cbn in Hk. subst k.
  destruct (Hc n c Hin) as [Hlt _]. lia.
Qed.

Lemma persistedIn_valid M n r :
  callsOk M → r ∈ persistedIn n (calls M) → r < length (objects (queue M)).
Proof.
  intros Hc. unfold persistedIn. rewrite elem_of_persistedRefs.
  intros (c & Ht & Hin)%list_elem_of_fmap.
  apply list_elem_of_fmap in Hin as ([k c'] & -> & Hin).
  apply list_elem_of_filter in Hin as [_ Hin].
  destruct (Hc k c' Hin) as [_ Hv]. by apply Hv.
Qed.

(** What a step of a suspended pass sends and keeps for later. *)
Lemma nextMessage_refs w batch q :
  persistedRefs (nextMessage w batch q).2
    ++ from_option remaining [] (nextMessage w batch q).1.2
    `sublist_of` batch
  ∧ messageQueue (nextMessage w batch q).1.1 `sublist_of` messageQueue q
  ∧ length (objects (nextMessage w batch q).1.1) = length (objects q)
  ∧ (∀ ph', (nextMessage w batch q).1.2 = Some ph' → ∃ r, awaits ph' r).
Proof.
  revert q. induction batch as [|r rest IH]; intros q; cbn [nextMessage].
  - cbn [fst snd]. destruct (finishPass_fields w (prune q)) as (-> & -> & _).
    destruct (prune_fields q) as (-> & ? & _). by split_and!.
  - set (q1 := mutate (set_status processing) r q).
    destruct (mutate_frame (set_status processing) r q)
      as (Hq & _ & _ & _ & _ & Hlen). fold q1 in Hq, Hlen.
    destruct (objects q1 !! r) as [m|] eqn:Hm.
    + cbn [fst snd from_option remaining]. unfold persistCall. rewrite Hm.
      split_and!; [done|by rewrite Hq|done|].
      intros ph' [= <-]. by exists r.
    + destruct (IH q1) as (H1 & H2 & H3 & H4).
      split_and!; [by apply sublist_cons|by rewrite <- Hq|by rewrite <- Hlen|done].
Qed.

Lemma selectPending_sublist q : selectPending q `sublist_of` messageQueue q.
Proof.
  unfold selectPending. etrans; [apply sublist_take|apply sublist_filter].
Qed.

Lemma resume_shape ok w ph q :
  messageQueue (resume ok w ph q).1.1 `sublist_of` messageQueue q
  ∧ length (objects (resume ok w ph q).1.1) = length (objects q)
  ∧ ((∀ ph', (resume ok w ph q).1.2 = Some ph' → ∃ r, awaits ph' r)
     ∨ (persistedRefs (resume ok w ph q).2 = []
        ∧ (∀ r, ¬ awaits ph r)
        ∧ (∀ ph', (resume ok w ph q).1.2 = Some ph' →
             remaining ph' = [] ∧ ∀ r, ¬ awaits ph' r)))
  ∧ (persistedRefs (resume ok w ph q).2
       ++ from_option remaining [] (resume ok w ph q).1.2)
      `sublist_of`
      match ph with
      | AwaitImportMessagePersistence => selectPending q
      | _ => remaining ph
      end.
Proof.
  assert (∀ updates,
            persistedRefs (nextUpdate updates).2 = []
            ∧ remaining (nextUpdate updates).1 = []
            ∧ ∀ r, ¬ awaits (nextUpdate updates).1 r) as Hupd.
  { intros updates. destruct updates; cbn; split_and!; auto. }
  destruct ph as [|u rest| |r0 md rest]; cbn [resume remaining].
  - destruct ok.
    + unfold spliceUpdates.
      destruct (Hupd (take batchSize (conversationQueue q))) as (H1 & H2 & H3).
      destruct (nextUpdate _) as [ph' cs']. cbn [fst snd from_option] in *.
      rewrite H1, H2. split_and!; [done|done| |done].
      right. split_and!; [done|by intros ? ?|]. by intros ? [= <-].
    + cbn [fst snd from_option].
      destruct (finishPass_fields w q) as (-> & -> & _).
      split_and!; [done|done| |done]. left. done.
  - destruct (Hupd rest) as (H1 & H2 & H3).
    destruct (nextUpdate rest) as [ph' cs']. cbn [fst snd from_option] in *.
    destruct (settleUpdate_fields ok u q) as (-> & -> & _).
    rewrite H1, H2. split_and!; [done|done| |done].
    right. split_and!; [done|by intros ? ?|]. by intros ? [= <-].
  - destruct ok.
    + destruct (nextMessage_refs w (selectPending q) q) as (H1 & H2 & H3 & H4).
      split_and!; [done|done| |done]. by left.
    + cbn [fst snd from_option].
      destruct (finishPass_fields w q) as (-> & -> & _).
      split_and!; [done|done|by left|apply sublist_nil_l].
  - set (q' := mutate (settle (persistMessage md ok)) r0 q).
    destruct (mutate_frame (settle (persistMessage md ok)) r0 q)
      as (Hq & _ & _ & _ & _ & Hlen). fold q' in Hq, Hlen.
    destruct (nextMessage_refs w rest q') as (H1 & H2 & H3 & H4).
    split_and!; [by rewrite <- Hq|by rewrite <- Hlen| |done].
    by left.
Qed.

Lemma tagged_processQueue M : invariant M → tagged M → tagged (processQueue M).
Proof.
  intros HI Ht. unfold processQueue.
  destruct (isProcessing (queue M) || negb (isOnline (queue M))); [done|].
  intros n ph. cbn [passes calls].
  intros [Hin|[= -> ->]%list_elem_of_singleton]%elem_of_app Hno.
  - by apply (Ht n ph).
  - apply persistedIn_fresh; [apply HI|done].
Qed.

Lemma tagged_settlePass i ok w M :
  invariant M → tagged M → tagged (settlePass i ok w M).
Proof.
  intros HI Ht. unfold settlePass.
  destruct (passes M !! i) as [[n ph]|] eqn:Hi; [|done].
  destruct (inv_onePass M HI) as [[Hnil _]|(n' & ph' & Hpass & _)];
    [by rewrite Hnil in Hi|].
  rewrite Hpass in Hi. destruct i as [|i]; [|done].
  injection Hi as -> ->.
  destruct (resume_shape ok w ph (queue M)) as (_ & _ & Hsh & _).
  destruct (resume ok w ph (queue M)) as [[q1 next] cs]. cbn [fst snd] in *.
  intros k p. cbn [passes calls]. rewrite Hpass.
  destruct next as [ph'|]; [|by intros ?%elem_of_nil].
  intros [= -> ->]%list_elem_of_singleton Hno.
  destruct Hsh as [Haw|(Hcs & Hph & _)].
  - destruct (Haw ph' eq_refl) as [r Hr]. by apply Hno in Hr.
  - rewrite persistedIn_app, decide_True, Hcs, app_nil_r by done.
    apply (Ht n ph); [|done]. rewrite Hpass. left.
Qed.

Lemma tagged_handle e M : invariant M → tagged M → tagged (handle e M).
Proof.
  intros HI Ht. destruct e; cbn [handle].
  - unfold queueMessage. cbn zeta.
    destruct (isOnline _ && negb _); [|done].
    by apply tagged_processQueue; [apply invariant_enqueue|].
  - done.
  - unfold tick. destruct (_ && _); [|done]. by apply tagged_processQueue.
  - by apply tagged_processQueue; [apply invariant_with_isOnline|].
  - done.
  - unfold updateAuthTokens.
    pose proof (invariant_rewriteTokens w oldToken newToken M HI) as HI'.
    destruct (rewriteTokens w oldToken newToken (queue M)) as [k q1].
    cbn [snd] in HI'. destruct (_ && _); [|done].
    by apply tagged_processQueue.
  - by apply tagged_processQueue.
  - done.
  - by apply tagged_settlePass.
  - by intros n ph ?%elem_of_nil.
Qed.

Lemma reachable_tagged M : reachable M → tagged M.
Proof.
  induction 1 as [online|e M HM IH].
  - by intros n ph ?%elem_of_nil.
  - by apply tagged_handle; [apply reachable_invariant|].
Qed.

Lemma batchOf_one n k ph q st cs :
  batchOf n (mkMachine q [(k, ph)] st cs)
  = if decide (k = n) then remaining ph else [].
Proof. unfold batchOf. cbn. by rewrite app_nil_r. Qed.

Lemma orderInv_processQueue h m M :
  orderInv h m M → orderInv h m (processQueue M).
Proof.
  intros (H1 & H2 & H3 & H4). unfold processQueue.
  destruct (isProcessing (queue M) || negb (isOnline (queue M))); [done|].
  split_and!; [done..|]. intros n. specialize (H4 n).
  unfold batchOf in *. cbn [passes calls]. rewrite flat_map_app. cbn.
  destruct (decide (started M = n)); by rewrite !app_nil_r.
Qed.

Lemma orderInv_with_queue h m M q' :
  orderInv h m M →
  length (objects (queue M)) ≤ length (objects q') →
  ordered h m (messageQueue q') →
  orderInv h m (with_queue M q').
Proof.
  intros (H1 & H2 & H3 & H4) Hlen Hord.
  split_and!; [done|cbn; lia|done|done].
Qed.

Lemma orderInv_settlePass h m i ok w M :
  invariant M → tagged M → orderInv h m M →
  orderInv h m (settlePass i ok w M).
Proof.
  intros HI Ht (H1 & H2 & H3 & H4). unfold settlePass.
  destruct (passes M !! i) as [[n ph]|] eqn:Hi; [|done].
  destruct (inv_onePass M HI) as [[Hnil _]|(n' & ph' & Hpass & _)];
    [by rewrite Hnil in Hi|].
  rewrite Hpass in Hi. destruct i as [|i]; [|done].
  injection Hi as -> ->.
  destruct (resume_shape ok w ph (queue M)) as (Hq & Hlen & Hsh & Hsub).
  destruct (resume ok w ph (queue M)) as [[q1 next] cs]. cbn [fst snd] in *.
  split_and!; cbn [queue calls]; [done|lia|by eapply ordered_sublist|].
  intros k. specialize (H4 k). rewrite persistedIn_app.
  assert (batchOf k (mkMachine q1
            (match next with
             | Some ph' => <[0:=(n, ph')]> (passes M)
             | None => delete 0 (passes M)
             end) (started M) (calls M ++ ((λ c, (n, c)) <$> cs)))
          = if decide (n = k) then from_option remaining [] next else [])
    as ->.
  { rewrite Hpass. unfold batchOf. destruct next as [ph'|]; cbn.
    - by rewrite app_nil_r.
    - by case_decide. }
  assert (batchOf k M = if decide (n = k) then remaining ph else []) as Hb.
  { unfold batchOf. rewrite Hpass. cbn. by rewrite app_nil_r. }
  rewrite Hb in H4. destruct (decide (n = k)) as [->|Hne];
    [|by rewrite !app_nil_r in *].
  rewrite <- app_assoc.
  destruct ph as [|u rest| |r0 md rest].
  1, 2, 4: (eapply ordered_sublist; [|exact H4]; by apply sublist_app).
  rewrite (Ht k AwaitImportMessagePersistence);
    [|rewrite Hpass; left|by intros ? ?].
  cbn [app]. eapply ordered_sublist; [|exact H3].
  etrans; [exact Hsub|apply selectPending_sublist].
Qed.

Lemma orderInv_handle h m e M :
  invariant M → tagged M → isReload e = false →
  orderInv h m M → orderInv h m (handle e M).
Proof.
  intros HI Ht He Hord. pose proof Hord as (H1 & H2 & H3 & H4).
  destruct e; cbn [handle]; [| | | | | | | | |done].
  - unfold queueMessage. cbn zeta.
    destruct (enqueue_fields gid now w md token prio (queue M))
      as (Ho & Hq & _).
    assert (orderInv h m
              (with_queue M (enqueue gid now w md token prio (queue M))))
      as Hord'.
    { apply orderInv_with_queue; [done| |].
      - rewrite Ho, length_app. lia.
      - rewrite Hq. destruct (decide (prio = high)).
        + apply ordered_cons; [lia|done].
        + apply ordered_snoc; [lia|done]. }
    destruct (isOnline _ && negb _); [|done].
    by apply orderInv_processQueue.
  - unfold queueConversationUpdate. set (q1 := with_conversationQueue _ _).
    destruct (saveToStorage_fields w q1) as (Ho & Hq & _).
    apply orderInv_with_queue; [done|by rewrite Ho|by rewrite Hq].
  - unfold tick. destruct (_ && _); [|done]. by apply orderInv_processQueue.
  - apply orderInv_processQueue. by apply orderInv_with_queue.
  - by apply orderInv_with_queue.
  - unfold updateAuthTokens.
    destruct (rewriteTokens_fields w oldToken newToken (queue M))
      as (Hobj & Hq & _).
    destruct (rewriteTokens w oldToken newToken (queue M)) as [k q1].
    cbn [snd] in *.
    assert (orderInv h m (with_queue M q1)) as Hord'.
    { apply orderInv_with_queue; [done| |by rewrite Hq].
      by rewrite (Forall2_length _ _ _ Hobj). }
    destruct (_ && _); [|done]. by apply orderInv_processQueue.
  - by apply orderInv_processQueue.
  - unfold clearFailedMessages. cbn [snd]. set (q1 := with_messageQueue _ _).
    destruct (saveToStorage_fields w q1) as (Ho & Hq & _).
    apply orderInv_with_queue; [done|by rewrite Ho|].
    rewrite Hq. eapply ordered_sublist; [|exact H3]. apply sublist_filter.
  - by apply orderInv_settlePass.
Qed.

Lemma orderInv_run h m es M :
  invariant M → tagged M → forallb (λ e, negb (isReload e)) es = true →
  orderInv h m M → orderInv h m (run es M).
Proof.
  revert M. induction es as [|e es IH]; intros M HI Ht Hes Hord; [done|].
  cbn in Hes. apply andb_true_iff in Hes as [He Hes].
  apply negb_true_iff in He. cbn [run foldl].
  apply IH; [by apply invariant_handle|by apply tagged_handle|done|].
  by apply orderInv_handle.
Qed.

Lemma orderInv_enqueue_high gid now w md token M m :
  invariant M → m ∈ messageQueue (queue M) →
  orderInv (length (objects (queue M))) m
    (with_queue M (enqueue gid now w md token high (queue M))).
Proof.
  intros HI Hm. pose proof HI as [[Hv Hnd] Hone _ _ Hcalls].
  destruct (enqueue_fields gid now w md token high (queue M))
    as (Ho & Hq & _).
  pose proof (Hv m Hm) as Hlt.
  split_and!; cbn [with_queue queue calls].
  - done.
  - rewrite Ho, length_app. cbn. lia.
  - rewrite Hq. cbn. apply ordered_cons; [lia|].
    apply ordered_absent. intros Hin. apply Hv in Hin. lia.
  - intros n. apply ordered_absent.
    intros [Hin|Hin]%elem_of_app.
    + apply (persistedIn_valid M) in Hin; [lia|done].
    + unfold batchOf in Hin. cbn [passes with_queue] in Hin.
      destruct Hone as [[Hnil _]|(k & ph & Hpass & _ & _ & Hph)].
      * rewrite Hnil in Hin. by apply elem_of_nil in Hin.
      * rewrite Hpass in Hin. cbn in Hin. rewrite app_nil_r in Hin.
        destruct (decide (k = n)); [|by apply elem_of_nil in Hin].
        destruct ph as [| | |r md' rest]; try by apply elem_of_nil in Hin.
        destruct Hph as (_ & _ & Hrest).
        destruct (Hrest _ Hin) as (m' & Hm' & _).
        apply lookup_lt_Some in Hm'. lia.
Qed.

(** C7: [queueMessage] puts a [high] message at the head of the message
    list and any other at its tail; and on every page that started with
    nothing stored, once a [high] message is queued, whatever handlers run
    afterwards and however they interleave (short of a reload), no pass
    calls the Remote Writer for that message after having called it for a
    message that was in the list when it was queued. *)
Theorem high_priority_goes_first :
  (∀ gid now w md token prio M,
     messageQueue (queue (queueMessage gid now w md token prio M))
     = (if decide (prio = high)
        then length (objects (queue M)) :: messageQueue (queue M)
        else messageQueue (queue M) ++ [length (objects (queue M))])
     ∧ objects (queue (queueMessage gid now w md token prio M))
         !! length (objects (queue M))
       = Some (mkQueuedMessage gid md token now 0 prio pending))
  ∧ (∀ M gid now w md token es m n,
       reachable M →
       forallb (λ e, negb (isReload e)) es = true →
       m ∈ messageQueue (queue M) →
       ordered (length (objects (queue M))) m
         (persistedIn n
            (calls (run es (queueMessage gid now w md token high M))))).
Proof.
  split.
  - intros gid now w md token prio M.
    assert (messageQueue (queue (queueMessage gid now w md token prio M))
            = messageQueue (enqueue gid now w md token prio (queue M))
            ∧ objects (queue (queueMessage gid now w md token prio M))
              = objects (enqueue gid now w md token prio (queue M)))
      as [-> ->].
    { unfold queueMessage, processQueue. cbn zeta.
      destruct (isOnline _ && negb _); [|done].
      by destruct (isProcessing _ || negb _). }
    destruct (enqueue_fields gid now w md token prio (queue M))
      as (-> & -> & _).
    split; [done|]. by rewrite list_lookup_middle.
  - intros M gid now w md token es m n HM Hes Hm.
    pose proof (reachable_invariant M HM) as HI.
    pose proof (reachable_tagged M HM) as Ht.
    set (M1 := queueMessage gid now w md token high M).
    assert (reachable M1) as HM1.
    { apply (reachable_handle (QueueMessage gid now w md token high)). done. }
    assert (orderInv (length (objects (queue M))) m M1) as Hord.
    { unfold M1, queueMessage. cbn zeta.
      pose proof (orderInv_enqueue_high gid now w md token M m HI Hm).
      destruct (isOnline _ && negb _); [|done].
      by apply orderInv_processQueue. }
    destruct (orderInv_run _ m es M1 (reachable_invariant _ HM1)
                (reachable_tagged _ HM1) Hes Hord) as (_ & _ & _ & H4).
    eapply ordered_sublist; [|apply (H4 n)].
    by apply sublist_inserts_r.
Qed.

Lemma high_priority_goes_first_witness :
  persistedIn 0
    (calls (run demoPass
              (queueMessage "m2" 2 true (demoData 1) "tok" high demoOffline)))
  = [1; 0]
  ∧ ordered 1 0
      (persistedIn 0
         (calls (run demoPass
                   (queueMessage "m2" 2 true (demoData 1) "tok" high
                      demoOffline)))).
Proof.
  split; [reflexivity|].
  destruct high_priority_goes_first as [_ H].
  apply (H demoOffline "m2" 2%Z true (demoData 1) "tok" demoPass 0 0).
  - apply reachable_run, reachable_boot.
  - reflexivity.
  - apply list_elem_of_singleton. reflexivity.
Defined.

(** ** The calls of a pass under interleaving *)

Lemma callsOf_app n cs k cs' :
  callsOf n (cs ++ ((λ c, (k, c)) <$> cs'))
  = callsOf n cs ++ (if decide (k = n) then cs' else []).
Proof.
  unfold callsOf. rewrite filter_app, fmap_app. f_equal.
  destruct (decide (k = n)) as [->|Hne].
  - induction cs' as [|c cs' IH]; [done|].
    cbn [fmap list_fmap]. rewrite filter_cons_True by done.
    cbn [fmap list_fmap snd]. by f_equal.
  - rewrite filter_none; [done|].
    intros [k' c] (c' & [= -> ->] & _)%list_elem_of_fmap. done.
Qed.

Lemma callsOf_fresh M n : callsOk M → started M ≤ n → callsOf n (calls M) = [].
Proof.
  intros Hc Hn. unfold callsOf. rewrite filter_none; [done|].
  intros [k c] Hin Hk. cbn in Hk. subst k.
  destruct (Hc n c Hin) as [Hlt _]. lia.
Qed.

Lemma nextMessage_calls w batch q :
  ∃ rs, target <$> (nextMessage w batch q).2 = inr <$> rs
        ∧ length rs + length (from_option remaining [] (nextMessage w batch q).1.2)
          ≤ length batch
        ∧ from_option updatesLeft [] (nextMessage w batch q).1.2 = [].
Proof.
  revert q. induction batch as [|r rest IH]; intros q; cbn [nextMessage].
  - exists []. by cbn.
  - set (q1 := mutate (set_status processing) r q).
    destruct (objects q1 !! r) as [m|] eqn:Hm.
    + exists [r]. unfold persistCall. rewrite Hm. cbn. split_and!; [done|lia|done].
    + destruct (IH q1) as (rs & H1 & H2 & H3). exists rs.
      split_and!; [done|cbn [length]; lia|done].
Qed.

Lemma nextUpdate_shape updates :
  ∃ us, target <$> (nextUpdate updates).2 = inl <$> us
        ∧ length us + length (updatesLeft (nextUpdate updates).1)
          = length updates
        ∧ remaining (nextUpdate updates).1 = []
        ∧ (∀ r, ¬ awaits (nextUpdate updates).1 r)
        ∧ (nextUpdate updates).1 ≠ AwaitImportConversationManager.
Proof.
  destruct updates as [|u rest].
  - exists []. cbn. split_and!; auto.
  - exists [u]. cbn. split_and!; auto.
Qed.

(** What a step of a suspended pass calls for, by the [await] it was at. *)
Lemma resume_calls ok w ph q :
  ∃ us rs,
    target <$> (resume ok w ph q).2 = (inl <$> us) ++ (inr <$> rs)
    ∧ length us + length (from_option updatesLeft [] (resume ok w ph q).1.2)
      ≤ match ph with
        | AwaitImportConversationManager => batchSize
        | _ => length (updatesLeft ph)
        end
    ∧ length rs + length (from_option remaining [] (resume ok w ph q).1.2)
      ≤ match ph with
        | AwaitImportMessagePersistence => batchSize
        | _ => length (remaining ph)
        end
    ∧ ((∀ r, ¬ awaits ph r) → ph ≠ AwaitImportMessagePersistence →
       rs = [] ∧ ∀ ph', (resume ok w ph q).1.2 = Some ph' →
                  (∀ r, ¬ awaits ph' r)
                  ∧ ph' ≠ AwaitImportConversationManager)
    ∧ ((∃ r, awaits ph r) ∨ ph = AwaitImportMessagePersistence →
       us = [] ∧ ∀ ph', (resume ok w ph q).1.2 = Some ph' →
                  ph' ≠ AwaitImportConversationManager).
Proof.
  destruct ph as [|u rest| |r0 md rest]; cbn [resume updatesLeft remaining].
  - destruct ok.
    + unfold spliceUpdates.
      destruct (nextUpdate_shape (take batchSize (conversationQueue q)))
        as (us & H1 & H2 & H3 & H4 & H5).
      destruct (nextUpdate _) as [ph' cs']. cbn [fst snd from_option] in *.
      exists us, []. rewrite H1, H3, app_nil_r.
      assert (length (take batchSize (conversationQueue q)) ≤ batchSize)
        by (rewrite length_take; lia).
      split_and!; [done|lia|cbn; lia| |].
      * intros _ _. split; [done|]. by intros ? [= <-].
      * intros [[r []]|[=]].
    + exists [], []. cbn. split_and!; [done|lia|lia| |].
      * by intros _ _.
      * intros [[r []]|[=]].
  - destruct (nextUpdate_shape rest) as (us & H1 & H2 & H3 & H4 & H5).
    destruct (nextUpdate rest) as [ph' cs']. cbn [fst snd from_option] in *.
    exists us, []. rewrite H1, H3, app_nil_r.
    split_and!; [done|lia|cbn; lia| |].
    + intros _ _. split; [done|]. by intros ? [= <-].
    + intros [[r []]|[=]].
  - destruct ok.
    + destruct (nextMessage_calls w (selectPending q) q) as (rs & H1 & H2 & H3).
      exists [], rs. rewrite H1, H3.
      assert (length (selectPending q) ≤ batchSize)
        by (unfold selectPending; rewrite length_take; lia).
      split_and!; [done|cbn; lia|lia| |].
      * by intros _ [].
      * intros _. split; [done|]. intros ph' Hph' ->.
        rewrite Hph' in H2, H3. cbn in *.
        destruct (nextMessage_refs w (selectPending q) q) as (_ & _ & _ & Haw).
        by destruct (Haw _ Hph') as [r []].
    + exists [], []. cbn. split_and!; [done|lia|lia|by intros _ []|].
      by intros _.
  - set (q' := mutate (settle (persistMessage md ok)) r0 q).
    destruct (nextMessage_calls w rest q') as (rs & H1 & H2 & H3).
    exists [], rs. rewrite H1, H3.
    split_and!; [done|cbn; lia|lia| |].
    + intros Hno. by destruct (Hno r0).
    + intros _. split; [done|]. intros ph' Hph' ->.
      destruct (nextMessage_refs w rest q') as (_ & _ & _ & Haw).
      by destruct (Haw _ Hph') as [r []].
Qed.

Lemma target_persisted cs rs :
  target <$> cs = inr <$> rs → persistedRefs cs = rs.
Proof.
  revert rs. induction cs as [|c cs IH]; intros [|r rs] Heq; try done.
  cbn in Heq. injection Heq as Hc Hcs. destruct c; [done|].
  cbn in Hc. injection Hc as ->. cbn. f_equal. by apply IH.
Qed.

Lemma shaped_processQueue M : invariant M → shaped M → shaped (processQueue M).
Proof.
  intros HI Hs. unfold processQueue.
  destruct (isProcessing (queue M) || negb (isOnline (queue M))) eqn:Hg;
    [done|].
  apply orb_false_elim in Hg as [Hp _].
  destruct (inv_onePass M HI) as [[Hnil _]|(? & ? & _ & Hp' & _)];
    [|congruence].
  intros n. destruct (Hs n) as (us & rs & HT & _ & Hus & Hrs).
  destruct (decide (n = started M)) as [->|Hne].
  - exists [], []. cbn [calls passes].
    rewrite (callsOf_fresh M) by (apply HI || done).
    split_and!; [done| |cbn; lia|cbn; lia].
    rewrite Hnil. intros ph [= ->]%list_elem_of_singleton.
    cbn. unfold batchSize. split_and!; auto with lia.
  - exists us, rs. cbn [calls passes]. split_and!; [done| |done|done].
    rewrite Hnil. intros ph [= ->]%list_elem_of_singleton. done.
Qed.

Lemma shaped_settlePass i ok w M :
  invariant M → shaped M → shaped (settlePass i ok w M).
Proof.
  intros HI Hs. unfold settlePass.
  destruct (passes M !! i) as [[n ph]|] eqn:Hi; [|done].
  destruct (inv_onePass M HI) as [[Hnil _]|(n' & ph' & Hpass & _)];
    [by rewrite Hnil in Hi|].
  rewrite Hpass in Hi. destruct i as [|i]; [|done].
  injection Hi as -> ->.
  destruct (resume_calls ok w ph (queue M)) as (us' & rs' & HT' & Hu' & Hr' & Hout & Hin).
  destruct (resume_shape ok w ph (queue M)) as (_ & _ & Hsh & _).
  destruct (resume ok w ph (queue M)) as [[q1 next] cs]. cbn [fst snd] in *.
  intros k. destruct (Hs k) as (us & rs & HT & Hph & Hus & Hrs).
  cbn [calls passes]. rewrite callsOf_app, fmap_app, HT.
  destruct (decide (n = k)) as [->|Hne].
  2:{ exists us, rs. rewrite app_nil_r. split_and!; [done| |done|done].
      rewrite Hpass. intros p Hp. destruct next as [ph'|].
      - by apply list_elem_of_singleton in Hp as [= ->].
      - by apply elem_of_nil in Hp. }
  destruct (Hph ph) as (H1 & H2 & H3 & H4); [rewrite Hpass; left|].
  assert (∀ p, (k, p) ∈ match next with
                        | Some ph' => <[0:=(k, ph')]> (passes M)
                        | None => delete 0 (passes M)
                        end → next = Some p) as Hnext.
  { rewrite Hpass. intros p Hp. destruct next as [ph'|].
    - by apply list_elem_of_singleton in Hp as [= ->].
    - by apply elem_of_nil in Hp. }
  destruct ph as [|u rest| |r0 md rest]; cbn [updatesLeft remaining length] in *.
  - (* the first import: nothing was called yet *)
    destruct Hout as [-> Hn']; [by intros ? ?|done|].
    assert (us = []) as -> by by apply H4.
    assert (rs = []) as -> by (apply H3; by intros ? ?).
    cbn [fmap list_fmap app length] in *.
    exists us', []. rewrite HT'.
    split_and!; [done| |lia|cbn; lia].
    intros p Hp%Hnext. rewrite Hp in Hu', Hr'. cbn [from_option] in *.
    destruct (Hn' p Hp) as [Hp1 Hp2]. split_and!; [lia|cbn; lia|done|done].
  - (* the update loop *)
    destruct Hout as [-> Hn']; [by intros ? ?|done|].
    assert (rs = []) as -> by (apply H3; by intros ? ?).
    cbn [fmap list_fmap app length] in *.
    rewrite app_nil_r in *.
    exists (us ++ us'), []. rewrite HT', fmap_app, !app_nil_r, length_app.
    split_and!; [done| |lia|cbn; lia].
    intros p Hp%Hnext. rewrite Hp in Hu', Hr'. cbn [from_option] in *.
    destruct (Hn' p Hp) as [Hp1 Hp2]. split_and!; [lia|cbn; lia|done|done].
  - (* the second import: the selection *)
    destruct Hin as [-> Hn']; [by right|].
    assert (rs = []) as -> by (apply H3; by intros ? ?). cbn [fmap list_fmap app length] in *.
    rewrite app_nil_r in *.
    exists us, rs'. rewrite HT'. cbn [fmap list_fmap app].
    split_and!; [done| |lia|lia].
    intros p Hp%Hnext. rewrite Hp in Hu', Hr'. cbn [from_option] in *.
    split_and!; [lia|lia| |intros Hp'; by apply (Hn' _ Hp) in Hp'].
    intros Hno. destruct Hsh as [Haw|(Hcs & _)].
    + destruct (Haw p Hp) as [r Hr]. by apply Hno in Hr.
    + apply target_persisted in HT'. congruence.
  - (* the message loop *)
    destruct Hin as [-> Hn']; [left; by exists r0|].
    cbn [fmap list_fmap app length] in *.
    exists us, (rs ++ rs'). rewrite HT', fmap_app, length_app, app_assoc.
    cbn [fmap list_fmap app].
    split_and!; [done| |lia|lia].
    intros p Hp%Hnext. rewrite Hp in Hu', Hr'. cbn [from_option] in *.
    split_and!; [lia|lia| |intros Hp'; by apply (Hn' _ Hp) in Hp'].
    intros Hno. destruct Hsh as [Haw|(_ & Hno' & _)].
    + destruct (Haw p Hp) as [r Hr]. by apply Hno in Hr.
    + by destruct (Hno' r0).
Qed.

Lemma shaped_handle e M : invariant M → shaped M → shaped (handle e M).
Proof.
  intros HI Hs. destruct e; cbn [handle].
  - unfold queueMessage. cbn zeta.
    destruct (isOnline _ && negb _); [|done].
    by apply shaped_processQueue; [apply invariant_enqueue|].
  - done.
  - unfold tick. destruct (_ && _); [|done]. by apply shaped_processQueue.
  - by apply shaped_processQueue; [apply invariant_with_isOnline|].
  - done.
  - unfold updateAuthTokens.
    pose proof (invariant_rewriteTokens w oldToken newToken M HI) as HI'.
    destruct (rewriteTokens w oldToken newToken (queue M)) as [k q1].
    cbn [snd] in HI'. destruct (_ && _); [|done].
    by apply shaped_processQueue.
  - by apply shaped_processQueue.
  - done.
  - by apply shaped_settlePass.
  - intros n. exists [], []. cbn. split_and!; [done| |lia|lia].
    by intros ph ?%elem_of_nil.
Qed.

Lemma reachable_shaped M : reachable M → shaped M.
Proof.
  induction 1 as [online|e M HM IH].
  - intros n. exists [], []. cbn. split_and!; [done| |lia|lia].
    by intros ph ?%elem_of_nil.
  - by apply shaped_handle; [apply reachable_invariant|].
Qed.

(** C6: in a pass, the Remote Writer is called for the first (at most 5)
    conversation updates of the list, in list order, and only then for the
    first (at most 5) [pending] messages of the message list, in list
    order (if an import fails, the calls stop there), and these are the
    calls the page records for the pass when nothing else runs during it;
    and on every page that started with nothing stored, whatever handlers
    run and however they interleave, the calls of each pass are calls for
    at most 5 updates followed by calls for at most 5 messages. *)
Theorem drainPass_updates_before_messages :
  (∀ env M,
     passes M = [] → isProcessing (queue M) = false →
     isOnline (queue M) = true →
     let q := queue M in
     let updates := take batchSize (conversationQueue q) in
     let pendingMessages :=
       take batchSize
         (filter (λ r, test (hasStatus pending) q r) (messageQueue q)) in
     calls (run (answers env q) (processQueue M))
     = calls M ++ ((λ c, (started M, c)) <$> (drainPass env q).2)
     ∧ target <$> (drainPass env q).2
       = (if importConversationManager env then inl <$> updates else [])
         ++ (if importConversationManager env && importMessagePersistence env
             then inr <$> pendingMessages else [])
     ∧ length updates ≤ 5 ∧ length pendingMessages ≤ 5)
  ∧ (∀ M n, reachable M →
       ∃ us rs,
         target <$> callsOf n (calls M) = (inl <$> us) ++ (inr <$> rs)
         ∧ length us ≤ 5 ∧ length rs ≤ 5).
Proof.
  split.
  - intros env M Hnil Hp Ho q updates pendingMessages.
    split; [unfold q; by rewrite uninterrupted_pass|].
    split; [by apply drainPass_targets|].
    split; unfold updates, pendingMessages; rewrite length_take;
      unfold batchSize; lia.
  - intros M n HM.
    destruct (reachable_shaped M HM n) as (us & rs & HT & _ & Hus & Hrs).
    by exists us, rs.
Qed.

Lemma drainPass_updates_before_messages_witness :
  target <$> (drainPass allOk sixQueued).2
  = [inl (mkQueuedConversationUpdate "u1" 1 (mkConversationFields None (Some 6%Z))
                                     "tok" 7 0);
     inr 4; inr 2; inr 0; inr 1; inr 3].
Proof.
  destruct drainPass_updates_before_messages as [H _].
  destruct (H allOk (mkMachine sixQueued [] 0 []))
    as (_ & Ht & _); [reflexivity | reflexivity | reflexivity |].
  cbn [queue] in Ht. rewrite Ht. vm_compute. reflexivity.
Defined.

(** ** A message that failed for good, on the page *)

Lemma nextMessage_end w batch q r :
  (nextMessage w batch q).1.2 = None →
  r ∈ messageQueue (nextMessage w batch q).1.1 →
  test survives (nextMessage w batch q).1.1 r = true.
Proof.
  revert q. induction batch as [|r0 rest IH]; intros q; cbn [nextMessage].
  - cbn [fst snd]. intros _.
    destruct (finishPass_fields w (prune q)) as (Ho & -> & _).
    unfold test. rewrite Ho. unfold prune.
    cbn [messageQueue objects with_messageQueue].
    intros [Hs _]%list_elem_of_filter. by apply Is_true_true in Hs.
  - destruct (objects (mutate (set_status processing) r0 q) !! r0); [done|].
    apply IH.
Qed.

Lemma survives_failed m :
  status m = failed → maxRetries ≤ retryCount m → survives m = false.
Proof.
  intros Hs Hrc. unfold survives, hasStatus. rewrite Hs.
  rewrite (bool_decide_eq_true_2 (failed = failed)) by done.
  rewrite (bool_decide_eq_false_2 (failed = completed)) by done.
  cbn [negb andb]. apply negb_false_iff. by apply Nat.leb_le.
Qed.

Lemma doomed_with_queue r M q' :
  doomed r M →
  (r ∈ messageQueue q' → r ∈ messageQueue (queue M)) →
  (∀ m, objects (queue M) !! r = Some m →
        ∃ m', objects q' !! r = Some m' ∧ retokened m m') →
  doomed r (with_queue M q').
Proof.
  intros [(m & Hm & Hs & Hrc) Hin] Hq Ho. split; cbn [with_queue queue passes].
  - destruct (Ho m Hm) as (m' & Hm' & Hr). exists m'.
    apply retokened_fields in Hr as (_ & _ & _ & -> & _ & ->). done.
  - intros Hr. by apply Hin, Hq.
Qed.

Lemma doomed_processQueue r M :
  invariant M → doomed r M → doomed r (processQueue M).
Proof.
  intros HI [Hobj Hin]. unfold processQueue.
  destruct (isProcessing (queue M) || negb (isOnline (queue M))) eqn:Hg;
    [done|].
  apply orb_false_elim in Hg as [Hp _].
  destruct (inv_onePass M HI) as [[Hnil _]|(? & ? & _ & Hp' & _)];
    [|congruence].
  split; [done|]. cbn [queue messageQueue with_isProcessing]. intros Hr.
  destruct (Hin Hr) as (? & ? & ? & ? & Hpass). congruence.
Qed.

Lemma doomed_settlePass r i ok w M :
  invariant M → doomed r M → doomed r (settlePass i ok w M).
Proof.
  intros HI [(m & Hm & Hs & Hrc) Hin]. unfold settlePass.
  destruct (passes M !! i) as [[n ph]|] eqn:Hi; [|by split; [exists m|]].
  destruct (inv_onePass M HI) as [[Hnil _]|(n' & ph' & Hpass & _ & _ & Hph)];
    [by rewrite Hnil in Hi|].
  rewrite Hpass in Hi. destruct i as [|i]; [|done].
  injection Hi as -> ->.
  assert (¬ awaits ph r ∧ r ∉ remaining ph) as [Haw Hrem].
  { destruct ph as [| | |r0 md rest]; cbn; try (split; [tauto|apply not_elem_of_nil]).
    destruct Hph as (_ & (m0 & Hm0 & Hs0 & _) & Hrest). split.
    - intros ->. congruence.
    - intros Hr. destruct (Hrest r Hr) as (m1 & Hm1 & Hs1). congruence. }
  destruct (resume_shape ok w ph (queue M)) as (Hq & _ & _ & _).
  assert (objects (resume ok w ph (queue M)).1.1 !! r = Some m
          ∧ (∀ r0 md rest, ph = AwaitPersistMessage r0 md rest →
               match (resume ok w ph (queue M)).1.2 with
               | Some ph' => ∃ r1 md1 rest1, ph' = AwaitPersistMessage r1 md1 rest1
               | None => r ∉ messageQueue (resume ok w ph (queue M)).1.1
               end)) as [Hobj Hend].
  { destruct ph as [|u rest| |r0 md rest]; cbn [resume].
    - split; [|done]. destruct ok; cbn [fst].
      + unfold spliceUpdates. by destruct (nextUpdate _).
      + by destruct (finishPass_fields w (queue M)) as (-> & _).
    - split; [|done]. destruct (nextUpdate rest). cbn [fst].
      by destruct (settleUpdate_fields ok u (queue M)) as (-> & _).
    - split; [|done]. destruct ok; cbn [fst].
      + assert (r ∉ selectPending (queue M)) as Hsel.
        { intros (_ & m' & Hm' & Hs')%selectPending_spec. congruence. }
        destruct (nextMessage_other w (selectPending (queue M)) (queue M) r Hsel)
          as (-> & _). done.
      + by destruct (finishPass_fields w (queue M)) as (-> & _).
    - cbn in Haw, Hrem.
      set (q' := mutate (settle (persistMessage md ok)) r0 (queue M)).
      assert (objects q' !! r = Some m) as Hm'
        by (unfold q'; by rewrite mutate_lookup_ne).
      destruct (nextMessage_other w rest q' r Hrem) as (Ho & _).
      split; [by rewrite Ho|]. intros ? ? ? _.
      destruct (nextMessage_refs w rest q') as (_ & _ & _ & Hnx).
      destruct ((nextMessage w rest q').1.2) as [ph'|] eqn:Hn.
      + destruct (Hnx ph' eq_refl) as [x Hx].
        destruct ph' as [| | |r1' md1 rest1]; try done. by eexists _, _, _.
      + intros Hr. pose proof (nextMessage_end w rest q' r Hn Hr) as Hsv.
        unfold test in Hsv. rewrite Ho, Hm' in Hsv. cbn [from_option] in Hsv.
        by rewrite survives_failed in Hsv. }
  destruct (resume ok w ph (queue M)) as [[q1 next] cs]. cbn [fst snd] in *.
  split; cbn [queue passes]; [by exists m|].
  intros Hr. destruct (Hin (elem_of_sublist _ _ _ Hr Hq))
    as (k & r0 & md & rest & Hpass').
  rewrite Hpass in Hpass'. injection Hpass' as -> ->.
  specialize (Hend r0 md rest eq_refl). rewrite Hpass.
  destruct next as [ph'|]; [|done].
  destruct Hend as (r1 & md1 & rest1 & ->). by eexists _, _, _, _.
Qed.

Lemma doomed_handle r e M :
  invariant M → isReload e = false → doomed r M → doomed r (handle e M).
Proof.
  intros HI He Hd. pose proof Hd as [(m & Hm & Hs & Hrc) Hin].
  assert (r < length (objects (queue M))) as Hlt by by eapply lookup_lt_Some.
  destruct e; cbn [handle]; [| | | | | | | | |done].
  - unfold queueMessage. cbn zeta.
    destruct (enqueue_fields gid now w md token prio (queue M))
      as (Ho & Hq & _).
    assert (doomed r (with_queue M (enqueue gid now w md token prio (queue M))))
      as Hd'.
    { apply doomed_with_queue; [done| |].
      - rewrite Hq. destruct (decide (prio = high)).
        + intros [->|?]%elem_of_cons; [lia|done].
        + intros [?| ->%list_elem_of_singleton]%elem_of_app; [done|lia].
      - intros m' Hm'. exists m'. rewrite Ho.
        split; [by apply lookup_app_l_Some|apply retokened_refl]. }
    destruct (isOnline _ && negb _); [|done].
    by apply doomed_processQueue; [apply invariant_enqueue|].
  - unfold queueConversationUpdate. set (q1 := with_conversationQueue _ _).
    destruct (saveToStorage_fields w q1) as (Ho & Hq & _).
    apply doomed_with_queue; [done|by rewrite Hq|].
    intros m' Hm'. exists m'. rewrite Ho. split; [done|apply retokened_refl].
  - unfold tick. destruct (_ && _); [|done]. by apply doomed_processQueue.
  - apply doomed_processQueue; [by apply invariant_with_isOnline|].
    apply doomed_with_queue; [done..|].
    intros m' Hm'. exists m'. split; [done|apply retokened_refl].
  - apply doomed_with_queue; [done..|].
    intros m' Hm'. exists m'. split; [done|apply retokened_refl].
  - unfold updateAuthTokens.
    pose proof (invariant_rewriteTokens w oldToken newToken M HI) as HI'.
    destruct (rewriteTokens_fields w oldToken newToken (queue M))
      as (Hobj & Hq & _).
    destruct (rewriteTokens w oldToken newToken (queue M)) as [k q1].
    cbn [snd] in *.
    assert (doomed r (with_queue M q1)) as Hd'.
    { apply doomed_with_queue; [done|by rewrite Hq|].
      intros m' Hm'. by apply (Forall2_lookup_l _ _ _ _ _ Hobj Hm'). }
    destruct (_ && _); [|done]. by apply doomed_processQueue.
  - by apply doomed_processQueue.
  - unfold clearFailedMessages. cbn [snd]. set (q1 := with_messageQueue _ _).
    destruct (saveToStorage_fields w q1) as (Ho & Hq & _).
    apply doomed_with_queue; [done| |].
    + rewrite Hq. unfold q1. cbn [messageQueue with_messageQueue].
      by intros [_ ?]%list_elem_of_filter.
    + intros m' Hm'. exists m'. rewrite Ho. split; [done|apply retokened_refl].
  - by apply doomed_settlePass.
Qed.

Lemma doomed_run r es M :
  invariant M → forallb (λ e, negb (isReload e)) es = true →
  doomed r M → doomed r (run es M).
Proof.
  revert M. induction es as [|e es IH]; intros M HI Hes Hd; [done|].
  cbn in Hes. apply andb_true_iff in Hes as [He Hes].
  apply negb_true_iff in He. cbn [run foldl].
  apply IH; [by apply invariant_handle|done|by apply doomed_handle].
Qed.

(** The answer that exhausts the retries of the awaited message. *)
Lemma doomed_settled n r md rest ok w M m :
  invariant M →
  passes M = [(n, AwaitPersistMessage r md rest)] →
  objects (queue M) !! r = Some m → maxRetries ≤ retryCount m →
  persistMessage md ok = false →
  doomed r (settlePass 0 ok w M)
  ∧ objects (queue (settlePass 0 ok w M)) !! r = Some (set_status failed m).
Proof.
  intros HI Hpass Hm Hrc Hfail.
  destruct (inv_onePass M HI) as [[Hnil _]|(n' & ph' & Hpass' & _ & _ & Hph)];
    [congruence|].
  rewrite Hpass in Hpass'. injection Hpass' as <- <-.
  destruct Hph as (Hnd & _ & _). apply NoDup_cons in Hnd as [Hnotin _].
  unfold settlePass. rewrite Hpass. cbn [lookup list_lookup resume].
  rewrite Hfail.
  set (q' := mutate (settle false) r (queue M)).
  assert (objects q' !! r = Some (set_status failed m)) as Hm'.
  { unfold q'. rewrite mutate_lookup_eq, Hm. cbn [fmap option_fmap option_map].
    unfold settle.
    destruct (Nat.ltb_spec (retryCount m) maxRetries); [lia|done]. }
  destruct (nextMessage_other w rest q' r Hnotin) as (Ho & _).
  destruct (nextMessage_refs w rest q') as (_ & _ & _ & Hnx).
  pose proof (nextMessage_end w rest q' r) as Hend.
  destruct (nextMessage w rest q') as [[q1 next] cs]. cbn [fst snd] in *.
  cbn [queue]. rewrite Ho, Hm'. split; [|done].
  split; cbn [queue passes].
  - exists (set_status failed m). by rewrite Ho.
  - intros Hr. destruct next as [ph'|].
    + destruct (Hnx ph' eq_refl) as [x Hx].
      destruct ph' as [| | |r1' md1 rest1]; try done. by eexists _, _, _, _.
    + specialize (Hend eq_refl Hr). unfold test in Hend.
      rewrite Ho, Hm' in Hend. cbn [from_option] in Hend.
      by rewrite survives_failed in Hend.
Qed.

(** C3, as the code has it: a selected message whose retry count has
    reached the ceiling and whose write fails gets the status [failed] and is
    removed from the message list by the pruning that ends that same pass;
    a [failed] object is never selected and is left as it is by every later
    pass; [clearFailedMessages] leaves no [failed] item in the list; and on
    every page that started with nothing stored, whatever handlers run and
    however they interleave (short of a reload), a message that failed for
    good keeps the status [failed] and is out of the message list as soon as
    no pass is running. *)
Theorem exhausted_message_failed_and_pruned :
  (∀ env q k r m,
     isProcessing q = false → isOnline q = true →
     importConversationManager env = true →
     importMessagePersistence env = true →
     NoDup (messageQueue q) →
     selectPending q !! k = Some r → objects q !! r = Some m →
     (maxRetries ≤ retryCount m) →
     persistMessage (messageData m) (responseOk env k) = false →
     objects (drainPass env q).1 !! r = Some (set_status failed m)
     ∧ (r ∉ messageQueue (drainPass env q).1)
     ∧ (r ∉ selectPending (drainPass env q).1))
  ∧ (∀ env q r m,
       objects q !! r = Some m → (status m = failed) →
       (r ∉ selectPending q) ∧ objects (drainPass env q).1 !! r = Some m)
  ∧ (∀ w q r,
       r ∈ messageQueue (clearFailedMessages w q).2 →
       test (hasStatus failed) q r = false)
  ∧ (∀ M n r md rest ok w m es,
       reachable M →
       passes M = [(n, AwaitPersistMessage r md rest)] →
       objects (queue M) !! r = Some m → (maxRetries ≤ retryCount m) →
       persistMessage md ok = false →
       forallb (λ e, negb (isReload e)) es = true →
       (∃ m', objects (queue (run es (settlePass 0 ok w M))) !! r = Some m'
              ∧ status m' = failed)
       ∧ (passes (run es (settlePass 0 ok w M)) = [] →
          r ∉ messageQueue (queue (run es (settlePass 0 ok w M))))).
Proof.
  split_and!.
  - intros env q k r m Hp Ho H1 H2 Hnd Hk Hm Hrc Hfail.
    destruct (drainPass_result env q Hp Ho H1 H2) as (q1 & q2 & Hq1 & -> & Hobj & Hmq).
    assert (objects (drainPass env q).1 !! r = Some (set_status failed m)) as Hr.
    { rewrite Hobj.
      rewrite (persistLoop_object _ 0 _ _ k r) by auto using selectPending_NoDup.
      rewrite Hq1, Hm. simpl. unfold attempt, settle. simpl. rewrite Hfail.
      destruct (Nat.ltb_spec (retryCount m) maxRetries); [lia|done]. }
    assert (r ∉ messageQueue (drainPass env q).1) as Hout.
    { rewrite Hmq. intros [Hs _]%list_elem_of_filter.
      apply Is_true_true, test_true in Hs as (m' & Hm' & Hs).
      rewrite <- Hobj, Hr in Hm'. injection Hm' as <-.
      by rewrite survives_failed in Hs. }
    split_and!; [done..|].
    intros Hsel. by apply selectPending_spec in Hsel as [? _].
  - intros env q r m Hm Hs.
    assert (r ∉ selectPending q) as Hsel.
    { intros (_ & m' & Hm' & Hs')%selectPending_spec. congruence. }
    split; [done|]. by rewrite drainPass_unselected.
  - intros w q r. unfold clearFailedMessages. cbn [snd].
    destruct (saveToStorage_fields w (with_messageQueue q
      (filter (λ r, test (λ m, negb (hasStatus failed m)) q r) (messageQueue q))))
      as (_ & -> & _).
    cbn [messageQueue with_messageQueue].
    intros [Hs _]%list_elem_of_filter.
    apply Is_true_true, test_true in Hs as (m & Hm & Hs).
    unfold test. rewrite Hm. simpl. by destruct (hasStatus failed m).
  - intros M n r md rest ok w m es HM Hpass Hm Hrc Hfail Hes.
    pose proof (reachable_invariant M HM) as HI.
    destruct (doomed_settled n r md rest ok w M m HI Hpass Hm Hrc Hfail)
      as [Hd _].
    destruct (doomed_run r es _ (invariant_settlePass 0 ok w M HI) Hes Hd)
      as [(m' & Hm' & Hs & _) Hin].
    split; [by exists m'|].
    intros Hnil Hr. destruct (Hin Hr) as (? & ? & ? & ? & Hp). congruence.
Qed.

Lemma exhausted_message_failed_and_pruned_witness :
  objects (drainPass allFail (afterFailures 3)).1 !! 0
  = Some (mkQueuedMessage "m1" (demoData 1) "tok" 1000 3 medium failed)
  ∧ (0 ∉ messageQueue (drainPass allFail (afterFailures 3)).1).
Proof.
  destruct exhausted_message_failed_and_pruned as (H & _ & _).
  destruct (H allFail (afterFailures 3) 0 0
              (mkQueuedMessage "m1" (demoData 1) "tok" 1000 3 medium pending))
    as (Hobj & Hout & _).
  - reflexivity.
  - reflexivity.
  - reflexivity.
  - reflexivity.
  - vm_compute. apply NoDup_singleton.
  - reflexivity.
  - reflexivity.
  - vm_compute. lia.
  - reflexivity.
  - split; [exact Hobj | exact Hout].
Defined.

Lemma processQueue_objects M :
  objects (queue (processQueue M)) = objects (queue M).
Proof.
  unfold processQueue.
  by destruct (isProcessing (queue M) || negb (isOnline (queue M))).
Qed.

(** Short of a token rewrite, the object itself stays as it is. *)
Lemma stuck_object r m0 m e M :
  status m0 = processing → isReload e = false → isTokenRewrite e = false →
  stuck r m0 M → objects (queue M) !! r = Some m →
  objects (queue (handle e M)) !! r = Some m.
Proof.
  intros Hs0 He Ht (Hin & (m1 & Hm1 & Hr) & Hp) Hm.
  assert (m1 = m) as -> by congruence.
  assert (status m = processing) as Hs.
  { apply retokened_fields in Hr as (_ & _ & _ & _ & _ & ->). done. }
  destruct e; cbn [handle]; [| | | | |done| | | |done].
  - unfold queueMessage. cbn zeta.
    destruct (enqueue_fields gid now w md token prio (queue M)) as (Ho & _).
    destruct (isOnline _ && negb _);
      rewrite ?processQueue_objects; cbn [with_queue queue]; rewrite Ho;
      by apply lookup_app_l_Some.
  - cbn [with_queue queue]. unfold queueConversationUpdate.
    set (q1 := with_conversationQueue _ _).
    by destruct (saveToStorage_fields w q1) as (-> & _).
  - unfold tick. destruct (_ && _); by rewrite ?processQueue_objects.
  - by rewrite processQueue_objects.
  - done.
  - by rewrite processQueue_objects.
  - cbn [with_queue queue]. unfold clearFailedMessages. cbn [snd].
    set (q1 := with_messageQueue _ _).
    by destruct (saveToStorage_fields w q1) as (-> & _).
  - unfold settlePass.
    destruct (passes M !! i) as [[n ph]|] eqn:Hi; [|done].
    destruct (Hp n ph (list_elem_of_lookup_2 _ _ _ Hi)) as [Haw Hrem].
    destruct (resume_other ok w ph (queue M) r m Hm Hs Haw Hrem) as (H1 & _).
    by destruct (resume ok w ph (queue M)) as [[q1 next] cs].
Qed.

Lemma stuck_run_object r m es M :
  status m = processing →
  forallb (λ e, negb (isReload e)) es = true →
  forallb (λ e, negb (isTokenRewrite e)) es = true →
  stuck r m M → objects (queue M) !! r = Some m →
  objects (queue (run es M)) !! r = Some m.
Proof.
  intros Hs. revert M. induction es as [|e es IH]; intros M Hes Hts Hst Hm;
    [done|].
  cbn in Hes, Hts. apply andb_true_iff in Hes as [He Hes].
  apply andb_true_iff in Hts as [Ht Hts].
  apply negb_true_iff in He, Ht. cbn [run foldl].
  apply IH; [done|done| |].
  - by apply stuck_handle.
  - by eapply stuck_object.
Qed.

(** C9: a message whose status is [processing] when no pass is running (as
    after a reload of a queue that was saved in the middle of a pass) is
    not selected by any pass, keeps its status, survives every pruning and
    [clearFailedMessages], and is not what makes [hasQueuedItems] true: a
    pass leaves the object as it is and in the list and never calls the
    Remote Writer for it; and on the page, whatever handlers run and however
    they interleave (short of a further reload), it stays in the message
    list with the status [processing] and is never attempted; the object
    itself stays as it is, except that [updateAuthTokens] may give it
    another token. *)
Theorem processing_message_is_stuck :
  (∀ q r m, objects q !! r = Some m → status m = processing →
     (r ∉ selectPending q)
     ∧ test survives q r = true
     ∧ (∀ env,
          objects (drainPass env q).1 !! r = Some m
          ∧ (r ∈ messageQueue q → r ∈ messageQueue (drainPass env q).1)
          ∧ (r ∉ persistedRefs (drainPass env q).2))
     ∧ (∀ w, r ∈ messageQueue q →
             r ∈ messageQueue (clearFailedMessages w q).2))
  ∧ (∀ q, hasQueuedItems q = true
          ↔ (∃ r m, r ∈ messageQueue q ∧ objects q !! r = Some m
                    ∧ status m = pending)
            ∨ conversationQueue q ≠ [])
  ∧ (∀ M r m es,
       passes M = [] → r ∈ messageQueue (queue M) →
       objects (queue M) !! r = Some m → status m = processing →
       forallb (λ e, negb (isReload e)) es = true →
       (r ∈ messageQueue (queue (run es M)))
       ∧ (∃ m', objects (queue (run es M)) !! r = Some m'
                ∧ m' = set_authToken (authToken m') m
                ∧ status m' = processing
                ∧ (forallb (λ e, negb (isTokenRewrite e)) es = true → m' = m))
       ∧ attempts r (calls (run es M)) = attempts r (calls M)).
Proof.
  split_and!.
  - intros q r m Hm Hs.
    assert (r ∉ selectPending q) as Hsel.
    { intros (_ & m' & Hm' & Hs')%selectPending_spec. congruence. }
    assert (test survives q r = true) as Hsv.
    { unfold test. rewrite Hm. by apply survives_processing. }
    split_and!; [done|done| |].
    + intros env. split_and!.
      * by rewrite drainPass_unselected.
      * intros Hin. by apply drainPass_keeps.
      * intros Hin. by apply drainPass_persisted in Hin.
    + intros w Hin. unfold clearFailedMessages. cbn [snd].
      set (q1 := with_messageQueue _ _).
      destruct (saveToStorage_fields w q1) as (_ & -> & _).
      unfold q1. cbn [messageQueue with_messageQueue].
      apply list_elem_of_filter. split; [|done].
      apply Is_true_true. unfold test, hasStatus. rewrite Hm. cbn.
      by rewrite Hs.
  - apply hasQueuedItems_spec.
  - intros M r m es Hnil Hin Hm Hs Hes.
    assert (stuck r m M) as Hst.
    { split_and!; [done| |].
      - exists m. split; [done|apply retokened_refl].
      - intros n ph Hnp. rewrite Hnil in Hnp. by apply elem_of_nil in Hnp. }
    destruct (stuck_run r m es M Hs Hes Hst) as [(H1 & (m' & Hm' & Hr) & _) H2].
    split_and!; [done| |done]. exists m'. split_and!; [done|done| |].
    + apply retokened_fields in Hr as (_ & _ & _ & _ & _ & ->). done.
    + intros Hts.
      pose proof (stuck_run_object r m es M Hs Hes Hts Hst Hm). congruence.
Qed.

Lemma processing_message_is_stuck_witness :
  (0 ∈ messageQueue (queue (run demoAfterwards demoCrashed)))
  ∧ hasQueuedItems (queue demoCrashed) = false
  ∧ attempts 0 (calls (run demoAfterwards demoCrashed)) = 0.
Proof.
  destruct processing_message_is_stuck as (_ & Hcount & Hpage).
  destruct (Hpage demoCrashed 0 demoInFlight demoAfterwards)
    as (Hin & _ & Hatt).
  - reflexivity.
  - apply list_elem_of_singleton. reflexivity.
  - reflexivity.
  - reflexivity.
  - reflexivity.
  - split_and!; [exact Hin| |exact Hatt].
    apply not_true_is_false. intros Ht. apply Hcount in Ht.
    destruct Ht as [(r & m & Hr & Hm & Hs)|Hc].
    + apply list_elem_of_singleton in Hr as ->.
      injection Hm as <-. discriminate Hs.
    + by apply Hc.
Defined.

(** ** Status report, clearing and batch queueing *)

Lemma count_fields acc m :
  n_pending (count acc m) = n_pending acc + (if hasStatus pending m then 1 else 0)
  ∧ n_processing (count acc m)
    = n_processing acc + (if hasStatus processing m then 1 else 0)
  ∧ n_completed (count acc m)
    = n_completed acc + (if hasStatus completed m then 1 else 0)
  ∧ n_failed (count acc m) = n_failed acc + (if hasStatus failed m then 1 else 0).
Proof.
  unfold count, hasStatus.
  destruct (status m); cbn; repeat case_bool_decide; try done; split_and!; lia.
Qed.

Lemma foldl_count s acc l :
  let get := λ c : Counts,
    match s with
    | pending => n_pending c | processing => n_processing c
    | completed => n_completed c | failed => n_failed c
    end in
  get (foldl count acc l) = get acc + length (filter (λ m, hasStatus s m) l).
Proof.
  intros get. revert acc. induction l as [|m l IH]; intros acc; cbn [foldl].
  - cbn. lia.
  - rewrite IH. destruct (count_fields acc m) as (H1 & H2 & H3 & H4).
    rewrite filter_cons. unfold get.
    destruct s; rewrite ?H1, ?H2, ?H3, ?H4; clear H1 H2 H3 H4;
      match goal with
      | |- context [decide (Is_true (hasStatus ?s m))] =>
          destruct (hasStatus s m);
          [rewrite decide_True by done|rewrite decide_False by (cbn; tauto)]
      end; cbn [length]; lia.
Qed.

Lemma filter_contents (f : QueuedMessage → bool) q :
  length (filter (λ m, f m) (contents q))
  = length (filter (λ r, test f q r) (messageQueue q)).
Proof.
  unfold contents, test. induction (messageQueue q) as [|r l IH]; [done|].
  cbn [omap list_omap]. rewrite (filter_cons _ r).
  destruct (objects q !! r) as [m|]; cbn [from_option].
  - rewrite (filter_cons _ m). destruct (f m); cbn.
    + rewrite !decide_True by done. cbn. by rewrite IH.
    + rewrite !decide_False by (cbn; tauto). done.
  - rewrite decide_False by (cbn; tauto). done.
Qed.

Lemma status_counts s q :
  match s with
  | pending => n_pending | processing => n_processing
  | completed => n_completed | failed => n_failed
  end (messageStatus q)
  = length (filter (λ r, test (hasStatus s) q r) (messageQueue q)).
Proof.
  unfold messageStatus. pose proof (foldl_count s (mkCounts 0 0 0 0) (contents q)) as H.
  cbn zeta in H. rewrite <- filter_contents. destruct s; exact H.
Qed.

Lemma filter_cons_bool {A} (f : A → bool) (x : A) (l : list A) :
  filter (λ x, f x) (x :: l)
  = if f x then x :: filter (λ x, f x) l else filter (λ x, f x) l.
Proof.
  rewrite filter_cons. destruct (f x);
    [by rewrite decide_True|by rewrite decide_False by (cbn; tauto)].
Qed.

Lemma length_filter_partition q (l : list nat) :
  (∀ r, r ∈ l → r < length (objects q)) →
  length (filter (λ r, test (hasStatus pending) q r) l)
  + length (filter (λ r, test (hasStatus processing) q r) l)
  + length (filter (λ r, test (hasStatus completed) q r) l)
  + length (filter (λ r, test (hasStatus failed) q r) l)
  = length l.
Proof.
  induction l as [|r l IH]; intros Hv; [done|].
  rewrite !filter_cons_bool. cbn [length].
  assert (r < length (objects q)) as Hr by (apply Hv; left).
  apply lookup_lt_is_Some in Hr as [m Hm].
  specialize (IH (λ r' Hr', Hv r' (list_elem_of_further _ _ _ Hr'))).
  assert (∀ s, test (hasStatus s) q r = bool_decide (status m = s)) as Ht
    by (intros s; unfold test; by rewrite Hm).
  rewrite !Ht.
  destruct (status m); repeat case_bool_decide; try done; cbn [length]; lia.
Qed.

Lemma length_filter_failed q (l : list nat) :
  (∀ r, r ∈ l → r < length (objects q)) →
  length (filter (λ r, test (λ m, negb (hasStatus failed m)) q r) l)
  + length (filter (λ r, test (hasStatus failed) q r) l)
  = length l.
Proof.
  induction l as [|r l IH]; intros Hv; [done|].
  rewrite !filter_cons_bool.
  assert (r < length (objects q)) as Hr by (apply Hv; left).
  apply lookup_lt_is_Some in Hr as [m Hm].
  specialize (IH (λ r' Hr', Hv r' (list_elem_of_further _ _ _ Hr'))).
  assert (test (λ m, negb (hasStatus failed m)) q r = negb (hasStatus failed m)
          ∧ test (hasStatus failed) q r = hasStatus failed m) as [-> ->]
    by (unfold test; by rewrite Hm).
  destruct (hasStatus failed m); cbn [negb length]; lia.
Qed.

Lemma filter_filter_implied {A} (P Q : A → bool) (l : list A) :
  (∀ x, P x = true → Q x = true) →
  filter (λ x, P x) (filter (λ x, Q x) l) = filter (λ x, P x) l.
Proof.
  intros HPQ. induction l as [|x l IH]; [done|].
  rewrite (filter_cons_bool Q), (filter_cons_bool P x l).
  destruct (P x) eqn:HP.
  - rewrite (HPQ x HP), filter_cons_bool, HP. by rewrite IH.
  - destruct (Q x); [|done]. by rewrite filter_cons_bool, HP.
Qed.

(** X11: [getQueueStatus] against the list and against [hasQueuedItems]: the
    four tallies of its [reduce] add up to the length of the message list,
    so the three it reports ([pending], [processing], [failed]) fall short
    of it by the [completed] items a running pass has not pruned yet; and
    [hasQueuedItems] holds exactly when the reported [pending] or
    [conversations] is positive. *)
Theorem getQueueStatus_agrees_with_hasQueuedItems (q : MessageQueue) :
  (hasQueuedItems q = true
   ↔ 0 < s_pending (getQueueStatus q) ∨ 0 < s_conversations (getQueueStatus q))
  ∧ s_conversations (getQueueStatus q) = length (conversationQueue q)
  ∧ ((∀ r, r ∈ messageQueue q → r < length (objects q)) →
     s_pending (getQueueStatus q) + s_processing (getQueueStatus q)
     + s_failed (getQueueStatus q) + n_completed (messageStatus q)
     = length (messageQueue q)).
Proof.
  split_and!.
  - cbn [getQueueStatus s_pending s_conversations].
    rewrite (status_counts pending q), hasQueuedItems_spec.
    split; (intros [H|H]; [left|right]).
    + destruct H as (r & m & Hr & Hm & Hs).
      assert (r ∈ filter (λ r, test (hasStatus pending) q r) (messageQueue q)) as Hin.
      { apply list_elem_of_filter. split; [|done].
        apply Is_true_true, test_true. exists m. split; [done|].
        by apply bool_decide_eq_true. }
      destruct (filter _ _); [by apply elem_of_nil in Hin|cbn; lia].
    + destruct (conversationQueue q); [done|cbn; lia].
    + destruct (filter _ _) as [|r l] eqn:E; [cbn in H; lia|].
      assert (r ∈ filter (λ r, test (hasStatus pending) q r) (messageQueue q)) as Hin
        by (rewrite E; left).
      apply list_elem_of_filter in Hin as [Ht ?].
      apply Is_true_true, test_true in Ht as (m & Hm & Hs).
      exists r, m. split_and!; [done..|]. by apply bool_decide_eq_true in Hs.
    + destruct (conversationQueue q); [cbn in H; lia|done].
  - done.
  - intros Hv. cbn [getQueueStatus s_pending s_processing s_failed].
    rewrite (status_counts pending q), (status_counts processing q),
      (status_counts failed q), (status_counts completed q).
    pose proof (length_filter_partition q (messageQueue q) Hv). lia.
Qed.

Lemma getQueueStatus_agrees_with_hasQueuedItems_witness :
  s_pending (getQueueStatus sixQueued) + s_processing (getQueueStatus sixQueued)
  + s_failed (getQueueStatus sixQueued) + n_completed (messageStatus sixQueued)
  = length (messageQueue sixQueued).
Proof.
  destruct (getQueueStatus_agrees_with_hasQueuedItems sixQueued) as (_ & _ & H).
  apply H. intros r Hr. vm_compute in Hr. vm_compute.
  repeat (apply elem_of_cons in Hr as [->|Hr]; [lia|]). by apply elem_of_nil in Hr.
Defined.

(** X12: [clearFailedMessages] returns the [failed] tally of [getQueueStatus],
    shortens the message list by exactly that many items, and leaves a
    queue whose status reports no [failed] item and the same [pending],
    [processing] and [conversations] as before; cleared again, it returns
    zero. *)
Theorem clearFailedMessages_returns_failed_count (w : bool) (q : MessageQueue) :
  let q' := (clearFailedMessages w q).2 in
  (clearFailedMessages w q).1 = s_failed (getQueueStatus q)
  ∧ ((∀ r, r ∈ messageQueue q → r < length (objects q)) →
     length (messageQueue q') + s_failed (getQueueStatus q)
     = length (messageQueue q))
  ∧ s_failed (getQueueStatus q') = 0
  ∧ s_pending (getQueueStatus q') = s_pending (getQueueStatus q)
  ∧ s_processing (getQueueStatus q') = s_processing (getQueueStatus q)
  ∧ s_conversations (getQueueStatus q') = s_conversations (getQueueStatus q)
  ∧ messageQueue q' `sublist_of` messageQueue q
  ∧ ∀ w', (clearFailedMessages w' q').1 = 0.
Proof.
  intros q'.
  set (q1 := with_messageQueue q
               (filter (λ r, test (λ m, negb (hasStatus failed m)) q r) (messageQueue q))).
  assert (q' = saveToStorage w q1) as Hq' by done.
  destruct (saveToStorage_fields w q1) as (Ho & Hmq & Hcq & _).
  rewrite <- Hq' in Ho, Hmq, Hcq.
  assert (objects q' = objects q) as Ho' by done.
  assert (messageQueue q'
          = filter (λ r, test (λ m, negb (hasStatus failed m)) q r) (messageQueue q))
    as Hmq' by done.
  assert (∀ s, length (filter (λ r, test (hasStatus s) q' r) (messageQueue q'))
               = if decide (s = failed) then 0
                 else length (filter (λ r, test (hasStatus s) q r) (messageQueue q)))
    as Hcount.
  { intros s. rewrite Hmq'.
    assert (∀ r, test (hasStatus s) q' r = test (hasStatus s) q r) as Ht
      by (intros r; unfold test; by rewrite Ho').
    erewrite (list_filter_iff _ (λ r, test (hasStatus s) q r));
      [|intros r; by rewrite Ht].
    destruct (decide (s = failed)) as [->|Hne].
    - rewrite filter_none; [done|]. intros r [Hr _]%list_elem_of_filter Hf.
      apply Is_true_true, test_true in Hr as (m & Hm & Hr).
      apply Is_true_true, test_true in Hf as (m' & Hm' & Hf).
      rewrite Hm in Hm'. injection Hm' as <-. by rewrite Hf in Hr.
    - f_equal. apply (filter_filter_implied (test (hasStatus s) q)).
      intros r (m & Hm & Hs)%test_true. apply test_true. exists m. split; [done|].
      unfold hasStatus in *. apply bool_decide_eq_true in Hs.
      rewrite bool_decide_eq_false_2; [done|congruence]. }
  assert ((clearFailedMessages w q).1 = s_failed (getQueueStatus q)) as Hret.
  { cbn [getQueueStatus s_failed]. by rewrite (status_counts failed q). }
  split_and!.
  - done.
  - intros Hv. cbn [getQueueStatus s_failed].
    rewrite (status_counts failed q), Hmq'. by apply length_filter_failed.
  - cbn [getQueueStatus s_failed]. rewrite (status_counts failed q'), Hcount.
    by rewrite decide_True.
  - cbn [getQueueStatus s_pending].
    rewrite (status_counts pending q'), (status_counts pending q), Hcount.
    by rewrite decide_False.
  - cbn [getQueueStatus s_processing].
    rewrite (status_counts processing q'), (status_counts processing q), Hcount.
    by rewrite decide_False.
  - cbn [getQueueStatus s_conversations]. by rewrite Hcq.
  - rewrite Hmq'. apply sublist_filter.
  - intros w'. cbn [clearFailedMessages fst]. rewrite Hcount. by rewrite decide_True.
Qed.

Lemma clearFailedMessages_returns_failed_count_witness :
  length (messageQueue (clearFailedMessages true demoMixed).2)
  + s_failed (getQueueStatus demoMixed)
  = length (messageQueue demoMixed).
Proof.
  destruct (clearFailedMessages_returns_failed_count true demoMixed)
    as (_ & H & _).
  apply H. intros r Hr. vm_compute in Hr. vm_compute.
  repeat (apply elem_of_cons in Hr as [->|Hr]; [lia|]). by apply elem_of_nil in Hr.
Defined.

Lemma queueMessage_fields gid now w md token prio M :
  let M' := queueMessage gid now w md token prio M in
  let go := isOnline (queue M) && negb (isProcessing (queue M)) in
  objects (queue M')
  = objects (queue M) ++ [mkQueuedMessage gid md token now 0 prio pending]
  ∧ messageQueue (queue M')
    = (if decide (prio = high)
       then length (objects (queue M)) :: messageQueue (queue M)
       else messageQueue (queue M) ++ [length (objects (queue M))])
  ∧ conversationQueue (queue M') = conversationQueue (queue M)
  ∧ isOnline (queue M') = isOnline (queue M)
  ∧ isProcessing (queue M') = isProcessing (queue M) || isOnline (queue M)
  ∧ calls M' = calls M
  ∧ started M' = (if go then S (started M) else started M)
  ∧ passes M'
    = (if go then passes M ++ [(started M, AwaitImportConversationManager)]
       else passes M).
Proof.
  intros M' go. unfold M', go, queueMessage. cbn zeta.
  destruct (enqueue_fields gid now w md token prio (queue M))
    as (Ho & Hq & Hc & Hp & Hon).
  cbn [with_queue queue]. rewrite Hon, Hp. unfold processQueue.
  cbn [with_queue queue passes started calls]. rewrite Hon, Hp.
  destruct (isOnline (queue M)), (isProcessing (queue M)); cbn;
    rewrite ?Hon, ?Hp; split_and!; first [assumption|reflexivity].
Qed.

(** X13: [batchPersistMessages] queues its messages in the order given, behind
    everything already in the list, each as a [pending] item of priority
    [medium] with retry count zero carrying the caller's token; it calls
    the Remote Writer for none of them itself, and starts at most one pass:
    the first [queueMessage] starts it when the page is online and idle,
    and the others find it running. *)
Theorem batchPersistMessages_appends_in_order
    (items : list (string * Z * bool * MessageData)) (token : string)
    (M : Machine) :
  let M' := batchPersistMessages items token M in
  objects (queue M') = objects (queue M) ++ (batchItem token <$> items)
  ∧ messageQueue (queue M')
    = messageQueue (queue M) ++ seq (length (objects (queue M))) (length items)
  ∧ conversationQueue (queue M') = conversationQueue (queue M)
  ∧ calls M' = calls M
  ∧ started M'
    = (if bool_decide (items ≠ []) && isOnline (queue M)
          && negb (isProcessing (queue M))
       then S (started M) else started M).
Proof.
  unfold batchPersistMessages. revert M.
  induction items as [|[[[gid now] w] md] items IH]; intros M; cbn [foldl].
  - cbn. rewrite !app_nil_r. by split_and!.
  - destruct (queueMessage_fields gid now w md token medium M)
      as (Ho & Hq & Hc & Hon & Hp & Hcs & Hst & _). cbn zeta in *.
    rewrite decide_False in Hq by done.
    destruct (IH (queueMessage gid now w md token medium M))
      as (Ho' & Hq' & Hc' & Hcs' & Hst').
    cbn zeta in *. rewrite Ho', Hq', Hc', Hcs', Hst'.
    rewrite Ho, Hq, Hc, Hcs, Hst, Hon, Hp. rewrite length_app. cbn.
    rewrite <- !app_assoc. cbn. rewrite Nat.add_1_r.
    split_and!; [done..|].
    destruct (isOnline (queue M)), (isProcessing (queue M)); cbn;
      by rewrite ?andb_false_r.
Qed.

(** ** The page while it is offline *)







(** ** A message that has been delivered *)

Lemma survives_completed m : status m = completed → survives m = false.
Proof. unfold survives, hasStatus. by intros ->. Qed.









(** ** Conversation updates *)

Lemma cappedQueue_save w q : cappedQueue q → cappedQueue (saveToStorage w q).
Proof.
  intros [Hq Hs]. destruct w; [|done]. split; [done|].
  cbn. by intros stored [= <-].
Qed.

Lemma cappedQueue_same q q' :
  conversationQueue q' = conversationQueue q → localStorage q' = localStorage q →
  cappedQueue q → cappedQueue q'.
Proof. intros Hc Hl [Hq Hs]. split; by rewrite ?Hc, ?Hl. Qed.

Lemma cappedQueue_nextMessage w batch :
  ∀ q, cappedQueue q → cappedQueue (nextMessage w batch q).1.1.
Proof.
  induction batch as [|r rest IH]; intros q Hq; cbn [nextMessage].
  - cbn [fst]. unfold finishPass. apply cappedQueue_save.
    by apply (cappedQueue_same q).
  - set (q1 := mutate (set_status processing) r q).
    assert (cappedQueue q1) as Hq1 by by apply (cappedQueue_same q).
    destruct (objects q1 !! r); [done|]. by apply IH.
Qed.

Lemma rewriteTokens_conversationQueue w oldToken newToken q :
  conversationQueue (rewriteTokens w oldToken newToken q).2
  = rewriteUpdate oldToken newToken <$> conversationQueue q.
Proof.
  unfold rewriteTokens. destruct (foldl _ _ _) as [n1 objs]. cbn [snd].
  destruct (0 <? _); [|done].
  by destruct (saveToStorage_fields w
    (with_conversationQueue (with_objects q objs)
       (rewriteUpdate oldToken newToken <$> conversationQueue q)))
    as (_ & _ & -> & _).
Qed.

Lemma cappedQueue_rewriteTokens w oldToken newToken q :
  cappedQueue q → cappedQueue (rewriteTokens w oldToken newToken q).2.
Proof.
  intros [Hq Hs].
  assert (Forall capped (conversationQueue (rewriteTokens w oldToken newToken q).2))
    as Hq'.
  { rewrite rewriteTokens_conversationQueue. apply Forall_fmap.
    eapply Forall_impl; [exact Hq|]. intros u Hu. unfold compose, rewriteUpdate.
    destruct (matchesOld oldToken (u_authToken u)); exact Hu. }
  split; [done|].
  destruct (rewriteTokens_fields w oldToken newToken q)
    as (_ & _ & _ & _ & [->| ->]); [done|].
  by intros stored [= <-].
Qed.

Lemma updatesBounded_processQueue M :
  updatesBounded M → updatesBounded (processQueue M).
Proof.
  intros (Hq & Hp & Hs & Hc). unfold processQueue.
  destruct (isProcessing (queue M) || negb (isOnline (queue M))); [done|].
  split_and!; cbn [queue passes calls]; [done| |done|done].
  intros n ph [?|[= -> ->]%list_elem_of_singleton]%elem_of_app;
    [by apply (Hp n ph)|done].
Qed.

Lemma updatesBounded_with_queue M q' :
  updatesBounded M → cappedQueue q' → updatesBounded (with_queue M q').
Proof. intros (_ & Hp & _ & Hc) [Hq Hs]. by split_and!. Qed.

Lemma updatesBounded_cappedQueue M : updatesBounded M → cappedQueue (queue M).
Proof. by intros (Hq & _ & Hs & _). Qed.

Lemma nextUpdate_held updates :
  updatesHeld (nextUpdate updates).1 = updates
  ∧ (nextUpdate updates).2
    = from_option (λ u, [UpdateConversation u]) [] (head updates).
Proof. by destruct updates. Qed.

Lemma nextMessage_no_update w batch q c :
  c ∈ (nextMessage w batch q).2 → ∀ u, c ≠ UpdateConversation u.
Proof.
  revert q. induction batch as [|r rest IH]; intros q; cbn [nextMessage].
  - by intros ?%elem_of_nil.
  - set (q1 := mutate (set_status processing) r q).
    destruct (objects q1 !! r) as [m|] eqn:Hm; [|apply IH].
    cbn [snd]. unfold persistCall. rewrite Hm.
    by intros ->%list_elem_of_singleton.
Qed.

Lemma nextMessage_held w batch q ph :
  (nextMessage w batch q).1.2 = Some ph → updatesHeld ph = [].
Proof.
  revert q. induction batch as [|r rest IH]; intros q; cbn [nextMessage]; [done|].
  set (q1 := mutate (set_status processing) r q).
  destruct (objects q1 !! r) as [m|]; [|apply IH]. by intros [= <-].
Qed.

Lemma updatesBounded_settlePass i ok w M :
  updatesBounded M → updatesBounded (settlePass i ok w M).
Proof.
  intros HB. pose proof HB as (Hq & Hp & Hs & Hc). unfold settlePass.
  destruct (passes M !! i) as [[n ph]|] eqn:Hi; [|done].
  pose proof (Hp n ph (list_elem_of_lookup_2 _ _ _ Hi)) as Hheld.
  assert (cappedQueue (resume ok w ph (queue M)).1.1
          ∧ (∀ ph', (resume ok w ph (queue M)).1.2 = Some ph' →
               Forall capped (updatesHeld ph'))
          ∧ (∀ u, UpdateConversation u ∈ (resume ok w ph (queue M)).2 →
               capped u)) as (Hq1 & Hnext & Hcs).
  { pose proof (updatesBounded_cappedQueue M HB) as HQ.
    assert (cappedQueue (finishPass w (queue M))) as Hfin.
    { unfold finishPass. apply cappedQueue_save. by apply (cappedQueue_same (queue M)). }
    destruct ph as [|u rest| |r md rest]; cbn [resume].
    - destruct ok; [|by split_and!; [done|done|intros u ?%elem_of_nil]].
      unfold spliceUpdates.
      destruct (nextUpdate_held (take batchSize (conversationQueue (queue M))))
        as [Hh Hcalls].
      destruct (nextUpdate _) as [ph' cs']. cbn [fst snd] in *.
      assert (Forall capped (take batchSize (conversationQueue (queue M)))) as Ht
        by by apply Forall_take.
      split_and!.
      + split; [by apply Forall_drop|apply HQ].
      + intros ? [= <-]. by rewrite Hh.
      + rewrite Hcalls. destruct (take batchSize _) as [|u0 l]; cbn;
          [by intros u ?%elem_of_nil|].
        intros u [= ->]%list_elem_of_singleton. by apply Forall_cons in Ht as [? _].
    - cbn in Hheld. apply Forall_cons in Hheld as [Hu Hrest].
      destruct (nextUpdate_held rest) as [Hh Hcalls].
      destruct (nextUpdate rest) as [ph' cs']. cbn [fst snd] in *.
      split_and!.
      + unfold settleUpdate. destruct ok; [done|].
        destruct (Nat.ltb_spec (u_retryCount u) maxRetries); [|done].
        split; [|apply HQ]. cbn. apply Forall_app. split; [done|].
        apply Forall_singleton. unfold capped in *. cbn. lia.
      + intros ? [= <-]. by rewrite Hh.
      + rewrite Hcalls. destruct rest as [|u0 l]; cbn;
          [by intros u' ?%elem_of_nil|].
        intros u' [= ->]%list_elem_of_singleton. by apply Forall_cons in Hrest as [? _].
    - destruct ok; [|by split_and!; [done|done|intros u ?%elem_of_nil]].
      split_and!.
      + by apply cappedQueue_nextMessage.
      + intros ph' Hph'. by rewrite (nextMessage_held _ _ _ _ Hph').
      + intros u Hu. by destruct (nextMessage_no_update _ _ _ _ Hu u).
    - set (q' := mutate (settle (persistMessage md ok)) r (queue M)).
      split_and!.
      + apply cappedQueue_nextMessage. by apply (cappedQueue_same (queue M)).
      + intros ph' Hph'. by rewrite (nextMessage_held _ _ _ _ Hph').
      + intros u Hu. by destruct (nextMessage_no_update _ _ _ _ Hu u). }
  destruct (resume ok w ph (queue M)) as [[q1 next] cs]. cbn [fst snd] in *.
  destruct Hq1 as [Hq1 Hs1]. split_and!; cbn [queue passes calls]; [done| |done|].
  - intros k p Hkp. destruct next as [ph'|].
    + apply elem_of_insert_inv in Hkp as [[= -> ->]|Hkp]; [by apply Hnext|].
      by apply (Hp k p).
    + apply list_elem_of_delete_inv in Hkp. by apply (Hp k p).
  - intros k u [Hin|Hin]%elem_of_app; [by apply (Hc k u)|].
    apply list_elem_of_fmap in Hin as (c & [= -> <-] & Hin). by apply Hcs.
Qed.

Lemma updatesBounded_handle e M : updatesBounded M → updatesBounded (handle e M).
Proof.
  intros HB. pose proof (updatesBounded_cappedQueue M HB) as HQ.
  destruct e; cbn [handle].
  - unfold queueMessage. cbn zeta.
    assert (updatesBounded
              (with_queue M (enqueue gid now w md token prio (queue M)))) as HB'.
    { apply updatesBounded_with_queue; [done|]. unfold enqueue. cbn zeta.
      apply cappedQueue_save. apply (cappedQueue_same (queue M)); [|by case_decide|done].
      by case_decide. }
    destruct (isOnline _ && negb _); [|done]. by apply updatesBounded_processQueue.
  - apply updatesBounded_with_queue; [done|]. unfold queueConversationUpdate.
    apply cappedQueue_save. destruct HQ as [Hq Hs]. split; [|done]. cbn.
    apply Forall_app. split; [done|]. apply Forall_singleton. unfold capped. cbn. lia.
  - unfold tick. destruct (_ && _); [|done]. by apply updatesBounded_processQueue.
  - apply updatesBounded_processQueue. by apply updatesBounded_with_queue.
  - by apply updatesBounded_with_queue.
  - unfold updateAuthTokens.
    pose proof (cappedQueue_rewriteTokens w oldToken newToken (queue M) HQ) as HQ'.
    destruct (rewriteTokens w oldToken newToken (queue M)) as [k q1]. cbn [snd] in *.
    assert (updatesBounded (with_queue M q1)) as HB'
      by by apply updatesBounded_with_queue.
    destruct (_ && _); [|done]. by apply updatesBounded_processQueue.
  - by apply updatesBounded_processQueue.
  - apply updatesBounded_with_queue; [done|]. unfold clearFailedMessages. cbn [snd].
    apply cappedQueue_save. by apply (cappedQueue_same (queue M)).
  - by apply updatesBounded_settlePass.
  - destruct HB as (_ & _ & Hs & _). unfold boot, construct, loadFromStorage.
    cbn [localStorage].
    destruct (localStorage (queue M)) as [stored|] eqn:Hl;
      split_and!; cbn; try done; try (by intros ? ? ?%elem_of_nil).
    all: try (by apply Hs); try (intros ? [= <-]; by apply Hs).
Qed.

Lemma reachable_updatesBounded M : reachable M → updatesBounded M.
Proof.
  induction 1 as [online|e M _ IH]; [|by apply updatesBounded_handle].
  split_and!; cbn; try done; by intros ? ? ?%elem_of_nil.
Qed.

(** X16: The retry ceiling of conversation updates.  An update whose write is
    refused goes back to the tail of the queue with its retry count raised
    by one while that count is below 3, and is dropped once it has reached
    3; an accepted one is not put back.  So on every page that started with
    nothing stored, no update in the queue, in the hands of a pass, in
    [localStorage] or in a call already made has a retry count above 3; and
    a pass that nothing interleaves with leaves the updates it did not take
    (those behind the first 5) in front of the ones it puts back. *)
Theorem conversation_update_retry_ceiling :
  (∀ ok u q,
     conversationQueue (settleUpdate ok u q)
     = conversationQueue q
       ++ (if ok then []
           else if u_retryCount u <? maxRetries
                then [u_set_retryCount (S (u_retryCount u)) u] else [])
     ∧ objects (settleUpdate ok u q) = objects q
     ∧ messageQueue (settleUpdate ok u q) = messageQueue q)
  ∧ (∀ M, reachable M → updatesBounded M)
  ∧ (∀ env q,
       isProcessing q = false → isOnline q = true →
       importConversationManager env = true →
       conversationQueue (drainPass env q).1
       = drop batchSize (conversationQueue q)
         ++ requeued (updateConversationOk env) 0
              (take batchSize (conversationQueue q))
       ∧ Forall (λ u, 0 < u_retryCount u)
           (requeued (updateConversationOk env) 0
              (take batchSize (conversationQueue q)))).
Proof.
  split_and!.
  - intros ok u q. destruct (settleUpdate_fields ok u q) as (-> & -> & _).
    split; [|done]. unfold settleUpdate. destruct ok; [by rewrite app_nil_r|].
    destruct (_ <? _); [done|by rewrite app_nil_r].
  - apply reachable_updatesBounded.
  - intros env q Hp Ho Himp. split.
    + rewrite (drainPass_run env q Hp Ho). cbn zeta. rewrite Himp.
      destruct (importMessagePersistence env); cbn [fst].
      * destruct (finishPass_fields (setItemOk env)
                    (prune (persistLoop (responseOk env) 0 (selectPending q)
                       (with_conversationQueue (with_isProcessing q true)
                          (drop batchSize (conversationQueue q)
                           ++ requeued (updateConversationOk env) 0
                                (take batchSize (conversationQueue q))))).1))
          as (_ & _ & -> & _).
        change (conversationQueue (prune ?x)) with (conversationQueue x).
        by destruct (persistLoop_frame (responseOk env) 0 (selectPending q)
                       (with_conversationQueue (with_isProcessing q true)
                          (drop batchSize (conversationQueue q)
                           ++ requeued (updateConversationOk env) 0
                                (take batchSize (conversationQueue q)))))
          as (_ & -> & _).
      * by destruct (finishPass_fields (setItemOk env)
                       (with_conversationQueue (with_isProcessing q true)
                          (drop batchSize (conversationQueue q)
                           ++ requeued (updateConversationOk env) 0
                                (take batchSize (conversationQueue q)))))
          as (_ & _ & -> & _).
    + generalize 0 at 2. induction (take batchSize (conversationQueue q)) as [|u l IH];
        intros i; cbn [requeued]; [done|].
      apply Forall_app. split; [|apply IH].
      destruct (updateConversationOk env i); [done|].
      destruct (_ <? _); [|done]. apply Forall_singleton. cbn. lia.
Qed.

Lemma conversation_update_retry_ceiling_witness :
  updatesBounded demoUpdates
  ∧ conversationQueue (queue (settlePass 0 false true demoUpdates))
    = [u_set_retryCount 1 (demoUpdate 1)].
Proof.
  destruct conversation_update_retry_ceiling as (Hset & Hinv & _).
  split.
  - apply Hinv. apply reachable_run, reachable_boot.
  - destruct (Hset false (demoUpdate 1) (queue demoUpdates)) as [H _].
    exact H.
Defined.

(** ** The queue empties itself *)

Lemma sum_list_with_filter {A} (f : A → nat) (P : A → bool) (l : list A) :
  sum_list_with f (filter (λ x, P x) l)
  = sum_list_with (λ x, if P x then f x else 0) l.
Proof.
  induction l as [|x l IH]; [done|].
  rewrite filter_cons_bool. cbn [sum_list_with].
  destruct (P x); cbn [sum_list_with]; by rewrite IH.
Qed.

Lemma sum_list_with_ext {A} (f g : A → nat) (l : list A) :
  (∀ x, f x = g x) → sum_list_with f l = sum_list_with g l.
Proof.
  intros Hfg. induction l as [|x l IH]; [done|]. cbn [sum_list_with].
  by rewrite Hfg, IH.
Qed.

Lemma sum_list_with_le {A} (f g : A → nat) (l : list A) :
  (∀ x, x ∈ l → f x ≤ g x) →
  sum_list_with f l ≤ sum_list_with g l
  ∧ ((∃ x, x ∈ l ∧ f x < g x) → sum_list_with f l < sum_list_with g l).
Proof.
  induction l as [|x l IH]; intros Hle.
  - split; [done|]. by intros (x & ?%elem_of_nil & _).
  - destruct IH as [IH1 IH2]; [intros y Hy; apply Hle; by right|].
    pose proof (Hle x (list_elem_of_here _ _)) as Hx.
    cbn [sum_list_with]. split; [lia|].
    intros (y & [->|Hy]%elem_of_cons & Hlt); [lia|].
    assert (sum_list_with f l < sum_list_with g l) by (apply IH2; by exists y).
    lia.
Qed.

Lemma attempt_cost ok m :
  status m = pending →
  (if survives (attempt ok m)
   then if hasStatus pending (attempt ok m)
        then attemptsLeft (retryCount (attempt ok m)) else 0
   else 0)
  < attemptsLeft (retryCount m).
Proof.
  intros Hs. rewrite attempt_cases. unfold attemptsLeft.
  destruct (persistMessage (messageData m) ok).
  - rewrite survives_completed by done. lia.
  - destruct (Nat.ltb_spec (retryCount m) maxRetries) as [Hlt|Hge].
    + set (m' := mkQueuedMessage _ _ _ _ _ _ _).
      assert (survives m' = true) as -> by done.
      assert (hasStatus pending m' = true) as -> by done.
      unfold m'. cbn [retryCount]. unfold maxRetries in *. lia.
    + rewrite survives_failed by done. lia.
Qed.

Lemma drainPass_fields env q :
  isProcessing q = false → isOnline q = true →
  isProcessing (drainPass env q).1 = false
  ∧ isOnline (drainPass env q).1 = true
  ∧ messageQueue (drainPass env q).1 `sublist_of` messageQueue q.
Proof.
  intros Hp Ho. rewrite (drainPass_run env q Hp Ho). cbn zeta.
  assert (∀ x, isOnline x = true → messageQueue x `sublist_of` messageQueue q →
            isProcessing (finishPass (setItemOk env) x) = false
            ∧ isOnline (finishPass (setItemOk env) x) = true
            ∧ messageQueue (finishPass (setItemOk env) x) `sublist_of` messageQueue q)
    as Hfin.
  { intros x Hx Hsub.
    by destruct (finishPass_fields (setItemOk env) x) as (_ & -> & _ & -> & ->). }
  destruct (importConversationManager env); [|by apply Hfin].
  destruct (importMessagePersistence env); cbn [fst]; [|by apply Hfin].
  set (q1 := with_conversationQueue _ _).
  destruct (persistLoop_frame (responseOk env) 0 (selectPending q) q1)
    as (Hmq & _ & _ & Hon & _).
  apply Hfin.
  - change (isOnline (prune ?x)) with (isOnline x). by rewrite Hon.
  - destruct (prune_fields (persistLoop (responseOk env) 0 (selectPending q) q1).1)
      as (_ & Hsub & _).
    etrans; [exact Hsub|]. by rewrite Hmq.
Qed.

Lemma drainPass_conversationQueue env q :
  isProcessing q = false → isOnline q = true →
  importConversationManager env = true →
  conversationQueue (drainPass env q).1
  = drop batchSize (conversationQueue q)
    ++ requeued (updateConversationOk env) 0 (take batchSize (conversationQueue q)).
Proof.
  intros Hp Ho Himp. rewrite (drainPass_run env q Hp Ho). cbn zeta. rewrite Himp.
  set (q1 := with_conversationQueue _ _).
  destruct (importMessagePersistence env); cbn [fst].
  - destruct (finishPass_fields (setItemOk env)
                (prune (persistLoop (responseOk env) 0 (selectPending q) q1).1))
      as (_ & _ & -> & _).
    change (conversationQueue (prune ?x)) with (conversationQueue x).
    by destruct (persistLoop_frame (responseOk env) 0 (selectPending q) q1)
      as (_ & -> & _).
  - by destruct (finishPass_fields (setItemOk env) q1) as (_ & _ & -> & _).
Qed.

Lemma requeued_work res us :
  ∀ i, sum_list_with (λ u, attemptsLeft (u_retryCount u)) (requeued res i us)
       + length us
       ≤ sum_list_with (λ u, attemptsLeft (u_retryCount u)) us.
Proof.
  induction us as [|u us IH]; intros i; cbn [requeued]; [done|].
  rewrite sum_list_with_app. cbn [sum_list_with length].
  specialize (IH (S i)). unfold attemptsLeft in *.
  destruct (res i); cbn [sum_list_with]; [lia|].
  destruct (Nat.ltb_spec (u_retryCount u) maxRetries);
    cbn [sum_list_with u_retryCount u_set_retryCount]; unfold maxRetries in *; lia.
Qed.

Lemma updateWork_pass env q :
  isProcessing q = false → isOnline q = true →
  importConversationManager env = true →
  updateWork (drainPass env q).1 + length (take batchSize (conversationQueue q))
  ≤ updateWork q.
Proof.
  intros Hp Ho Himp. unfold updateWork.
  rewrite (drainPass_conversationQueue env q Hp Ho Himp), sum_list_with_app.
  pose proof (requeued_work (updateConversationOk env)
                (take batchSize (conversationQueue q)) 0) as Hreq.
  rewrite <- (take_drop batchSize (conversationQueue q)) at 4.
  rewrite sum_list_with_app. lia.
Qed.

Lemma messageWork_pass env q :
  isProcessing q = false → isOnline q = true → importsOk env →
  NoDup (messageQueue q) →
  messageWork (drainPass env q).1 ≤ messageWork q
  ∧ (selectPending q ≠ [] → messageWork (drainPass env q).1 < messageWork q).
Proof.
  intros Hp Ho [H1 H2] Hnd.
  destruct (drainPass_result env q Hp Ho H1 H2) as (q1 & q2 & Hq1 & Hq2 & Hobj & Hmq).
  assert (messageWork (drainPass env q).1
          = sum_list_with (λ r, if test survives q2 r then messageCost q2 r else 0)
              (messageQueue q)) as ->.
  { unfold messageWork. rewrite Hmq, <- sum_list_with_filter.
    apply sum_list_with_ext. intros r. unfold messageCost. by rewrite Hobj. }
  assert (∀ r, r ∈ messageQueue q →
            (if test survives q2 r then messageCost q2 r else 0) ≤ messageCost q r
            ∧ (r ∈ selectPending q →
               (if test survives q2 r then messageCost q2 r else 0)
               < messageCost q r)) as Hpoint.
  { intros r Hr. destruct (decide (r ∈ selectPending q)) as [Hsel|Hsel].
    - apply list_elem_of_lookup in Hsel as [k Hk].
      pose proof (list_elem_of_lookup_2 _ _ _ Hk) as Hsel.
      apply selectPending_spec in Hsel as (_ & m & Hm & Hs).
      assert (objects q2 !! r = Some (attempt (responseOk env (0 + k)) m)) as Hm2.
      { rewrite Hq2, (persistLoop_object _ 0 _ _ k r)
          by auto using selectPending_NoDup.
        by rewrite Hq1, Hm. }
      unfold test, messageCost. rewrite Hm2, Hm. cbn [from_option].
      assert (hasStatus pending m = true) as ->
        by by apply bool_decide_eq_true_2.
      pose proof (attempt_cost (responseOk env (0 + k)) m Hs) as Hc.
      split; [lia|by intros _].
    - assert (objects q2 !! r = objects q !! r) as Hm2.
      { rewrite Hq2, persistLoop_other by done. by rewrite Hq1. }
      split; [|done]. unfold test, messageCost. rewrite Hm2.
      destruct (from_option survives false (objects q !! r)); lia. }
  destruct (sum_list_with_le
              (λ r, if test survives q2 r then messageCost q2 r else 0)
              (messageCost q) (messageQueue q)) as [Hle Hlt].
  { intros r Hr. by apply Hpoint. }
  split; [done|]. intros Hsel. apply Hlt.
  assert (∃ r, r ∈ selectPending q) as [r Hr].
  { destruct (selectPending q) as [|r l]; [done|]. exists r. left. }
  pose proof (elem_of_sublist _ _ _ Hr (selectPending_sublist q)) as Hin.
  exists r. split; [done|]. by apply Hpoint.
Qed.

Lemma messageCost_zero q (l : list nat) :
  filter (λ r, test (hasStatus pending) q r) l = []
  ↔ sum_list_with (messageCost q) l = 0.
Proof.
  induction l as [|r l IH]; [done|].
  rewrite filter_cons_bool. cbn [sum_list_with].
  assert (messageCost q r = 0 ↔ test (hasStatus pending) q r = false) as Hr.
  { unfold messageCost, test. destruct (objects q !! r) as [m|]; cbn [from_option];
      [|done].
    destruct (hasStatus pending m); [|done]. unfold attemptsLeft. split; [lia|done]. }
  destruct (test (hasStatus pending) q r).
  - split; [done|]. intros Hz. assert (messageCost q r = 0) as Hz' by lia.
    by apply Hr in Hz'.
  - rewrite IH. assert (messageCost q r = 0) as -> by by apply Hr. done.
Qed.

Lemma messageWork_zero q :
  selectPending q = [] ↔ messageWork q = 0.
Proof.
  unfold selectPending, messageWork. rewrite <- messageCost_zero.
  destruct (filter _ _); [done|]. by cbn.
Qed.

Lemma updateWork_zero q : conversationQueue q = [] ↔ updateWork q = 0.
Proof.
  unfold updateWork. split; [by intros ->|].
  destruct (conversationQueue q); [done|]. cbn. unfold attemptsLeft. lia.
Qed.

Lemma workLeft_pass env q :
  isProcessing q = false → isOnline q = true → importsOk env →
  NoDup (messageQueue q) →
  workLeft (drainPass env q).1 ≤ pred (workLeft q).
Proof.
  intros Hp Ho Himp Hnd. pose proof Himp as [H1 _].
  destruct (messageWork_pass env q Hp Ho Himp Hnd) as [Hm Hm'].
  pose proof (updateWork_pass env q Hp Ho H1) as Hu.
  unfold workLeft.
  destruct (decide (selectPending q = [])) as [Hsel|Hsel].
  - destruct (conversationQueue q) as [|u l] eqn:Hc.
    + apply messageWork_zero in Hsel.
      assert (updateWork q = 0) by by apply updateWork_zero. lia.
    + cbn in Hu. lia.
  - specialize (Hm' Hsel). lia.
Qed.

(** X17: The queue cannot retry for ever.  Measure the work left in a queue by
    the attempts its items can still get: for every [pending] message and
    every conversation update, one plus the retries it has left.  A pass on
    an online page whose imports resolve takes at least one off that
    measure as long as it is not zero, whatever the Remote Writer answers;
    so after as many passes as the measure, nothing interleaving with them,
    no message is [pending], no update is queued, and [hasQueuedItems] is
    false: every item has been delivered or given up. *)
Theorem queue_drains_in_bounded_passes :
  (∀ env q,
     isProcessing q = false → isOnline q = true → importsOk env →
     NoDup (messageQueue q) →
     workLeft (drainPass env q).1 ≤ pred (workLeft q))
  ∧ (∀ envs q,
       isProcessing q = false → isOnline q = true → NoDup (messageQueue q) →
       Forall importsOk envs →
       workLeft q ≤ length envs →
       hasQueuedItems (drainAll envs q) = false
       ∧ selectPending (drainAll envs q) = []
       ∧ conversationQueue (drainAll envs q) = []).
Proof.
  split; [apply workLeft_pass|].
  intros envs. induction envs as [|env envs IH]; intros q Hp Ho Hnd Himp Hwork.
  - cbn in Hwork. unfold workLeft in Hwork. cbn [drainAll foldl].
    assert (selectPending q = []) as Hsel by (apply messageWork_zero; lia).
    assert (conversationQueue q = []) as Hc by (apply updateWork_zero; lia).
    split_and!; [|done|done].
    apply not_true_is_false. rewrite hasQueuedItems_spec.
    intros [(r & m & Hr & Hm & Hs)|?]; [|done].
    assert (messageWork q ≠ 0); [|lia].
    rewrite <- messageWork_zero. unfold selectPending.
    assert (r ∈ filter (λ r, test (hasStatus pending) q r) (messageQueue q)) as Hin.
    { apply list_elem_of_filter. split; [|done].
      apply Is_true_true, test_true. exists m. split; [done|].
      by apply bool_decide_eq_true. }
    destruct (filter _ _); [by apply elem_of_nil in Hin|done].
  - apply Forall_cons in Himp as [He Himp]. cbn [drainAll foldl].
    destruct (drainPass_fields env q Hp Ho) as (Hp' & Ho' & Hsub).
    apply IH; [done|done| |done|].
    + by eapply sublist_NoDup.
    + pose proof (workLeft_pass env q Hp Ho He Hnd). cbn in Hwork. lia.
Qed.

Lemma queue_drains_in_bounded_passes_witness :
  hasQueuedItems (drainAll (replicate 4 allFail) oneQueued) = false
  ∧ workLeft (drainPass allFail oneQueued).1 ≤ pred (workLeft oneQueued).
Proof.
  destruct queue_drains_in_bounded_passes as [Hstep Hall].
  assert (NoDup (messageQueue oneQueued)) as Hnd
    by (vm_compute; apply NoDup_singleton).
  split.
  - apply (Hall (replicate 4 allFail) oneQueued eq_refl eq_refl Hnd).
    + repeat constructor.
    + vm_compute. lia.
  - apply (Hstep allFail oneQueued eq_refl eq_refl); [by split|exact Hnd].
Defined.

(** ** Token refresh *)

Lemma sameTokens_refl q : sameTokens q q.
Proof. intros r m Hm. by exists m. Qed.

Lemma sameTokens_trans q1 q2 q3 :
  sameTokens q1 q2 → sameTokens q2 q3 → sameTokens q1 q3.
Proof.
  intros H12 H23 r m3 Hm3. destruct (H23 r m3 Hm3) as (m2 & Hm2 & ->).
  destruct (H12 r m2 Hm2) as (m1 & Hm1 & ->). by exists m1.
Qed.

Lemma sameTokens_objects q q' : objects q' = objects q → sameTokens q q'.
Proof. intros Ho r m Hm. exists m. by rewrite <- Ho. Qed.

Lemma sameTokens_mutate f r q :
  (∀ m, authToken (f m) = authToken m) → sameTokens q (mutate f r q).
Proof.
  intros Hf r' m'. rewrite mutate_lookup. destruct (decide (r = r')) as [->|Hne].
  - destruct (objects q !! r') as [m|]; [|done]. intros [= <-]. by exists m.
  - intros Hm. by exists m'.
Qed.


(** A step into the message loop: the objects keep their tokens, the list
    is the same while the pass goes on, the pass holds a part of its batch,
    and what it sends carries the token of the object it is sent for. *)
Lemma nextMessage_tokens w batch :
  ∀ q,
    sameTokens q (nextMessage w batch q).1.1
    ∧ messageQueue (nextMessage w batch q).1.1 `sublist_of` messageQueue q
    ∧ (∀ ph, (nextMessage w batch q).1.2 = Some ph →
         messageQueue (nextMessage w batch q).1.1 = messageQueue q
         ∧ ∀ r, awaits ph r ∨ r ∈ remaining ph → r ∈ batch)
    ∧ (∀ r md t rc, PersistMessage r md t rc ∈ (nextMessage w batch q).2 →
         r ∈ batch ∧ ∃ m, objects q !! r = Some m ∧ t = authToken m).
Proof.
  induction batch as [|r rest IH]; intros q; cbn [nextMessage].
  - cbn [fst snd]. destruct (finishPass_fields w (prune q)) as (Ho & -> & _).
    destruct (prune_fields q) as (Ho' & Hsub & _).
    split_and!; [|done|done|by intros ? ? ? ? ?%elem_of_nil].
    apply sameTokens_objects. by rewrite Ho.
  - set (q1 := mutate (set_status processing) r q).
    assert (sameTokens q q1) as Hq1 by by apply sameTokens_mutate.
    destruct (objects q1 !! r) as [m|] eqn:Hm.
    + cbn [fst snd]. split_and!; [done|done| |].
      * intros ph [= <-]. split; [done|]. cbn.
        intros r' [->|Hr']; [left|by right].
      * unfold persistCall. rewrite Hm.
        intros r' md t rc [= -> _ -> _]%list_elem_of_singleton.
        destruct (Hq1 r m Hm) as (m0 & Hm0 & Ht). split; [left|by exists m0].
    + destruct (IH q1) as (H1 & H2 & H3 & H4). split_and!.
      * by eapply sameTokens_trans.
      * done.
      * intros ph Hph. destruct (H3 ph Hph) as [Hmq Hin]. split; [done|].
        intros r' Hr'. right. by apply Hin.
      * intros r' md t rc Hc.
        destruct (H4 r' md t rc Hc) as (Hr' & m & Hm' & Ht).
        split; [by right|]. destruct (Hq1 r' m Hm') as (m0 & Hm0 & Ht0).
        exists m0. split; [done|congruence].
Qed.





Lemma nextMessage_listed w batch q ph r :
  (∀ r, r ∈ batch → r ∈ messageQueue q) →
  (nextMessage w batch q).1.2 = Some ph → awaits ph r ∨ r ∈ remaining ph →
  r ∈ messageQueue (nextMessage w batch q).1.1.
Proof.
  intros Hb Hph Hr. destruct (nextMessage_tokens w batch q) as (_ & _ & H3 & _).
  destruct (H3 ph Hph) as [-> Hin]. by apply Hb, Hin.
Qed.















(** X19: What the refresh misses.  The updates a running pass has already taken
    out of the queue (the one it is waiting for and those it has still to
    send) are held by the pass alone, so [updateAuthTokens] does not reach
    them: the pass sends the next one as it was taken, and when the write
    it is waiting for is refused it puts the update back into the queue
    with the token it had before the refresh. *)
Theorem refresh_misses_updates_in_flight :
  ∀ M n u rest w oldToken tok,
    reachable M → passes M = [(n, AwaitUpdateConversation u rest)] →
    let M1 := updateAuthTokens w oldToken tok M in
    passes M1 = [(n, AwaitUpdateConversation u rest)]
    ∧ calls M1 = calls M
    ∧ (∀ ok w',
         calls (settlePass 0 ok w' M1)
         = calls M
           ++ from_option (λ u', [(n, UpdateConversation u')]) [] (head rest))
    ∧ (∀ w', u_retryCount u < maxRetries →
         last (conversationQueue (queue (settlePass 0 false w' M1)))
         = Some (u_set_retryCount (S (u_retryCount u)) u)).
Proof.
  intros M n u rest w oldToken tok HM Hpass M1.
  pose proof (reachable_invariant M HM) as HI.
  destruct (inv_onePass M HI) as [[Hnil _]|(n' & ph' & _ & Hp & _)];
    [congruence|].
  assert (∃ q1, M1 = with_queue M q1) as [q1 HM1].
  { unfold M1, updateAuthTokens.
    destruct (rewriteTokens_fields w oldToken tok (queue M)) as (_ & _ & Hp' & _).
    destruct (rewriteTokens w oldToken tok (queue M)) as [k q1]. cbn [snd] in Hp'.
    exists q1. destruct (_ && _); [|done]. unfold processQueue.
    cbn [with_queue queue]. by rewrite Hp', Hp. }
  rewrite HM1. cbn [with_queue passes calls queue].
  split_and!; [done|done| |].
  - intros ok w'. unfold settlePass. cbn [with_queue passes queue started calls].
    rewrite Hpass.
    cbn [lookup list_lookup resume].
    destruct (nextUpdate_held rest) as [_ Hcalls].
    destruct (nextUpdate rest) as [ph'' cs']. cbn [snd] in Hcalls. cbn [calls].
    rewrite Hcalls. by destruct rest.
  - intros w' Hrc. unfold settlePass. cbn [with_queue passes queue started calls].
    rewrite Hpass.
    cbn [lookup list_lookup resume]. destruct (nextUpdate rest) as [ph'' cs'].
    cbn [queue]. unfold settleUpdate.
    destruct (Nat.ltb_spec (u_retryCount u) maxRetries); [|lia].
    cbn [conversationQueue with_conversationQueue]. apply last_snoc.
Qed.

Lemma refresh_misses_updates_in_flight_witness :
  last (conversationQueue
          (queue (settlePass 0 false true
                    (updateAuthTokens true None "fresh" demoUpdates))))
  = Some (u_set_retryCount 1 (demoUpdate 1)).
Proof.
  destruct (refresh_misses_updates_in_flight demoUpdates 0 (demoUpdate 1)
              [demoUpdate 2] true None "fresh"%string) as (_ & _ & _ & H).
  - apply reachable_run, reachable_boot.
  - reflexivity.
  - apply (H true). vm_compute. lia.
Defined.

(** ** Tail insertion and the order of a pass *)

Lemma ordered_fresh a b l : b ∉ l → ordered a b l.
Proof.
  intros Hb l1 l2 -> _. apply Hb. apply elem_of_app. right. by left.
Qed.

Lemma ordered_last a b l : b ∉ l → ordered a b (l ++ [b]).
Proof.
  intros Hb l1 l2 Heq.
  destruct l2 as [|y l2 _] using rev_ind; [apply not_elem_of_nil|].
  rewrite app_comm_cons, app_assoc in Heq.
  apply app_inj_tail in Heq as [-> ->].
  exfalso. apply Hb. apply elem_of_app. right. by left.
Qed.

Lemma fifoInv_processQueue h m M :
  fifoInv h m M → fifoInv h m (processQueue M).
Proof.
  intros (H1 & H2 & Hab & H3 & H4). unfold processQueue.
  destruct (isProcessing (queue M) || negb (isOnline (queue M))); [done|].
  split_and!; [done..|]. intros n. specialize (H4 n).
  unfold batchOf in *. cbn [passes calls]. rewrite flat_map_app. cbn.
  destruct (decide (started M = n)); by rewrite !app_nil_r.
Qed.

Lemma fifoInv_with_queue h m M q' :
  fifoInv h m M →
  length (objects (queue M)) ≤ length (objects q') →
  ordered h m (messageQueue q') →
  fifoInv h m (with_queue M q').
Proof.
  intros (H1 & H2 & Hab & H3 & H4) Hlen Hord.
  split_and!; [cbn; lia|cbn; lia|done|done|done].
Qed.

Lemma fifoInv_settlePass h m i ok w M :
  invariant M → tagged M → fifoInv h m M →
  fifoInv h m (settlePass i ok w M).
Proof.
  intros HI Ht (H1 & H2 & Hab & H3 & H4). unfold settlePass.
  destruct (passes M !! i) as [[n ph]|] eqn:Hi; [|done].
  destruct (inv_onePass M HI) as [[Hnil _]|(n' & ph' & Hpass & _)];
    [by rewrite Hnil in Hi|].
  rewrite Hpass in Hi. destruct i as [|i]; [|done].
  injection Hi as -> ->.
  destruct (resume_shape ok w ph (queue M)) as (Hq & Hlen & Hsh & Hsub).
  destruct (resume ok w ph (queue M)) as [[q1 next] cs]. cbn [fst snd] in *.
  split_and!; cbn [queue calls]; [lia|lia|done|by eapply ordered_sublist|].
  intros k. specialize (H4 k). rewrite persistedIn_app.
  assert (batchOf k (mkMachine q1
            (match next with
             | Some ph' => <[0:=(n, ph')]> (passes M)
             | None => delete 0 (passes M)
             end) (started M) (calls M ++ ((λ c, (n, c)) <$> cs)))
          = if decide (n = k) then from_option remaining [] next else [])
    as ->.
  { rewrite Hpass. unfold batchOf. destruct next as [ph'|]; cbn.
    - by rewrite app_nil_r.
    - by case_decide. }
  assert (batchOf k M = if decide (n = k) then remaining ph else []) as Hb.
  { unfold batchOf. rewrite Hpass. cbn. by rewrite app_nil_r. }
  rewrite Hb in H4. destruct (decide (n = k)) as [->|Hne];
    [|by rewrite !app_nil_r in *].
  rewrite <- app_assoc.
  destruct ph as [|u rest| |r0 md rest].
  1, 2, 4: (eapply ordered_sublist; [|exact H4]; by apply sublist_app).
  rewrite (Ht k AwaitImportMessagePersistence);
    [|rewrite Hpass; left|by intros ? ?].
  cbn [app]. eapply ordered_sublist; [|exact H3].
  etrans; [exact Hsub|apply selectPending_sublist].
Qed.

Lemma fifoInv_handle h m e M :
  invariant M → tagged M → isReload e = false →
  fifoInv h m M → fifoInv h m (handle e M).
Proof.
  intros HI Ht He Hord. pose proof Hord as (H1 & H2 & Hab & H3 & H4).
  destruct e; cbn [handle]; [| | | | | | | | |done].
  - unfold queueMessage. cbn zeta.
    destruct (enqueue_fields gid now w md token prio (queue M))
      as (Ho & Hq & _).
    assert (fifoInv h m
              (with_queue M (enqueue gid now w md token prio (queue M))))
      as Hord'.
    { apply fifoInv_with_queue; [done| |].
      - rewrite Ho, length_app. lia.
      - rewrite Hq. destruct (decide (prio = high)).
        + apply ordered_cons; [lia|done].
        + apply ordered_snoc; [lia|done]. }
    destruct (isOnline _ && negb _); [|done].
    by apply fifoInv_processQueue.
  - unfold queueConversationUpdate. set (q1 := with_conversationQueue _ _).
    destruct (saveToStorage_fields w q1) as (Ho & Hq & _).
    apply fifoInv_with_queue; [done|by rewrite Ho|by rewrite Hq].
  - unfold tick. destruct (_ && _); [|done]. by apply fifoInv_processQueue.
  - apply fifoInv_processQueue. by apply fifoInv_with_queue.
  - by apply fifoInv_with_queue.
  - unfold updateAuthTokens.
    destruct (rewriteTokens_fields w oldToken newToken (queue M))
      as (Hobj & Hq & _).
    destruct (rewriteTokens w oldToken newToken (queue M)) as [k q1].
    cbn [snd] in *.
    assert (fifoInv h m (with_queue M q1)) as Hord'.
    { apply fifoInv_with_queue; [done| |by rewrite Hq].
      by rewrite (Forall2_length _ _ _ Hobj). }
    destruct (_ && _); [|done]. by apply fifoInv_processQueue.
  - by apply fifoInv_processQueue.
  - unfold clearFailedMessages. cbn [snd]. set (q1 := with_messageQueue _ _).
    destruct (saveToStorage_fields w q1) as (Ho & Hq & _).
    apply fifoInv_with_queue; [done|by rewrite Ho|].
    rewrite Hq. eapply ordered_sublist; [|exact H3]. apply sublist_filter.
  - by apply fifoInv_settlePass.
Qed.

Lemma fifoInv_run h m es M :
  invariant M → tagged M → forallb (λ e, negb (isReload e)) es = true →
  fifoInv h m M → fifoInv h m (run es M).
Proof.
  revert M. induction es as [|e es IH]; intros M HI Ht Hes Hord; [done|].
  cbn in Hes. apply andb_true_iff in Hes as [He Hes].
  apply negb_true_iff in He. cbn [run foldl].
  apply IH; [by apply invariant_handle|by apply tagged_handle|done|].
  by apply fifoInv_handle.
Qed.

Lemma fifoInv_enqueue gid now w md token prio M a :
  invariant M → prio ≠ high → a ∈ messageQueue (queue M) →
  fifoInv a (length (objects (queue M)))
    (with_queue M (enqueue gid now w md token prio (queue M))).
Proof.
  intros HI Hp Ha. pose proof HI as [[Hv Hnd] Hone _ _ Hcalls].
  destruct (enqueue_fields gid now w md token prio (queue M))
    as (Ho & Hq & _).
  pose proof (Hv a Ha) as Hlt.
  split_and!; cbn [with_queue queue calls].
  - rewrite Ho, length_app. cbn. lia.
  - rewrite Ho, length_app. cbn. lia.
  - lia.
  - rewrite Hq. destruct (decide (prio = high)); [done|].
    apply ordered_last. intros Hin. apply Hv in Hin. lia.
  - intros n. apply ordered_fresh.
    intros [Hin|Hin]%elem_of_app.
    + apply (persistedIn_valid M) in Hin; [lia|done].
    + unfold batchOf in Hin. cbn [passes with_queue] in Hin.
      destruct Hone as [[Hnil _]|(k & ph & Hpass & _ & _ & Hph)].
      * rewrite Hnil in Hin. by apply elem_of_nil in Hin.
      * rewrite Hpass in Hin. cbn in Hin. rewrite app_nil_r in Hin.
        destruct (decide (k = n)); [|by apply elem_of_nil in Hin].
        destruct ph as [| | |r md' rest]; try by apply elem_of_nil in Hin.
        destruct Hph as (_ & _ & Hrest).
        destruct (Hrest _ Hin) as (m' & Hm' & _).
        apply lookup_lt_Some in Hm'. lia.
Qed.

(** X20: A message queued at any priority but [high] does not overtake: on every
    page that started with nothing stored, once such a message is queued,
    whatever handlers run afterwards and however they interleave (short of
    a reload), no pass calls the Remote Writer for a message that was
    already in the list after having called it for the new one. *)
Theorem later_message_does_not_overtake M gid now w md token prio es a n :
  reachable M → prio ≠ high →
  forallb (λ e, negb (isReload e)) es = true →
  a ∈ messageQueue (queue M) →
  ordered a (length (objects (queue M)))
    (persistedIn n
       (calls (run es (queueMessage gid now w md token prio M)))).
Proof.
  intros HM Hp Hes Ha. pose proof (reachable_invariant _ HM) as HI.
  set (M1 := queueMessage gid now w md token prio M).
  assert (reachable M1) as HM1.
  { apply (reachable_run [QueueMessage gid now w md token prio] M HM). }
  assert (fifoInv a (length (objects (queue M))) M1) as Hord.
  { unfold M1, queueMessage. cbn zeta.
    pose proof (fifoInv_enqueue gid now w md token prio M a HI Hp Ha).
    destruct (isOnline _ && negb _); [|done].
    by apply fifoInv_processQueue. }
  destruct (fifoInv_run _ _ es M1 (reachable_invariant _ HM1)
              (reachable_tagged _ HM1) Hes Hord) as (_ & _ & _ & _ & H4).
  eapply ordered_sublist; [|apply (H4 n)].
  by apply sublist_inserts_r.
Qed.

Lemma later_message_does_not_overtake_witness :
  persistedIn 0
    (calls (run demoPass
              (queueMessage "m2" 2 true (demoData 1) "tok" medium
                 demoOffline)))
  = [0; 1]
  ∧ ordered 0 1
      (persistedIn 0
         (calls (run demoPass
                   (queueMessage "m2" 2 true (demoData 1) "tok" medium
                      demoOffline)))).
Proof.
  split; [reflexivity|].
  apply (later_message_does_not_overtake demoOffline "m2" 2%Z true
           (demoData 1) "tok" medium demoPass 0 0).
  - apply reachable_run, reachable_boot.
  - done.
  - reflexivity.
  - apply list_elem_of_singleton. reflexivity.
Defined.

End QueueTheory.

(** * Properties of the persistence service *)

Module PersistenceTheory.
Import Persistence.
Local Open Scope nat_scope.
Local Arguments Nat.ltb : simpl never.

Lemma delay_pos rc : (0 < delay rc)%Z.
Proof. unfold delay, retryDelay. apply Z.mul_pos_pos; [lia|]. apply Z.pow_pos_nonneg; lia. Qed.

Lemma delay_step rc n :
  (delay rc + retryDelay * (2 ^ Z.of_nat (S rc + n) - 2 ^ Z.of_nat (S rc))
   = retryDelay * (2 ^ Z.of_nat (rc + S n) - 2 ^ Z.of_nat rc))%Z.
Proof.
  unfold delay. replace (rc + S n) with (S rc + n) by lia.
  rewrite (Nat2Z.inj_succ rc), Z.pow_succ_r by lia. lia.
Qed.

(** More fuel than [retryAttempts - retryCount] changes nothing. *)
Lemma persistFrom_fuel md immediate replies fuel rc :
  retryAttempts - rc ≤ fuel →
  persistFrom fuel md immediate rc replies
  = persistMessage md immediate rc replies.
Proof.
  unfold persistMessage. revert rc.
  induction fuel as [|fuel IH]; intros rc Hle.
  - assert (retryAttempts - rc = 0) as -> by lia. done.
  - destruct (retryAttempts - rc) as [|k] eqn:Hk.
    + cbn. destruct (_ <=? _)%Z; [done|]. destruct (replies rc); [|done].
      destruct (Nat.ltb_spec rc retryAttempts); [lia|done].
    + cbn. destruct (_ <=? _)%Z; [done|]. destruct (replies rc); [|done].
      destruct (rc <? retryAttempts); [|done]. destruct immediate; [|done].
      rewrite IH by lia. fold (persistFrom k md true (S rc) replies).
      replace k with (retryAttempts - S rc) by lia.
      by fold (persistMessage md true (S rc) replies).
Qed.

Lemma persistMessage_invalid md immediate rc replies :
  (Queue.conversation_id md ≤ 0)%Z →
  persistMessage md immediate rc replies
  = Some (mkResult false None (Some "Invalid conversation_id"), []).
Proof.
  intros Hc. unfold persistMessage.
  destruct (retryAttempts - rc); cbn;
    by destruct (Z.leb_spec (Queue.conversation_id md) 0); [|lia].
Qed.

(** One step of the immediate mode. *)
Lemma persistMessage_immediate_step md rc replies :
  (0 < Queue.conversation_id md)%Z →
  persistMessage md true rc replies
  = match replies rc with
    | Stored i => Some (mkResult true (Some i) None, [Post rc])
    | Thrown e =>
        if rc <? retryAttempts
        then match persistMessage md true (S rc) replies with
             | Some (r, acts) => Some (r, Post rc :: Sleep (delay rc) :: acts)
             | None => None
             end
        else Some (mkResult false None (Some (default "Unknown error" e)),
                   [Post rc])
    end.
Proof.
  intros Hc. unfold persistMessage at 1.
  destruct (retryAttempts - rc) as [|k] eqn:Hk; cbn;
    (destruct (Z.leb_spec (Queue.conversation_id md) 0); [lia|]);
    (destruct (replies rc); [|done]);
    destruct (Nat.ltb_spec rc retryAttempts); try lia; try done.
  by rewrite persistFrom_fuel by lia.
Qed.

Lemma persistMessage_background md rc replies :
  (0 < Queue.conversation_id md)%Z →
  persistMessage md false rc replies
  = Some (match replies rc with
          | Stored i => (mkResult true (Some i) None, [Post rc])
          | Thrown e =>
              (mkResult false None (Some (default "Unknown error" e)),
               Post rc :: if rc <? retryAttempts
                          then [SetTimeout (delay rc) (S rc)] else [])
          end).
Proof.
  intros Hc. unfold persistMessage.
  destruct (retryAttempts - rc) as [|k] eqn:Hk; cbn;
    (destruct (Z.leb_spec (Queue.conversation_id md) 0); [lia|]);
    (destruct (replies rc); [|done]);
    by destruct (rc <? retryAttempts).
Qed.

(** The immediate mode, attempt by attempt: [n] is the number of retries. *)
Lemma immediate_spec md replies k rc :
  (0 < Queue.conversation_id md)%Z → retryAttempts - rc = k →
  ∃ r acts n,
    persistMessage md true rc replies = Some (r, acts)
    ∧ posts acts = seq rc (S n)
    ∧ n ≤ retryAttempts - rc
    ∧ (∀ j, j < n → isStored (replies (rc + j)) = false)
    ∧ success r = isStored (replies (rc + n))
    ∧ (success r = false → n = retryAttempts - rc)
    ∧ messageId r = match replies (rc + n) with
                    | Stored i => Some i
                    | Thrown _ => None
                    end
    ∧ slept acts
      = (retryDelay * (2 ^ Z.of_nat (rc + n) - 2 ^ Z.of_nat rc))%Z
    ∧ timers acts = [].
Proof.
  intros Hc. revert rc. induction k as [|k IH]; intros rc Hk;
    rewrite persistMessage_immediate_step by done.
  - destruct (Nat.ltb_spec rc retryAttempts); [lia|].
    destruct (replies rc) as [e|i] eqn:Hr; eexists _, _, 0;
      (split; [done|]); rewrite Nat.add_0_r, Hr;
      split_and!; try done; try lia; cbn; lia.
  - destruct (Nat.ltb_spec rc retryAttempts); [|lia].
    destruct (replies rc) as [e|i] eqn:Hr.
    + destruct (IH (S rc)) as (r & acts & n & -> & Hp & Hn & Hj & Hs & Hf & Hi & Hsl & Ht);
        [lia|].
      exists r, (Post rc :: Sleep (delay rc) :: acts), (S n).
      replace (rc + S n) with (S rc + n) by lia.
      split_and!; try done.
      * change (posts (Post rc :: Sleep (delay rc) :: acts))
          with (rc :: posts acts). by rewrite Hp.
      * lia.
      * intros [|j] Hlt; [by rewrite Nat.add_0_r, Hr|].
        replace (rc + S j) with (S rc + j) by lia. apply Hj. lia.
      * intros Hfalse. specialize (Hf Hfalse). lia.
      * change (slept (Post rc :: Sleep (delay rc) :: acts))
          with (delay rc + slept acts)%Z. rewrite Hsl.
        rewrite delay_step. by replace (rc + S n) with (S rc + n) by lia.
    + eexists _, _, 0. split; [done|]. rewrite Nat.add_0_r, Hr.
      split_and!; try done; try lia. cbn. lia.
Qed.

(** More fuel than [retryAttempts - retryCount] changes nothing. *)
Lemma executionsFrom_fuel md replies fuel rc :
  (0 < Queue.conversation_id md)%Z → retryAttempts - rc ≤ fuel →
  executionsFrom fuel md false rc replies = executions md false rc replies.
Proof.
  intros Hc. unfold executions. revert rc.
  induction fuel as [|fuel IH]; intros rc Hle.
  - assert (retryAttempts - rc = 0) as -> by lia. done.
  - destruct (retryAttempts - rc) as [|k] eqn:Hk; cbn [executionsFrom];
      rewrite persistMessage_background by done;
      (destruct (replies rc) as [e|i]; [|done]);
      destruct (Nat.ltb_spec rc retryAttempts); try lia; [done|].
    cbn. rewrite !app_nil_r. f_equal. rewrite IH by lia.
    by replace k with (retryAttempts - S rc) by lia.
Qed.

Lemma executions_background md replies rc :
  (0 < Queue.conversation_id md)%Z →
  executions md false rc replies
  = match replies rc with
    | Stored i => [(mkResult true (Some i) None, [Post rc])]
    | Thrown e =>
        (mkResult false None (Some (default "Unknown error" e)),
         Post rc :: if rc <? retryAttempts
                    then [SetTimeout (delay rc) (S rc)] else [])
        :: if rc <? retryAttempts
           then executions md false (S rc) replies else []
    end.
Proof.
  intros Hc. unfold executions at 1.
  destruct (retryAttempts - rc) as [|k] eqn:Hk; cbn [executionsFrom];
    rewrite persistMessage_background by done;
    (destruct (replies rc) as [e|i]; [|done]);
    destruct (Nat.ltb_spec rc retryAttempts); try lia; [done|].
  cbn. rewrite !app_nil_r. f_equal. apply executionsFrom_fuel; [done|lia].
Qed.

(** The executions of the background mode against the attempts of the
    immediate mode. *)
Lemma background_spec md replies k rc :
  (0 < Queue.conversation_id md)%Z → retryAttempts - rc = k →
  ∃ r acts,
    persistMessage md true rc replies = Some (r, acts)
    ∧ flat_map (λ x, posts x.2) (executions md false rc replies) = posts acts
    ∧ ∃ r' acts', last (executions md false rc replies) = Some (r', acts')
                  ∧ success r' = success r ∧ messageId r' = messageId r
                  ∧ timers acts' = [].
Proof.
  intros Hc. revert rc. induction k as [|k IH]; intros rc Hk;
    rewrite persistMessage_immediate_step by done;
    rewrite executions_background by done.
  - destruct (Nat.ltb_spec rc retryAttempts); [lia|].
    destruct (replies rc) as [e|i]; eexists _, _; (split; [done|]);
      (split; [done|]); eexists _, _; by split_and!.
  - destruct (Nat.ltb_spec rc retryAttempts); [|lia].
    destruct (replies rc) as [e|i].
    + destruct (IH (S rc)) as (r & acts & -> & Hp & r' & acts' & Hl & Hs);
        [lia|].
      eexists _, _. split; [done|]. split.
      * cbn [flat_map]. by rewrite Hp.
      * exists r', acts'. split; [|done].
        destruct (executions md false (S rc) replies) as [|x l]; [done|].
        by rewrite last_cons, Hl.
    + eexists _, _. split; [done|]. split; [done|].
      eexists _, _; by split_and!.
Qed.

Lemma slept_bound rc n :
  n ≤ retryAttempts - rc →
  (0 ≤ retryDelay * (2 ^ Z.of_nat (rc + n) - 2 ^ Z.of_nat rc) ≤ 7000)%Z.
Proof.
  unfold retryAttempts, retryDelay. intros Hn.
  destruct n as [|n]; [rewrite Nat.add_0_r; lia|].
  assert (2 ^ Z.of_nat (rc + S n) ≤ 2 ^ 3)%Z
    by (apply Z.pow_le_mono_r; lia).
  assert (2 ^ Z.of_nat rc ≤ 2 ^ Z.of_nat (rc + S n))%Z
    by (apply Z.pow_le_mono_r; lia).
  assert (0 < 2 ^ Z.of_nat rc)%Z by (apply Z.pow_pos_nonneg; lia).
  lia.
Qed.

(** The immediate mode succeeds exactly when one of the attempts it is
    entitled to does. *)
Lemma immediate_success md replies rc r acts :
  (0 < Queue.conversation_id md)%Z →
  persistMessage md true rc replies = Some (r, acts) →
  success r = true
  ↔ ∃ k, rc ≤ k ∧ k ≤ Nat.max rc retryAttempts ∧ isStored (replies k) = true.
Proof.
  intros Hc Heq.
  destruct (immediate_spec md replies _ rc Hc eq_refl)
    as (r0 & acts0 & n & Heq0 & _ & Hn & Hj & Hs & Hf & _).
  rewrite Heq in Heq0. injection Heq0 as <- <-. split.
  - intros Ht. exists (rc + n). rewrite <- Hs. split_and!; [lia|lia|done].
  - intros (k & Hk1 & Hk2 & Hk). destruct (success r) eqn:Hsr; [done|].
    specialize (Hf eq_refl). subst n.
    destruct (decide (k < rc + (retryAttempts - rc))) as [Hlt|Hge].
    + specialize (Hj (k - rc)). replace (rc + (k - rc)) with k in Hj by lia.
      rewrite Hj in Hk by lia. done.
    + replace (rc + (retryAttempts - rc)) with k in Hs by lia. congruence.
Qed.

(** X21: with [immediate] set, [persistMessage] is the whole retry loop.
    For a valid conversation id it POSTs with consecutive retry counts from
    the one it was given, stops at the first attempt that is stored or
    after the attempt with retry count [retryAttempts], and reports the
    outcome of the last attempt it made, so it reports failure only when
    every attempt failed.  Between attempts it sleeps [retryDelay] doubled
    each time, seven seconds at most in all, and it leaves no timer
    behind. *)
Theorem immediate_persistence_retries_with_backoff md rc replies :
  (0 < Queue.conversation_id md)%Z →
  ∃ r acts n,
    persistMessage md true rc replies = Some (r, acts)
    ∧ posts acts = seq rc (S n)
    ∧ n ≤ retryAttempts - rc
    ∧ (∀ j, j < n → isStored (replies (rc + j)) = false)
    ∧ success r = isStored (replies (rc + n))
    ∧ (success r = false → n = retryAttempts - rc)
    ∧ messageId r = match replies (rc + n) with
                    | Stored i => Some i
                    | Thrown _ => None
                    end
    ∧ slept acts
      = (retryDelay * (2 ^ Z.of_nat (rc + n) - 2 ^ Z.of_nat rc))%Z
    ∧ (0 ≤ slept acts ≤ 7000)%Z
    ∧ timers acts = [].
Proof.
  intros Hc.
  destruct (immediate_spec md replies _ rc Hc eq_refl)
    as (r & acts & n & Heq & Hp & Hn & Hj & Hs & Hf & Hi & Hsl & Ht).
  pose proof (slept_bound rc n Hn) as Hb. rewrite <- Hsl in Hb.
  exists r, acts, n. split_and!; try done; lia.
Qed.

Lemma immediate_persistence_retries_with_backoff_witness :
  ∃ r acts n,
    persistMessage (Queue.mkMessageData 5 "user" "hi" "text") true 0
                   demoReplies = Some (r, acts)
    ∧ posts acts = seq 0 (S n)
    ∧ n ≤ retryAttempts - 0
    ∧ (∀ j, j < n → isStored (demoReplies (0 + j)) = false)
    ∧ success r = isStored (demoReplies (0 + n))
    ∧ (success r = false → n = retryAttempts - 0)
    ∧ messageId r = match demoReplies (0 + n) with
                    | Stored i => Some i
                    | Thrown _ => None
                    end
    ∧ slept acts
      = (retryDelay * (2 ^ Z.of_nat (0 + n) - 2 ^ Z.of_nat 0))%Z
    ∧ (0 ≤ slept acts ≤ 7000)%Z
    ∧ timers acts = [].
Proof.
  apply (immediate_persistence_retries_with_backoff
           (Queue.mkMessageData 5 "user" "hi" "text") 0 demoReplies).
  reflexivity.
Defined.

(** X22: without [immediate], as the queue and [persistToolExecution] call
    it, [persistMessage] reports its first attempt alone: for a valid
    conversation id it makes one POST, does not sleep, and its [success] is
    what the queue takes for the answer of the Remote Writer.  After a
    failure with a retry count below [retryAttempts] it leaves one timer
    behind, and the executions the timers start make, one after the other,
    the very POSTs the immediate mode would have made; the last of them
    ends as the immediate mode would have ended.  So the caller is told of
    a failure although a later attempt stores the message; and when every
    attempt fails, a call with retry count [rc] makes as many POSTs as the
    queue has attempts left for an item with that retry count. *)
Theorem background_persistence_reports_first_attempt md rc replies :
  (0 < Queue.conversation_id md)%Z →
  ∃ r acts,
    persistMessage md false rc replies = Some (r, acts)
    ∧ head (executions md false rc replies) = Some (r, acts)
    ∧ posts acts = [rc] ∧ slept acts = 0%Z
    ∧ success r = Queue.persistMessage md (isStored (replies rc))
    ∧ timers acts
      = (if isStored (replies rc) || negb (rc <? retryAttempts)
         then [] else [(delay rc, S rc)])
    ∧ (∃ r1 acts1,
         persistMessage md true rc replies = Some (r1, acts1)
         ∧ flat_map (λ x, posts x.2) (executions md false rc replies)
           = posts acts1
         ∧ ∃ r' acts',
             last (executions md false rc replies) = Some (r', acts')
             ∧ success r' = success r1 ∧ messageId r' = messageId r1
             ∧ timers acts' = [])
    ∧ (isStored (replies rc) = false →
       ∀ k, rc < k → k ≤ retryAttempts → isStored (replies k) = true →
         success r = false
         ∧ ∃ x, x ∈ executions md false rc replies ∧ success x.1 = true)
    ∧ ((∀ k, isStored (replies k) = false) → rc ≤ Queue.maxRetries →
       length (flat_map (λ x, posts x.2) (executions md false rc replies))
       = Queue.attemptsLeft rc).
Proof.
  intros Hc.
  destruct (background_spec md replies _ rc Hc eq_refl)
    as (r1 & acts1 & Himm & Hposts & r' & acts' & Hlast & Hs' & Hi' & Ht').
  destruct (immediate_spec md replies _ rc Hc eq_refl)
    as (r0 & acts0 & n & Heq0 & Hp & Hn & Hj & Hs & Hf & _).
  rewrite Himm in Heq0. injection Heq0 as <- <-.
  assert (Queue.persistMessage md (isStored (replies rc))
          = isStored (replies rc)) as Hq.
  { unfold Queue.persistMessage.
    by destruct (Z.leb_spec (Queue.conversation_id md) 0); [lia|]. }
  assert (isStored (replies rc) = false →
          ∀ k, rc < k → k ≤ retryAttempts → isStored (replies k) = true →
            ∃ x, x ∈ executions md false rc replies ∧ success x.1 = true)
    as Hlate.
  { intros Hrc k Hk1 Hk2 Hk.
    exists (r', acts'). split; [by apply last_Some_elem_of|].
    cbn [fst]. rewrite Hs'.
    apply (immediate_success md replies rc r1 acts1 Hc Himm).
    exists k. split_and!; [lia|lia|done]. }
  assert ((∀ k, isStored (replies k) = false) → rc ≤ Queue.maxRetries →
          length (flat_map (λ x, posts x.2) (executions md false rc replies))
          = Queue.attemptsLeft rc) as Hcount.
  { intros Hall Hrc. rewrite Hposts, Hp, length_seq.
    unfold Queue.attemptsLeft. f_equal.
    rewrite Hall in Hs. specialize (Hf Hs).
    unfold retryAttempts, Queue.maxRetries in *. lia. }
  assert (∃ r1 acts1,
            persistMessage md true rc replies = Some (r1, acts1)
            ∧ flat_map (λ x, posts x.2) (executions md false rc replies)
              = posts acts1
            ∧ ∃ r' acts',
                last (executions md false rc replies) = Some (r', acts')
                ∧ success r' = success r1 ∧ messageId r' = messageId r1
                ∧ timers acts' = []) as Hsame.
  { exists r1, acts1. split_and!; [done..|]. by exists r', acts'. }
  clear Hposts Hlast Hp Hj Hs Hf.
  pose proof (persistMessage_background md rc replies Hc) as Hbg.
  pose proof (executions_background md replies rc Hc) as Hex.
  rewrite Hq. destruct (replies rc) as [e|i] eqn:Hr.
  - destruct (rc <? retryAttempts) eqn:Hlt;
      (eexists _, _; split; [exact Hbg|]);
      (split; [by rewrite Hex|]); (split; [done|]); (split; [done|]);
      (split; [done|]); (split; [done|]);
      (split; [done|]); (split; [|done]);
      intros _ k Hk1 Hk2 Hk; (split; [done|]); by apply (Hlate eq_refl k).
  - eexists _, _. split; [exact Hbg|].
    split; [by rewrite Hex|]. split; [done|]. split; [done|].
    split; [done|]. split; [done|].
    split; [done|]. split; [|done]. intros [=].
Qed.

Lemma background_persistence_reports_first_attempt_witness :
  (success <$> (fst <$> executions (Queue.mkMessageData 5 "user" "hi" "text")
                          false 0 demoReplies)) = [false; false; true]
  ∧ ∃ r acts,
    persistMessage (Queue.mkMessageData 5 "user" "hi" "text") false 0
                   demoReplies = Some (r, acts)
    ∧ success r = false
    ∧ timers acts = [(1000%Z, 1)].
Proof.
  split; [reflexivity|].
  destruct (background_persistence_reports_first_attempt
              (Queue.mkMessageData 5 "user" "hi" "text") 0 demoReplies
              eq_refl)
    as (r & acts & Heq & _ & _ & _ & Hs & Ht & _).
  exists r, acts. split_and!; [done|exact Hs|exact Ht].
Defined.

(** X23: the callers in the service.  [persistUserMessage],
    [persistAssistantMessage] and [persistError] come back only when the
    message is stored or four attempts have failed: they make at most four
    POSTs, spend at most seven seconds between them, leave no timer behind,
    and report success exactly when the conversation id is valid and one of
    the attempts 0 to 3 is stored.  [persistToolExecution] comes back after
    at most one POST without sleeping and reports success exactly when the
    id is valid and the first attempt is stored; a failure leaves one timer
    behind.  With an invalid conversation id none of them makes a request
    or sets a timer. *)
Theorem persistence_callers_bounded conversationId content replies :
  (∀ f,
     f ∈ [persistUserMessage; persistAssistantMessage; persistError] →
     ∃ r acts,
       f conversationId content replies = Some (r, acts)
       ∧ length (posts acts) ≤ S retryAttempts
       ∧ (0 ≤ slept acts ≤ 7000)%Z
       ∧ timers acts = []
       ∧ (success r = true
          ↔ (0 < conversationId)%Z
            ∧ ∃ k, k ≤ retryAttempts ∧ isStored (replies k) = true)
       ∧ ((conversationId ≤ 0)%Z → acts = []))
  ∧ ∃ r acts,
      persistToolExecution conversationId content replies = Some (r, acts)
      ∧ length (posts acts) ≤ 1
      ∧ slept acts = 0%Z
      ∧ length (timers acts) = (if success r then 0
                                else if (conversationId <=? 0)%Z then 0 else 1)
      ∧ (success r = true
         ↔ (0 < conversationId)%Z ∧ isStored (replies 0) = true)
      ∧ ((conversationId ≤ 0)%Z → acts = []).
Proof.
  assert (∀ sender type,
    ∃ r acts,
      persistMessage (Queue.mkMessageData conversationId sender content type)
                     true 0 replies = Some (r, acts)
      ∧ length (posts acts) ≤ S retryAttempts
      ∧ (0 ≤ slept acts ≤ 7000)%Z
      ∧ timers acts = []
      ∧ (success r = true
         ↔ (0 < conversationId)%Z
           ∧ ∃ k, k ≤ retryAttempts ∧ isStored (replies k) = true)
      ∧ ((conversationId ≤ 0)%Z → acts = [])) as Himm.
  { intros sender type.
    set (md := Queue.mkMessageData conversationId sender content type).
    destruct (Z.leb_spec conversationId 0) as [Hle|Hlt].
    - rewrite persistMessage_invalid by done. eexists _, _.
      split; [done|]. cbn. split_and!; try done; try lia.
    - destruct (immediate_spec md replies _ 0 Hlt eq_refl)
        as (r & acts & n & Heq & Hp & Hn & _ & _ & _ & _ & Hsl & Ht).
      exists r, acts. split; [done|].
      split; [rewrite Hp, length_seq; lia|].
      split; [rewrite Hsl; by apply slept_bound|].
      split; [done|]. split; [|lia].
      rewrite (immediate_success md replies 0 r acts Hlt Heq).
      split.
      + intros (k & _ & Hk & Hst). split; [done|]. exists k. split; [lia|done].
      + intros (_ & k & Hk & Hst). exists k. split_and!; [lia|lia|done]. }
  split.
  - intros f Hf. repeat apply elem_of_cons in Hf as [->|Hf];
      [apply Himm..|by apply elem_of_nil in Hf].
  - unfold persistToolExecution.
    set (md := Queue.mkMessageData conversationId _ _ _).
    destruct (Z.leb_spec conversationId 0) as [Hle|Hlt].
    + rewrite persistMessage_invalid by done. eexists _, _.
      split; [done|]. cbn. split_and!; try done; try lia.
    + rewrite persistMessage_background by done.
      destruct (replies 0) as [e|i]; eexists _, _; (split; [done|]);
        cbn; split_and!; try done; lia.
Qed.

End PersistenceTheory.
